(** * Effect unification, simplification and substitution

    A shallow embedding of the effect module (unification, simplification
    and substitutions over read/update effects) and of its pretty printer,
    together with the properties of the effect core that the design
    document lists.

    The module is TypeScript.  Three features of the language are visible
    in the behaviour of the code and are therefore part of the model:

    - [string[]] values are heap objects: [Array.prototype.sort] sorts its
      receiver in place, so a concrete bag of variables holds a reference
      into a store of arrays ([Heap.arrays]);
    - [Array.prototype.includes] and [Set] compare objects by identity:
      [Name] objects carry an allocation stamp, and quantified [Variables]
      objects (the only [Variables] objects that the module passes on
      without rebuilding) carry an object identity;
    - [Either] values of the sweet-monads library are ordinary values
      ([sum]); the effects of the functions that build them happen in
      program order and are threaded through the monad [M]. *)

From Stdlib Require Import String Ascii List Arith Bool Lia DecimalString.
From Stdlib Require OrderedTypeEx.
From stdpp Require Import base list strings sorting.
Import ListNotations.
Local Open Scope string_scope.
Local Open Scope list_scope.
#[local] Set Warnings "-register-all".

(** ** The heap and the monad of computations *)

(** A reference to a [string[]] object. *)
Abbreviation ref := nat.

Record Heap := mkHeap {
  arrays : list (list string);   (* the contents of every string[] *)
  nextName : nat                 (* allocation stamp of the next Name object *)
}.

(** What running a function from a heap can do: return, throw, or (for the
    fuel-bounded recursion of [unify]) run out of fuel. *)
Inductive Run (A : Type) : Type :=
| Returns (a : A) (h : Heap)
| Throws (msg : string) (h : Heap)
| OutOfFuel.
Arguments Returns {A} a h.
Arguments Throws {A} msg h.
Arguments OutOfFuel {A}.

Definition M (A : Type) : Type := Heap -> Run A.

Definition ret {A} (a : A) : M A := fun h => Returns a h.

Definition bind {A B} (m : M A) (k : A -> M B) : M B :=
  fun h => match m h with
           | Returns a h' => k a h'
           | Throws msg h' => Throws msg h'
           | OutOfFuel => OutOfFuel
           end.

Notation "'let*' x ':=' m 'in' k" := (bind m (fun x => k))
  (at level 10, x pattern, m at level 100, k at level 200).

Definition throw {A} (msg : string) : M A := fun h => Throws msg h.

Definition outOfFuel {A} : M A := fun _ => OutOfFuel.

Definition getHeap : M Heap := fun h => Returns h h.

(** [xs.map(f)] for an effectful [f]: the calls happen left to right. *)
Definition mapM {A B} (f : A -> M B) : list A -> M (list B) :=
  fix go (l : list A) : M (list B) :=
    match l with
    | [] => ret []
    | x :: r => let* y := f x in let* ys := go r in ret (y :: ys)
    end.

(** Array primitives. *)
Definition readArray (r : ref) (h : Heap) : list string :=
  default [] (arrays h !! r).

(** [[...xs]], [Array.from(xs)] or an array literal: a new array object. *)
Definition newArray (xs : list string) : M ref :=
  fun h => Returns (length (arrays h))
                   (mkHeap (arrays h ++ [xs]) (nextName h)).

Definition getArray (r : ref) : M (list string) :=
  fun h => Returns (readArray r h) h.

Definition setArray (r : ref) (xs : list string) : M unit :=
  fun h => Returns tt (mkHeap (<[r := xs]> (arrays h)) (nextName h)).

(** [r.push(...xs)] *)
Definition pushArray (r : ref) (xs : list string) : M unit :=
  let* old := getArray r in setArray r (old ++ xs).

(** ** Either, as the sweet-monads library defines it *)

Abbreviation Either L R := (sum L R).
Abbreviation Left := inl.
Abbreviation Right := inr.

(** [mergeInMany]: all the right values, or else all the left values. *)
Fixpoint mergeInManyFrom {L R} (acc : Either (list L) (list R))
    (es : list (Either L R)) : Either (list L) (list R) :=
  match es with
  | [] => acc
  | e :: rest =>
      mergeInManyFrom
        match acc, e with
        | Left ls, Left l => Left (ls ++ [l])
        | Left ls, Right _ => Left ls
        | Right _, Left l => Left [l]
        | Right rs, Right r => Right (rs ++ [r])
        end rest
  end.

Definition mergeInMany {L R} (es : list (Either L R)) : Either (list L) (list R) :=
  mergeInManyFrom (Right []) es.

(** [merge]: all the right values, or else the first left value. *)
Fixpoint mergeFrom {L R} (acc : Either L (list R))
    (es : list (Either L R)) : Either L (list R) :=
  match es with
  | [] => acc
  | e :: rest =>
      mergeFrom
        match acc, e with
        | Left l, _ => Left l
        | Right _, Left l => Left l
        | Right rs, Right r => Right (rs ++ [r])
        end rest
  end.

Definition merge {L R} (es : list (Either L R)) : Either L (list R) :=
  mergeFrom (Right []) es.

(** ** The data model *)

Inductive Variables : Type :=
| VConcrete (vars : ref)                        (* { kind: 'concrete', vars } *)
| VQuantified (obj : nat) (name : string)       (* { kind: 'quantified', name }, the object [obj] *)
| VUnion (variables : list Variables).          (* { kind: 'union', variables } *)

Inductive Effect : Type :=
| EQuantified (name : string)
| EConcrete (read update : Variables)
| EArrow (params : list Effect) (result : Effect).

Inductive ErrorTree : Type :=
| mkErrorTree (message : option string) (location : string)
              (children : list ErrorTree).

Definition location (t : ErrorTree) : string :=
  match t with mkErrorTree _ l _ => l end.
Definition message (t : ErrorTree) : option string :=
  match t with mkErrorTree m _ _ => m end.
Definition children (t : ErrorTree) : list ErrorTree :=
  match t with mkErrorTree _ _ c => c end.

(** [type Error = ErrorTree | ErrorTree[]] *)
Inductive Error : Type :=
| OneError (t : ErrorTree)
| ManyErrors (ts : list ErrorTree).

Inductive Substitution : Type :=
| SubVariable (name : string) (value : Variables)
| SubEffect (name : string) (value : Effect).

Definition subName (s : Substitution) : string :=
  match s with SubVariable n _ => n | SubEffect n _ => n end.

Inductive NameKind := KEffect | KVariable.

(** A [Name] object; [stamp] is its identity. *)
Record Name := mkName { stamp : nat; nameKind : NameKind; nameOf : string }.

(** Induction principles that reach below the lists of children. *)
Section VariablesInd.
Variable P : Variables -> Prop.
Hypothesis Hconcrete : forall r, P (VConcrete r).
Hypothesis Hquantified : forall o n, P (VQuantified o n).
Hypothesis Hunion : forall vs, Forall P vs -> P (VUnion vs).

Fixpoint Variables_nested_ind (v : Variables) : P v :=
  match v with
  | VConcrete r => Hconcrete r
  | VQuantified o n => Hquantified o n
  | VUnion vs =>
      Hunion vs
        ((fix all (l : list Variables) : Forall P l :=
            match l with
            | [] => List.Forall_nil P
            | x :: r => List.Forall_cons P x r (Variables_nested_ind x) (all r)
            end) vs)
  end.
End VariablesInd.

Section EffectInd.
Variable P : Effect -> Prop.
Hypothesis Hquantified : forall n, P (EQuantified n).
Hypothesis Hconcrete : forall r u, P (EConcrete r u).
Hypothesis Harrow : forall ps r, Forall P ps -> P r -> P (EArrow ps r).

Fixpoint Effect_nested_ind (e : Effect) : P e :=
  match e with
  | EQuantified n => Hquantified n
  | EConcrete r u => Hconcrete r u
  | EArrow ps r =>
      Harrow ps r
        ((fix all (l : list Effect) : Forall P l :=
            match l with
            | [] => List.Forall_nil P
            | x :: t => List.Forall_cons P x t (Effect_nested_ind x) (all t)
            end) ps)
        (Effect_nested_ind r)
  end.
End EffectInd.

(** ** Pretty printing (printing.ts) *)

(** [xs.join(sep)] *)
Fixpoint join (sep : string) (xs : list string) : string :=
  match xs with
  | [] => ""
  | [x] => x
  | x :: rest => x +:+ sep +:+ join sep rest
  end.

Definition quote (v : string) : string := "'" +:+ v +:+ "'".

Fixpoint variablesToString (h : Heap) (v : Variables) : string :=
  match v with
  | VConcrete r => join ", " (map quote (readArray r h))
  | VQuantified _ n => n
  | VUnion vs => join ", " (map (variablesToString h) vs)
  end.

(** [v.kind !== 'concrete' || v.vars.length > 0] *)
Definition printed (h : Heap) (v : Variables) : bool :=
  match v with
  | VConcrete r => negb (Nat.eqb (length (readArray r h)) 0)
  | _ => true
  end.

Fixpoint effectToString (h : Heap) (e : Effect) : string :=
  match e with
  | EConcrete read update =>
      let output :=
        (if printed h read then ["Read[" +:+ variablesToString h read +:+ "]"] else [])
        ++ (if printed h update then ["Update[" +:+ variablesToString h update +:+ "]"] else []) in
      if Nat.ltb 0 (length output) then join " & " output else "Pure"
  | EQuantified n => n
  | EArrow params result =>
      "(" +:+ join ", " (map (effectToString h) params) +:+ ") => " +:+ effectToString h result
  end.

Definition numberToString (n : nat) : string :=
  NilZero.string_of_uint (Nat.to_uint n).

(** ** Sorting and comparing bags of names *)

(** The comparator of [sortStrings]: [n1 > n2 ? 1 : -1], on code units. *)
Definition greater (n1 n2 : string) : bool := String.ltb n2 n1.

Fixpoint insertSorted (x : string) (l : list string) : list string :=
  match l with
  | [] => [x]
  | y :: rest => if greater x y then y :: insertSorted x rest else x :: l
  end.

(** The order [Array.prototype.sort] leaves the names in.  The comparator
    never answers 0, but the elements it misorders are equal strings, so
    every sorting procedure ends with the ascending list. *)
Definition sorted (xs : list string) : list string :=
  fold_right insertSorted [] xs.

(** [array.sort(...)] sorts the array object itself and returns it. *)
Definition sortStrings (array : ref) : M ref :=
  let* xs := getArray array in
  let* _ := setArray array (sorted xs) in
  ret array.

(** [v1s.every((value, index) => value === v2s[index])] *)
Fixpoint everyEqual (v1s v2s : list string) : bool :=
  match v1s, v2s with
  | [], _ => true
  | _ :: _, [] => false
  | x :: r1, y :: r2 => String.eqb x y && everyEqual r1 r2
  end.

Definition sameVars (v1 v2 : ref) : M bool :=
  let* v1s := sortStrings v1 in
  let* v2s := sortStrings v2 in
  let* a := getArray v1s in
  let* b := getArray v2s in
  ret (Nat.eqb (length a) (length b) && everyEqual a b).

(** ** Simplification *)

Fixpoint findVars (h : Heap) (variables : Variables) : list string :=
  match variables with
  | VQuantified _ _ => []
  | VConcrete r => readArray r h
  | VUnion vs => concat (map (findVars h) vs)
  end.

(** The [forEach] of [flattenUnions]: names of concrete children are pushed
    onto [vars]; quantified children and the members of child unions are
    pushed onto [unionVariables], which is returned. *)
Fixpoint collectFlattened (vars : ref) (flattenVariables : list Variables)
  : M (list Variables) :=
  match flattenVariables with
  | [] => ret []
  | v :: rest =>
      let* pushed :=
        match v with
        | VQuantified _ _ => ret [v]
        | VConcrete r =>
            let* xs := getArray r in
            let* _ := pushArray vars xs in
            ret []
        | VUnion members => ret members
        end in
      let* more := collectFlattened vars rest in
      ret (pushed ++ more)
  end.

Fixpoint flattenUnions (variables : Variables) : M Variables :=
  match variables with
  | VUnion children =>
      let* vars := newArray [] in
      let* flattenVariables := mapM flattenUnions children in
      let* unionVariables := collectFlattened vars flattenVariables in
      let* names := getArray vars in
      if Nat.ltb 0 (length unionVariables) then
        let variables' :=
          if Nat.ltb 0 (length names)
          then unionVariables ++ [VConcrete vars]
          else unionVariables in
        if Nat.ltb 1 (length variables') then ret (VUnion variables')
        else
          match variables' with
          | first :: _ => ret first           (* variables[0] *)
          | [] => ret (VUnion [])             (* not reached: unionVariables is not empty *)
          end
      else ret (VConcrete vars)
  | _ => ret variables
  end.

(** [Array.from(new Set<string>(xs))]: first occurrences, in order. *)
Fixpoint setOfStrings (seen xs : list string) : list string :=
  match xs with
  | [] => []
  | x :: rest =>
      if existsb (String.eqb x) seen then setOfStrings seen rest
      else x :: setOfStrings (x :: seen) rest
  end.

(** [Array.from(new Set<Variables>(vs))]: a [Set] of objects keeps one entry
    per object.  The concrete and union members are objects built by the
    [map] just before, each one new; a quantified member is the object of
    the input, dropped when the same object came earlier. *)
Fixpoint setOfObjects (seen : list nat) (vs : list Variables) : list Variables :=
  match vs with
  | [] => []
  | VQuantified o n :: rest =>
      if existsb (Nat.eqb o) seen then setOfObjects seen rest
      else VQuantified o n :: setOfObjects (o :: seen) rest
  | v :: rest => v :: setOfObjects seen rest
  end.

Fixpoint uniqueVariables (variables : Variables) : M Variables :=
  match variables with
  | VQuantified _ _ => ret variables
  | VConcrete r =>
      let* xs := getArray r in
      let* r' := newArray (setOfStrings [] xs) in
      ret (VConcrete r')
  | VUnion vs =>
      let* nestedVariables := mapM uniqueVariables vs in
      ret (VUnion (setOfObjects [] nestedVariables))
  end.

(** [updateVars.filter(v => updateVars.filter(v2 => v === v2).length > 1)] *)
Definition repeatedIn (updateVars : list string) : list string :=
  List.filter
    (fun v => Nat.ltb 1 (length (List.filter (fun v2 => String.eqb v v2) updateVars)))
    updateVars.

Definition simplifyConcreteEffect (read update : Variables)
  : M (Either ErrorTree Effect) :=
  let* flatRead := flattenUnions read in
  let* read' := uniqueVariables flatRead in
  let* update' := flattenUnions update in
  let* h := getHeap in
  let updateVars := findVars h update in
  let repeated := repeatedIn updateVars in
  if Nat.ltb 0 (length repeated) then
    ret (Left (mkErrorTree
                 (Some ("Multiple updates of variable(s): "
                        +:+ join "," (setOfStrings [] repeated)))
                 ("Trying to simplify effect " +:+ effectToString h (EConcrete read update))
                 []))
  else ret (Right (EConcrete read' update')).

(** [e.kind === 'concrete' ? simplifyConcreteEffect(e) : right(e)] *)
Definition simplifyIfConcrete (e : Effect) : M (Either ErrorTree Effect) :=
  match e with
  | EConcrete read update => simplifyConcreteEffect read update
  | _ => ret (Right e)
  end.

(** ** Error trees *)

Definition buildErrorTree (loc : string) (errors : Error) : ErrorTree :=
  match errors with
  | OneError t =>
      if String.eqb loc (location t) then t else mkErrorTree None loc [t]
  | ManyErrors ts => mkErrorTree None loc ts
  end.

Definition buildErrorLeaf (loc msg : string) : ErrorTree :=
  mkErrorTree (Some msg) loc [].

Definition mapLeft {L L' R} (f : L -> L') (e : Either L R) : Either L' R :=
  match e with
  | Left l => Left (f l)
  | Right r => Right r
  end.

(** ** Applying substitutions *)

(** [subs.find(s => s.name === name)] *)
Definition findByName (subs : list Substitution) (name : string)
  : option Substitution :=
  List.find (fun s => String.eqb (subName s) name) subs.

Fixpoint applySubstitutionToVariables (subs : list Substitution)
    (variables : Variables) : Variables :=
  match variables with
  | VQuantified _ name =>
      match findByName subs name with
      | Some (SubVariable _ value) => value
      | _ => variables
      end
  | VUnion vs => VUnion (map (applySubstitutionToVariables subs) vs)
  | VConcrete _ => variables
  end.

Fixpoint applySubstitution (subs : list Substitution) (e : Effect)
  : M (Either ErrorTree Effect) :=
  let* result :=
    match e with
    | EQuantified name =>
        match findByName subs name with
        | Some (SubEffect _ value) => ret (Right value)
        | _ => ret (Right e)
        end
    | EArrow params result =>
        let* applied := mapM (applySubstitution subs) params in
        let* chained :=
          match mergeInMany applied with
          | Left errors => ret (Left (ManyErrors errors))
          | Right ps =>
              let* arrowResult := applySubstitution subs result in
              match arrowResult with
              | Left err => ret (Left (OneError err))
              | Right r => ret (Right (EArrow ps r))
              end
          end in
        let* h := getHeap in
        ret (mapLeft
               (buildErrorTree
                  ("Applying substitution to arrow effect " +:+ effectToString h e))
               chained)
    | EConcrete read update =>
        ret (Right (EConcrete (applySubstitutionToVariables subs read)
                              (applySubstitutionToVariables subs update)))
    end in
  match result with
  | Right e' => simplifyIfConcrete e'
  | Left err => ret (Left err)
  end.

(** ** Names and the occurs-check *)

(** An object literal [{ kind, name }]: a new [Name] object. *)
Definition newName (kind : NameKind) (name : string) : M Name :=
  fun h => Returns (mkName (nextName h) kind name)
                   (mkHeap (arrays h) (S (nextName h))).

Fixpoint variablesNames (variables : Variables) : M (list Name) :=
  match variables with
  | VConcrete _ => ret []
  | VQuantified _ name => let* n := newName KVariable name in ret [n]
  | VUnion vs => let* nss := mapM variablesNames vs in ret (concat nss)
  end.

Fixpoint effectNames (effect : Effect) : M (list Name) :=
  match effect with
  | EConcrete read update =>
      let* r := variablesNames read in
      let* u := variablesNames update in
      ret (r ++ u)
  | EArrow params result =>
      let* nss := mapM effectNames params in
      let* r := effectNames result in
      ret (concat nss ++ r)
  | EQuantified name => let* n := newName KEffect name in ret [n]
  end.

(** [names.includes(x)] for an object [x]: is [x] itself an element? *)
Definition includes (names : list Name) (x : Name) : bool :=
  existsb (fun n => Nat.eqb (stamp n) (stamp x)) names.

Definition bindEffect (name : string) (effect : Effect)
  : M (Either string Substitution) :=
  let* names := effectNames effect in
  let* wanted := newName KEffect name in
  if includes names wanted then
    let* h := getHeap in
    ret (Left ("Can't bind " +:+ name +:+ " to " +:+ effectToString h effect
               +:+ ": cyclical binding"))
  else ret (Right (SubEffect name effect)).

Definition bindVariables (name : string) (variables : Variables)
  : M (Either string Substitution) :=
  let* names := variablesNames variables in
  let* wanted := newName KVariable name in
  if includes names wanted then
    let* h := getHeap in
    ret (Left ("Can't bind " +:+ name +:+ " to " +:+ variablesToString h variables
               +:+ ": cyclical binding"))
  else ret (Right (SubVariable name variables)).

(** ** Serialization *)

(** What [JSON.stringify] writes for a [Variables] value: its kinds, names
    and array contents, and nothing of the identity of its objects.  Two
    values have the same serialization exactly when these trees are equal. *)
Inductive Json : Type :=
| JConcrete (vars : list string)
| JQuantified (name : string)
| JUnion (variables : list Json).

Section JsonInd.
Variable P : Json -> Prop.
Hypothesis Hconcrete : forall xs, P (JConcrete xs).
Hypothesis Hquantified : forall n, P (JQuantified n).
Hypothesis Hunion : forall js, Forall P js -> P (JUnion js).

Fixpoint Json_nested_ind (j : Json) : P j :=
  match j with
  | JConcrete xs => Hconcrete xs
  | JQuantified n => Hquantified n
  | JUnion js =>
      Hunion js
        ((fix all (l : list Json) : Forall P l :=
            match l with
            | [] => List.Forall_nil P
            | x :: r => List.Forall_cons P x r (Json_nested_ind x) (all r)
            end) js)
  end.
End JsonInd.

Fixpoint stringify (h : Heap) (v : Variables) : Json :=
  match v with
  | VConcrete r => JConcrete (readArray r h)
  | VQuantified _ n => JQuantified n
  | VUnion vs => JUnion (map (stringify h) vs)
  end.

Fixpoint listEqb {A} (eqb : A -> A -> bool) (xs ys : list A) : bool :=
  match xs, ys with
  | [], [] => true
  | x :: xs', y :: ys' => eqb x y && listEqb eqb xs' ys'
  | _, _ => false
  end.

Fixpoint jsonEqb (a b : Json) : bool :=
  match a, b with
  | JConcrete xs, JConcrete ys => listEqb String.eqb xs ys
  | JQuantified n, JQuantified m => String.eqb n m
  | JUnion xs, JUnion ys =>
      (fix go (l : list Json) (ys : list Json) : bool :=
         match l, ys with
         | [], [] => true
         | x :: l', y :: ys' => jsonEqb x y && go l' ys'
         | _, _ => false
         end) xs ys
  | _, _ => false
  end.

(** ** Unification *)

Definition unifyVariablesLocation (h : Heap) (v1 v2 : Variables) : string :=
  "Trying to unify variables [" +:+ variablesToString h v1
  +:+ "] and [" +:+ variablesToString h v2 +:+ "]".

Definition unifyVariables (va vb : Variables)
  : M (Either ErrorTree (list Substitution)) :=
  let* v1 := flattenUnions va in
  let* v2 := flattenUnions vb in
  let* h := getHeap in
  let location := unifyVariablesLocation h v1 v2 in
  let bindTo name other :=
    let* bound := bindVariables name other in
    match bound with
    | Right subs => ret (Right [subs])
    | Left msg => ret (Left (buildErrorLeaf location msg))
    end in
  match v1, v2 with
  | VConcrete vars1, VConcrete vars2 =>
      let* same := sameVars vars1 vars2 in
      if same then ret (Right [])
      else
        let* h' := getHeap in
        ret (Left (mkErrorTree
                     (Some ("Expected variables [" +:+ join "," (readArray vars1 h')
                            +:+ "] and [" +:+ join "," (readArray vars2 h')
                            +:+ "] to be the same"))
                     location []))
  | VQuantified _ name1, VQuantified _ name2 =>
      if String.eqb name1 name2 then ret (Right [])
      else bindTo name1 v2
  | VQuantified _ name1, _ => bindTo name1 v2
  | _, VQuantified _ name2 => bindTo name2 v1
  | _, _ =>
      if jsonEqb (stringify h v1) (stringify h v2) then ret (Right [])
      else
        ret (Left (mkErrorTree
                     (Some "Unification for unions of variables is not implemented")
                     location []))
  end.

Definition applySubstitutionsToSubstitution (subs : list Substitution)
    (s : Substitution) : M (Either ErrorTree Substitution) :=
  match s with
  | SubEffect name value =>
      let* applied := applySubstitution subs value in
      match applied with
      | Right v => ret (Right (SubEffect name v))
      | Left err => ret (Left err)
      end
  | SubVariable name value =>
      ret (Right (SubVariable name (applySubstitutionToVariables subs value)))
  end.

(** [`${s}`] for an array of substitution objects. *)
Definition substitutionsToString (s : list Substitution) : string :=
  join "," (map (fun _ => "[object Object]") s).

Definition compose (s1 s2 : list Substitution)
  : M (Either ErrorTree (list Substitution)) :=
  let* applied := mapM (applySubstitutionsToSubstitution s1) s2 in
  match mergeInMany applied with
  | Right s => ret (Right (s1 ++ s))
  | Left errors =>
      ret (Left (buildErrorTree
                   ("Composing substitutions " +:+ substitutionsToString s1
                    +:+ " and " +:+ substitutionsToString s2)
                   (ManyErrors errors)))
  end.

Definition ensureConcreteEffect (e : Effect) : M Effect :=
  match e with
  | EConcrete _ _ => ret e
  | _ =>
      let* h := getHeap in
      throw ("Unexpected format on " +:+ effectToString h e
             +:+ " - should have kind 'concrete'")
  end.

Definition updateOf (e : Effect) : Variables :=
  match e with
  | EConcrete _ update => update
  | _ => VUnion []   (* not reached: [ensureConcreteEffect] has thrown *)
  end.

Definition unifyConcrete (location : string) (read1 update1 read2 update2 : Variables)
  : M (Either Error (list Substitution)) :=
  let* readUnificationResult := unifyVariables read1 read2 in
  let* updateUnificationResult :=
    match readUnificationResult with
    | Left err => ret (Left (OneError err))
    | Right subs =>
        let* a1 := applySubstitution subs (EConcrete read1 update1) in
        let* a2 := applySubstitution subs (EConcrete read2 update2) in
        match mergeInMany [a1; a2] with
        | Left errors => ret (Left (ManyErrors errors))
        | Right effects =>
            let* ensured := mapM ensureConcreteEffect effects in
            match ensured with
            | [e1s; e2s] =>
                let* r := unifyVariables (updateOf e1s) (updateOf e2s) in
                ret (mapLeft OneError r)
            | _ => ret (Right [])   (* not reached: there are two effects *)
            end
        end
    end in
  match merge [mapLeft OneError readUnificationResult; updateUnificationResult] with
  | Right s => ret (Right (concat s))
  | Left err => ret (Left err)
  end.

Section UnifyArrows.
(** The recursive calls of [unifyArrows] to [unify]. *)
Variable unify : Effect -> Effect -> M (Either ErrorTree (list Substitution)).

Definition applySubstitutionsAndUnify (subs : list Substitution) (e1 e2 : Effect)
  : M (Either Error (list Substitution)) :=
  let* a1 := applySubstitution subs e1 in
  let* a2 := applySubstitution subs e2 in
  match mergeInMany [a1; a2] with
  | Left errors => ret (Left (ManyErrors errors))
  | Right [x; y] =>
      let* newSubstitutions := unify x y in
      match newSubstitutions with
      | Left err => ret (Left (OneError err))
      | Right newSubs =>
          let* composed := compose subs newSubs in
          ret (mapLeft OneError composed)
      end
  | Right _ => ret (Right [])   (* not reached: there are two effects *)
  end.

(** [e1.params.reduce((result, e, i) => ..., right([]))], the parameters of
    [e2] taken at the same index. *)
Fixpoint unifyParams (result : Either Error (list Substitution))
    (params1 params2 : list Effect) : M (Either Error (list Substitution)) :=
  match params1, params2 with
  | e :: rest1, e' :: rest2 =>
      let* next :=
        match result with
        | Left err => ret (Left err)
        | Right subs => applySubstitutionsAndUnify subs e e'
        end in
      unifyParams next rest1 rest2
  | _, _ => ret result
  end.

Definition unifyArrows (location : string)
    (params1 : list Effect) (result1 : Effect)
    (params2 : list Effect) (result2 : Effect)
  : M (Either Error (list Substitution)) :=
  if negb (Nat.eqb (length params1) (length params2)) then
    ret (Left (OneError
                 (mkErrorTree
                    (Some ("Expected " +:+ numberToString (length params1)
                           +:+ " arguments, got " +:+ numberToString (length params2)))
                    location [])))
  else
    let* paramsUnification := unifyParams (Right []) params1 params2 in
    match paramsUnification with
    | Left err => ret (Left err)
    | Right subs => applySubstitutionsAndUnify subs result1 result2
    end.
End UnifyArrows.

Definition bindQuantified (location name : string) (other : Effect)
  : M (Either Error (list Substitution)) :=
  let* bound := bindEffect name other in
  match bound with
  | Right subs => ret (Right [subs])
  | Left msg => ret (Left (OneError (buildErrorLeaf location msg)))
  end.

Definition unifyLocation (h : Heap) (ea eb : Effect) : string :=
  "Trying to unify " +:+ effectToString h ea +:+ " and " +:+ effectToString h eb.

(** [unify] calls itself on the parameters of arrows after a substitution
    has been applied to them, which is not a structural descent: [fuel]
    bounds the depth of these calls. *)
Fixpoint unify (fuel : nat) (ea eb : Effect)
  : M (Either ErrorTree (list Substitution)) :=
  match fuel with
  | 0 => outOfFuel
  | S fuel' =>
      let* h := getHeap in
      let location := unifyLocation h ea eb in
      let* simplificationResults := mapM simplifyIfConcrete [ea; eb] in
      let* unified :=
        match mergeInMany simplificationResults with
        | Left errors => ret (Left (ManyErrors errors))
        | Right [e1; e2] =>
            match e1, e2 with
            | EArrow params1 result1, EArrow params2 result2 =>
                unifyArrows (unify fuel') location params1 result1 params2 result2
            | EConcrete read1 update1, EConcrete read2 update2 =>
                unifyConcrete location read1 update1 read2 update2
            | EQuantified name, _ => bindQuantified location name e2
            | _, EQuantified name => bindQuantified location name e1
            | _, _ =>
                ret (Left (OneError
                             (mkErrorTree
                                (Some "Can't unify different types of effects")
                                location [])))
            end
        | Right _ => ret (Right [])   (* not reached: there are two effects *)
        end in
      ret (mapLeft (buildErrorTree location) unified)
  end.

(** ** Vocabulary of the properties *)

Definition isUnion (v : Variables) : bool :=
  match v with VUnion _ => true | _ => false end.

Definition isQuantified (v : Variables) : bool :=
  match v with VQuantified _ _ => true | _ => false end.

Definition isConcrete (v : Variables) : bool :=
  match v with VConcrete _ => true | _ => false end.

(** No union, at any depth of [v], has a union among its children. *)
Fixpoint noUnionInUnion (v : Variables) : bool :=
  match v with
  | VUnion vs => forallb (fun c => negb (isUnion c) && noUnionInUnion c) vs
  | _ => true
  end.

(** The shape [flattenUnions] returns: a leaf, or a union of leaves. *)
Definition flat (v : Variables) : bool :=
  match v with
  | VUnion vs => forallb (fun c => negb (isUnion c)) vs
  | _ => true
  end.

(** The concrete bags among the children of a union. *)
Definition concreteChildren (v : Variables) : list Variables :=
  match v with
  | VUnion vs => List.filter isConcrete vs
  | _ => []
  end.

(** Every array reference in [v] is below [bound]. *)
Fixpoint refsBelow (bound : nat) (v : Variables) : bool :=
  match v with
  | VConcrete r => Nat.ltb r bound
  | VQuantified _ _ => true
  | VUnion vs => forallb (refsBelow bound) vs
  end.

(** The arrays of [v] exist in [h]. *)
Definition validIn (h : Heap) (v : Variables) : bool :=
  refsBelow (length (arrays h)) v.

(** Collecting names only allocates [Name] objects. *)
Definition namesOnly (h h' : Heap) : Prop :=
  arrays h' = arrays h /\ nextName h <= nextName h'.

(** Every name of the list was allocated before [h]. *)
Definition allocatedBefore (h : Heap) (ns : list Name) : Prop :=
  Forall (fun n => stamp n < nextName h) ns.

(** The serialization of an effect, for structural comparison. *)
Inductive JsonEffect : Type :=
| JEQuantified (name : string)
| JEConcrete (read update : Json)
| JEArrow (params : list JsonEffect) (result : JsonEffect).

Fixpoint stringifyEffect (h : Heap) (e : Effect) : JsonEffect :=
  match e with
  | EQuantified n => JEQuantified n
  | EConcrete read update => JEConcrete (stringify h read) (stringify h update)
  | EArrow params result =>
      JEArrow (map (stringifyEffect h) params) (stringifyEffect h result)
  end.

(** [s] has a binding, of either kind, for the name [n]. *)
Definition bindsName (s : list Substitution) (n : string) : bool :=
  existsb (fun b => String.eqb (subName b) n) s.

Definition isQuantifiedEffect (e : Effect) : bool :=
  match e with EQuantified _ => true | _ => false end.

(** ** Values without the heap *)

(** A [Variables] value with the contents of its arrays in place of the
    references: what the value is, whatever the addresses of its arrays. *)
Inductive Bag : Type :=
| BConcrete (vars : list string)
| BQuantified (obj : nat) (name : string)
| BUnion (variables : list Bag).

Section BagInd.
Variable P : Bag -> Prop.
Hypothesis Hconcrete : forall xs, P (BConcrete xs).
Hypothesis Hquantified : forall o n, P (BQuantified o n).
Hypothesis Hunion : forall bs, Forall P bs -> P (BUnion bs).

Fixpoint Bag_nested_ind (b : Bag) : P b :=
  match b with
  | BConcrete xs => Hconcrete xs
  | BQuantified o n => Hquantified o n
  | BUnion bs =>
      Hunion bs
        ((fix all (l : list Bag) : Forall P l :=
            match l with
            | [] => List.Forall_nil P
            | x :: r => List.Forall_cons P x r (Bag_nested_ind x) (all r)
            end) bs)
  end.
End BagInd.

Fixpoint bagOf (h : Heap) (v : Variables) : Bag :=
  match v with
  | VConcrete r => BConcrete (readArray r h)
  | VQuantified o n => BQuantified o n
  | VUnion vs => BUnion (map (bagOf h) vs)
  end.

(** What the [forEach] of [flattenUnions] pushes onto [unionVariables] and
    onto [vars] for one flattened child. *)
Definition unionPart (b : Bag) : list Bag :=
  match b with
  | BQuantified _ _ => [b]
  | BConcrete _ => []
  | BUnion members => members
  end.

Definition namesPart (b : Bag) : list string :=
  match b with
  | BConcrete xs => xs
  | _ => []
  end.

(** [flattenUnions] on the value. *)
Fixpoint flattenBag (b : Bag) : Bag :=
  match b with
  | BUnion children =>
      let flattened := map flattenBag children in
      let unionVariables := concat (map unionPart flattened) in
      let names := concat (map namesPart flattened) in
      if Nat.ltb 0 (length unionVariables) then
        let variables' :=
          if Nat.ltb 0 (length names)
          then unionVariables ++ [BConcrete names]
          else unionVariables in
        if Nat.ltb 1 (length variables') then BUnion variables'
        else match variables' with
             | first :: _ => first
             | [] => BUnion []
             end
      else BConcrete names
  | _ => b
  end.

(** The array [k] is not referenced in [v]. *)
Fixpoint avoids (k : nat) (v : Variables) : bool :=
  match v with
  | VConcrete r => negb (Nat.eqb r k)
  | VQuantified _ _ => true
  | VUnion vs => forallb (avoids k) vs
  end.

(** [h'] is [h] with new arrays. *)
Definition extends (h h' : Heap) : Prop :=
  nextName h' = nextName h /\ exists extra, arrays h' = arrays h ++ extra.

(** The specification of a function that rebuilds a value: it returns, only
    adds arrays, and its result is the function [pf] of the value. *)
Definition rebuilds (f : Variables -> M Variables) (pf : Bag -> Bag) (v : Variables) : Prop :=
  forall h, validIn h v = true ->
    exists v' h',
      f v h = Returns v' h'
      /\ extends h h'
      /\ validIn h' v' = true
      /\ bagOf h' v' = pf (bagOf h v)
      /\ (forall k, k < length (arrays h) -> avoids k v = true -> avoids k v' = true).

(** What the [forEach] pushes onto [unionVariables] for one child. *)
Definition unionMembers (v : Variables) : list Variables :=
  match v with
  | VQuantified _ _ => [v]
  | VConcrete _ => []
  | VUnion members => members
  end.

(** [uniqueVariables] on the value. *)
Fixpoint setOfBags (seen : list nat) (bs : list Bag) : list Bag :=
  match bs with
  | [] => []
  | BQuantified o n :: rest =>
      if existsb (Nat.eqb o) seen then setOfBags seen rest
      else BQuantified o n :: setOfBags (o :: seen) rest
  | b :: rest => b :: setOfBags seen rest
  end.

Fixpoint uniqueBag (b : Bag) : Bag :=
  match b with
  | BQuantified _ _ => b
  | BConcrete xs => BConcrete (setOfStrings [] xs)
  | BUnion bs => BUnion (setOfBags [] (map uniqueBag bs))
  end.

Fixpoint namesOfBag (b : Bag) : list string :=
  match b with
  | BQuantified _ _ => []
  | BConcrete xs => xs
  | BUnion bs => concat (map namesOfBag bs)
  end.

(** No name is updated twice. *)
Definition updateOk (b : Bag) : bool :=
  negb (Nat.ltb 0 (length (repeatedIn (namesOfBag b)))).

(** Substitutions on values: the name of each binding and, for a variable
    binding, its value. *)
Definition bindingOf (h : Heap) (s : Substitution) : string * option Bag :=
  match s with
  | SubVariable n v => (n, Some (bagOf h v))
  | SubEffect n _ => (n, None)
  end.

Definition validSub (h : Heap) (s : Substitution) : bool :=
  match s with
  | SubVariable _ v => validIn h v
  | SubEffect _ _ => true
  end.

Fixpoint applyBag (subs : list (string * option Bag)) (b : Bag) : Bag :=
  match b with
  | BQuantified _ n =>
      match List.find (fun s => String.eqb (fst s) n) subs with
      | Some (_, Some value) => value
      | _ => b
      end
  | BUnion bs => BUnion (map (applyBag subs) bs)
  | BConcrete _ => b
  end.

(** The serialization forgets the identity of quantified objects. *)
Fixpoint jsonOfBag (b : Bag) : Json :=
  match b with
  | BConcrete xs => JConcrete xs
  | BQuantified _ n => JQuantified n
  | BUnion bs => JUnion (map jsonOfBag bs)
  end.

(** [sameVars] on the contents of the two arrays. *)
Definition sameNames (xs ys : list string) : bool :=
  Nat.eqb (length (sorted xs)) (length (sorted ys))
  && everyEqual (sorted xs) (sorted ys).

(** The heap after [sameVars v1 v2]. *)
Definition sortedAt (v1 v2 : ref) (h : Heap) : Heap :=
  let h1 := mkHeap (<[v1 := sorted (readArray v1 h)]> (arrays h)) (nextName h) in
  mkHeap (<[v2 := sorted (readArray v2 h1)]> (arrays h1)) (nextName h1).

(** [unifyVariables] on two flattened values: the bindings, or nothing when
    it fails. *)
Definition unifyBags (b1 b2 : Bag) : option (list (string * option Bag)) :=
  match b1, b2 with
  | BConcrete xs, BConcrete ys => if sameNames xs ys then Some [] else None
  | BQuantified _ n1, BQuantified _ n2 =>
      if String.eqb n1 n2 then Some [] else Some [(n1, Some b2)]
  | BQuantified _ n1, _ => Some [(n1, Some b2)]
  | _, BQuantified _ n2 => Some [(n2, Some b1)]
  | _, _ => if jsonEqb (jsonOfBag b1) (jsonOfBag b2) then Some [] else None
  end.

Definition isRight {L R} (e : Either L R) : bool :=
  match e with Right _ => true | Left _ => false end.

Definition isSome {A} (o : option A) : bool :=
  match o with Some _ => true | None => false end.

(** [unifyConcrete] succeeds on two simplified effects. *)
Definition concreteUnifiable (read1 update1 read2 update2 : Bag) : bool :=
  match unifyBags (flattenBag read1) (flattenBag read2) with
  | None => false
  | Some subs =>
      updateOk (applyBag subs update1) && updateOk (applyBag subs update2)
      && isSome (unifyBags (flattenBag (flattenBag (applyBag subs update1)))
                           (flattenBag (flattenBag (applyBag subs update2))))
  end.

(** [unify] succeeds on two concrete effects. *)
Definition unifiable (read1 update1 read2 update2 : Bag) : bool :=
  updateOk update1 && updateOk update2
  && concreteUnifiable (uniqueBag (flattenBag read1)) (flattenBag update1)
                       (uniqueBag (flattenBag read2)) (flattenBag update2).

(** Renaming the quantified variables of a value, all taken as one object. *)
Fixpoint renameBag (f : string -> string) (b : Bag) : Bag :=
  match b with
  | BConcrete _ => b
  | BQuantified _ n => BQuantified 0 (f n)
  | BUnion bs => BUnion (map (renameBag f) bs)
  end.

Fixpoint renameJson (f : string -> string) (j : Json) : Json :=
  match j with
  | JConcrete _ => j
  | JQuantified n => JQuantified (f n)
  | JUnion js => JUnion (map (renameJson f) js)
  end.

Definition swapNames (a b x : string) : string :=
  if String.eqb x a then b else if String.eqb x b then a else x.

(** The arrays of an effect exist in [h]. *)
Fixpoint validEffect (h : Heap) (e : Effect) : bool :=
  match e with
  | EQuantified _ => true
  | EConcrete read update => validIn h read && validIn h update
  | EArrow params result => forallb (validEffect h) params && validEffect h result
  end.

Definition isArrow (e : Effect) : bool :=
  match e with EArrow _ _ => true | _ => false end.

(** ** Vocabulary of the further properties *)

(** The names of [l] are in ascending order of code units. *)
Fixpoint ascending (l : list string) : bool :=
  match l with
  | x :: rest =>
      match rest with
      | y :: _ => negb (greater x y) && ascending rest
      | [] => true
      end
  | [] => true
  end.

(** The comparator of [sortStrings] does not put [x] after [y]. *)
Definition notGreater (x y : string) : Prop := greater x y = false.

(** [x] occurs [occurrences x l] times in [l]. *)
Definition occurrences (x : string) (l : list string) : nat :=
  length (List.filter (fun y => String.eqb x y) l).

(** The contents of the concrete bags of a value. *)
Fixpoint concreteBags (b : Bag) : list (list string) :=
  match b with
  | BConcrete xs => [xs]
  | BQuantified _ _ => []
  | BUnion bs => concat (map concreteBags bs)
  end.

(** The names of the quantified variables of a value, one per occurrence,
    from left to right. *)
Fixpoint quantifiedNames (v : Variables) : list string :=
  match v with
  | VConcrete _ => []
  | VQuantified _ n => [n]
  | VUnion vs => concat (map quantifiedNames vs)
  end.

Fixpoint quantifiedOfBag (b : Bag) : list string :=
  match b with
  | BConcrete _ => []
  | BQuantified _ n => [n]
  | BUnion bs => concat (map quantifiedOfBag bs)
  end.

Definition isUnionBag (b : Bag) : bool :=
  match b with BUnion _ => true | _ => false end.

Definition isQuantifiedBag (b : Bag) : bool :=
  match b with BQuantified _ _ => true | _ => false end.

(** [flat], on values. *)
Definition flatBag (b : Bag) : bool :=
  match b with
  | BUnion bs => forallb (fun c => negb (isUnionBag c)) bs
  | _ => true
  end.

(** The kind and the name of every quantified name of [e], one per
    occurrence, from left to right. *)
Fixpoint quantifiedInEffect (e : Effect) : list (NameKind * string) :=
  match e with
  | EQuantified n => [(KEffect, n)]
  | EConcrete read update =>
      map (pair KVariable) (quantifiedNames read ++ quantifiedNames update)
  | EArrow params result =>
      concat (map quantifiedInEffect params) ++ quantifiedInEffect result
  end.

Definition kindAndName (n : Name) : NameKind * string := (nameKind n, nameOf n).

(** The [Name] objects [ns] are the ones allocated between [h] and [h'], in
    order, and the arrays of the two heaps are the same. *)
Definition stampedFrom (h h' : Heap) (ns : list Name) : Prop :=
  map stamp ns = seq (nextName h) (length ns)
  /\ nextName h' = nextName h + length ns
  /\ arrays h' = arrays h.

(** ['effect' | 'variable'], the [kind] of a binding. *)
Definition subKind (s : Substitution) : NameKind :=
  match s with SubVariable _ _ => KVariable | SubEffect _ _ => KEffect end.

Definition isVariableBinding (s : Substitution) : bool :=
  match s with SubVariable _ _ => true | SubEffect _ _ => false end.

Definition isConcreteEffect (e : Effect) : bool :=
  match e with EConcrete _ _ => true | _ => false end.

(** A list of at most one binding, of a variable. *)
Definition oneVariableBinding (s : list Substitution) : Prop :=
  s = [] \/ exists n v, s = [SubVariable n v].

(** At most two bindings, all of variables. *)
Definition variableBindings (s : list Substitution) : Prop :=
  forallb isVariableBinding s = true /\ length s <= 2.

Definition onRight {L R} (Q : R -> Prop) (e : Either L R) : Prop :=
  match e with Right r => Q r | Left _ => True end.

Definition anything {A} (a : A) : Prop := True.

(** [m] executes no [throw]: from every heap it returns a value that
    satisfies [Q], or runs out of fuel. *)
Definition noThrow {A} (Q : A -> Prop) (m : M A) : Prop :=
  forall h, match m h with
            | Returns a _ => Q a
            | Throws _ _ => False
            | OutOfFuel => True
            end.

(** Running [m] on a heap of at least [n] arrays removes no array, leaves
    each of the first [n] arrays related by [R] to what it was, and returns a
    value that satisfies [Q]. *)
Definition keeps (R : list string -> list string -> Prop) (n : nat)
    {A} (Q : A -> Prop) (m : M A) : Prop :=
  forall h, n <= length (arrays h) ->
    match m h with
    | Returns a h' =>
        length (arrays h) <= length (arrays h')
        /\ (forall r, r < n -> R (readArray r h) (readArray r h'))
        /\ Q a
    | _ => True
    end.

(** The same names, in any order. *)
Definition reordered (xs ys : list string) : Prop := Permutation xs ys.

(** ** Example values *)

(** A heap of [n] empty arrays, no [Name] object allocated yet. *)
Definition emptyArrays (n : nat) : Heap := mkHeap (repeat [] n) 0.

(** [Pure], its read bag at [r] and its update bag at [r + 1]. *)
Definition pureAt (r : ref) : Effect := EConcrete (VConcrete r) (VConcrete (S r)).

(** [(e) => Pure] *)
Definition arrowOverE : Effect := EArrow [EQuantified "e"] (pureAt 0).

(** [(a, b) => Pure] and [(b, Pure) => Pure] *)
Definition arrowAB : Effect := EArrow [EQuantified "a"; EQuantified "b"] (pureAt 0).
Definition arrowBPure : Effect := EArrow [EQuantified "b"; pureAt 2] (pureAt 4).

(** [Read[a] & Update[b]] and [Read[b] & Update['x']], over the heap
    [concreteHeap]. *)
Definition concreteHeap : Heap := mkHeap [["x"]] 0.
Definition readAUpdateB : Effect := EConcrete (VQuantified 0 "a") (VQuantified 1 "b").
Definition readBUpdateX : Effect := EConcrete (VQuantified 2 "b") (VConcrete 0).

(** [Update['y', 'x']] and [Update['x', 'y']], over the heap [updateHeap]. *)
Definition updateHeap : Heap := mkHeap [[]; ["y"; "x"]; []; ["x"; "y"]] 0.
Definition updateYX : Effect := EConcrete (VConcrete 0) (VConcrete 1).
Definition updateXY : Effect := EConcrete (VConcrete 2) (VConcrete 3).

(** The bag [a, 'x'] inside a union next to the bag ['y'], over the heap
    [nestedHeap]; and the effect that updates it. *)
Definition nestedHeap : Heap := mkHeap [["x"]; ["y"]; []] 0.
Definition nestedUnion : Variables :=
  VUnion [VUnion [VQuantified 0 "a"; VConcrete 0]; VConcrete 1].
Definition updateNested : Effect := EConcrete (VConcrete 2) nestedUnion.

(** [(x, y, x) => Pure] and [(y, Read['u'], Read['w']) => Pure], over the heap
    [arrowsHeap]. *)
Definition arrowsHeap : Heap := mkHeap [["u"]; []; ["w"]; []; []; []; []; []] 0.
Definition arrowXYX : Effect :=
  EArrow [EQuantified "x"; EQuantified "y"; EQuantified "x"] (pureAt 4).
Definition arrowYUW : Effect :=
  EArrow [EQuantified "y"; EConcrete (VConcrete 0) (VConcrete 1);
          EConcrete (VConcrete 2) (VConcrete 3)] (pureAt 6).

(** The unions [a, b] and [b, a]. *)
Definition unionAB : Variables := VUnion [VQuantified 0 "a"; VQuantified 1 "b"].
Definition unionBA : Variables := VUnion [VQuantified 1 "b"; VQuantified 0 "a"].

(** The bag ['x', 'x'] at array 1, and the effect that updates it. *)
Definition twiceHeap : Heap := mkHeap [[]; ["x"; "x"]] 0.
Definition updateTwice : Effect := EConcrete (VConcrete 0) (VConcrete 1).

(** The union of [a] and the bags ['x'] and ['y'], over the heap
    [nestedHeap]. *)
Definition leavesUnion : list Variables :=
  [VQuantified 0 "a"; VConcrete 0; VConcrete 1].

(** [((e) => e) => ((e) => e)] and [(e) => e]. *)
Definition idArrow : Effect := EArrow [EQuantified "e"] (EQuantified "e").
Definition idArrowArrow : Effect := EArrow [idArrow] idArrow.

(** [(v, Read[v]) => Pure] and [(Pure, Read['x']) => Pure], over the heap
    [shadowHeap]: [v] names an effect and a variable. *)
Definition shadowHeap : Heap := mkHeap [[]; []; []; ["x"]; []; []; []] 0.
Definition arrowVReadV : Effect :=
  EArrow [EQuantified "v"; EConcrete (VQuantified 0 "v") (VConcrete 0)] (pureAt 1).
Definition arrowPureReadX : Effect :=
  EArrow [pureAt 1; EConcrete (VConcrete 3) (VConcrete 4)] (pureAt 5).

(** * Properties *)

(** ** Running computations *)

Ltac run :=
  repeat (unfold bind, ret, getHeap, throw, outOfFuel, newArray, getArray,
          setArray, pushArray, newName in *; cbn [fst snd] in *).

Lemma bind_returns {A B} (m : M A) (k : A -> M B) h a h' :
  m h = Returns a h' -> bind m k h = k a h'.
Proof. intros E. unfold bind. now rewrite E. Qed.

Lemma bind_getHeap {B} (k : Heap -> M B) h : bind getHeap k h = k h h.
Proof. reflexivity. Qed.

(** A function that returns, with a result in [Q], on each element of a list
    returns on the whole list through [mapM]. *)
Lemma mapM_returns {A B} (f : A -> M B) (Q : B -> Prop) (l : list A) :
  Forall (fun x => forall h, exists y h', f x h = Returns y h' /\ Q y) l ->
  forall h, exists ys h', mapM f l h = Returns ys h' /\ Forall Q ys.
Proof.
  induction 1 as [|x l Hx _ IH]; intros h.
  - exists [], h. split; [reflexivity | constructor].
  - destruct (Hx h) as (y & h1 & Ey & Qy).
    destruct (IH h1) as (ys & h2 & Eys & Qys).
    exists (y :: ys), h2. split; [| now constructor].
    cbn. unfold bind at 1. rewrite Ey.
    unfold bind at 1.
    change ((fix go (l0 : list A) : M (list B) :=
               match l0 with
               | [] => ret []
               | x0 :: r => bind (f x0) (fun y0 => bind (go r) (fun ys0 => ret (y0 :: ys0)))
               end) l h1) with (mapM f l h1).
    now rewrite Eys.
Qed.

(** ** The flattening invariant *)

Lemma flat_noUnionInUnion v : flat v = true -> noUnionInUnion v = true.
Proof.
  destruct v as [r|o n|vs]; cbn; trivial.
  intros H. apply forallb_forall. intros c Hc.
  rewrite forallb_forall in H. specialize (H c Hc).
  rewrite H. destruct c; cbn in *; trivial; discriminate.
Qed.

Lemma notUnion_flat v : isUnion v = false -> flat v = true.
Proof. destruct v; cbn; trivial; discriminate. Qed.

Lemma collectFlattened_leaves fvs :
  Forall (fun v => flat v = true) fvs ->
  forall vars h, exists us h',
    collectFlattened vars fvs h = Returns us h'
    /\ Forall (fun u => isUnion u = false) us.
Proof.
  induction 1 as [|v fvs Hv _ IH]; intros vars h.
  - exists [], h. split; [reflexivity | constructor].
  - destruct v as [r|o n|members]; cbn [collectFlattened]; run.
    + destruct (IH vars
                  (mkHeap (<[vars := readArray vars h ++ readArray r h]> (arrays h))
                          (nextName h))) as (us & h' & E & F).
      rewrite E. exists us, h'. now split.
    + destruct (IH vars h) as (us & h' & E & F).
      rewrite E. exists (VQuantified o n :: us), h'. split; [reflexivity|].
      now constructor.
    + destruct (IH vars h) as (us & h' & E & F).
      rewrite E. exists (members ++ us), h'. split; [reflexivity|].
      apply Forall_app. split; [| exact F].
      cbn in Hv. apply Forall_forall. intros c Hc.
      rewrite forallb_forall in Hv.
      apply list_elem_of_In in Hc. specialize (Hv c Hc).
      now apply negb_true_iff in Hv.
Qed.

Lemma flattenUnions_flat v :
  forall h, exists v' h', flattenUnions v h = Returns v' h' /\ flat v' = true.
Proof.
  induction v as [r|o n|vs IH] using Variables_nested_ind; intros h.
  - exists (VConcrete r), h. now split.
  - exists (VQuantified o n), h. now split.
  - cbn [flattenUnions]. unfold bind at 1. unfold newArray at 1.
    destruct (mapM_returns flattenUnions (fun v => flat v = true) vs IH
                (mkHeap (arrays h ++ [[]]) (nextName h)))
      as (fvs & h1 & E1 & F1).
    unfold bind at 1. rewrite E1.
    destruct (collectFlattened_leaves fvs F1 (length (arrays h)) h1)
      as (us & h2 & E2 & F2).
    unfold bind at 1. rewrite E2.
    unfold bind at 1, getArray at 1.
    destruct (Nat.ltb 0 (length us)) eqn:Hus.
    + set (vs' := if Nat.ltb 0 (length (readArray (length (arrays h)) h2))
                  then us ++ [VConcrete (length (arrays h))] else us).
      assert (F' : Forall (fun u => isUnion u = false) vs').
      { subst vs'. destruct (Nat.ltb 0 (length (readArray _ _))); [| exact F2].
        apply Forall_app. split; [exact F2 | now repeat constructor]. }
      destruct (Nat.ltb 1 (length vs')).
      * exists (VUnion vs'), h2. split; [reflexivity|].
        cbn [flat]. apply forallb_forall. intros c Hc.
        rewrite Forall_forall in F'.
        apply negb_true_iff, F'. now apply list_elem_of_In.
      * destruct vs' as [|first rest].
        -- exists (VUnion []), h2. now split.
        -- exists first, h2. split; [reflexivity|].
           apply notUnion_flat. now inversion F'.
    + exists (VConcrete (length (arrays h))), h2. now split.
Qed.

(** C9. For every value [v] of [Variables] and every heap, [flattenUnions v]
    returns, and no union reachable in its result (at any depth) has a union
    among its children. *)
Theorem flattenUnions_noUnionInUnion (v : Variables) (h : Heap) :
  exists v' h',
    flattenUnions v h = Returns v' h' /\ noUnionInUnion v' = true.
Proof.
  destruct (flattenUnions_flat v h) as (v' & h' & E & F).
  exists v', h'. split; [exact E | now apply flat_noUnionInUnion].
Qed.

(** ** Flattening a union of leaves *)

Lemma mapM_flattenUnions_leaves children h :
  forallb (fun c => negb (isUnion c)) children = true ->
  mapM flattenUnions children h = Returns children h.
Proof.
  induction children as [|c children IH]; cbn [forallb]; intros H; [reflexivity|].
  apply andb_true_iff in H as [Hc Hrest].
  change (mapM flattenUnions (c :: children))
    with (bind (flattenUnions c)
               (fun y => bind (mapM flattenUnions children) (fun ys => ret (y :: ys)))).
  assert (Ec : flattenUnions c h = Returns c h) by (destruct c; [reflexivity..|discriminate]).
  now rewrite (bind_returns _ _ _ _ _ Ec), (bind_returns _ _ _ _ _ (IH Hrest)).
Qed.

Lemma readArray_insert_other r vars xs l n :
  r <> vars -> readArray r (mkHeap (<[vars := xs]> l) n) = default [] (l !! r).
Proof.
  intros Hne. unfold readArray. cbn [arrays].
  now rewrite list_lookup_insert_ne by congruence.
Qed.

Lemma findVars_leaves_insert vars xs children g :
  forallb (fun c => negb (isUnion c)) children = true ->
  forallb (refsBelow vars) children = true ->
  concat (map (findVars (mkHeap (<[vars := xs]> (arrays g)) (nextName g))) children)
  = concat (map (findVars g) children).
Proof.
  induction children as [|c children IH]; cbn [forallb]; intros HL HB; [reflexivity|].
  apply andb_true_iff in HL as [Lc Lrest]. apply andb_true_iff in HB as [Bc Brest].
  cbn [map concat]. rewrite (IH Lrest Brest). f_equal.
  destruct c as [r|o n|vs]; [| reflexivity | discriminate].
  cbn [findVars refsBelow] in *. apply Nat.ltb_lt in Bc.
  rewrite readArray_insert_other by lia. reflexivity.
Qed.

(** The [forEach] over leaves: the quantified ones are kept, in order, and
    the names of the concrete ones are appended to [vars], in order. *)
Lemma collectFlattened_of_leaves vars children :
  forallb (fun c => negb (isUnion c)) children = true ->
  forallb (refsBelow vars) children = true ->
  forall g, vars < length (arrays g) ->
    collectFlattened vars children g
    = Returns (List.filter isQuantified children)
              (mkHeap (<[vars := readArray vars g
                                 ++ concat (map (findVars g) children)]> (arrays g))
                      (nextName g)).
Proof.
  induction children as [|c children IH]; cbn [forallb]; intros HL HB g Hvars.
  - cbn [collectFlattened map concat List.filter]. unfold ret. f_equal.
    rewrite app_nil_r. destruct g as [l n]. cbn [arrays nextName]. f_equal.
    unfold readArray. cbn [arrays] in *.
    destruct (lookup_lt_is_Some_2 l vars Hvars) as [xs E].
    rewrite E. cbn. symmetry. now apply list_insert_id.
  - apply andb_true_iff in HL as [Lc Lrest]. apply andb_true_iff in HB as [Bc Brest].
    destruct c as [r|o n|vs]; [| | discriminate].
    + set (g1 := mkHeap (<[vars := readArray vars g ++ readArray r g]> (arrays g))
                        (nextName g)).
      assert (Hvars1 : vars < length (arrays g1))
        by (subst g1; cbn [arrays]; now rewrite length_insert).
      assert (Epush : (let* xs := getArray r in
                       let* _ := pushArray vars xs in
                       ret (@nil Variables)) g = Returns [] g1) by reflexivity.
      cbn [collectFlattened].
      rewrite (bind_returns _ _ _ _ _ Epush),
        (bind_returns _ _ _ _ _ (IH Lrest Brest g1 Hvars1)).
      cbn [List.filter isQuantified map concat findVars ret app]. f_equal.
      subst g1. cbn [arrays nextName]. f_equal.
      rewrite list_insert_insert_eq. f_equal.
      rewrite (findVars_leaves_insert vars _ children g Lrest Brest).
      unfold readArray at 1. cbn [arrays].
      rewrite list_lookup_insert_eq by exact Hvars. cbn.
      now rewrite <- app_assoc.
    + cbn [collectFlattened List.filter isQuantified map concat findVars].
      rewrite (bind_returns _ _ _ _ _
                 (eq_refl : ret [VQuantified o n] g = Returns _ g)).
      now rewrite (bind_returns _ _ _ _ _ (IH Lrest Brest g Hvars)).
Qed.

(** On a union whose children are concrete bags and quantified variables,
    [flattenUnions] does what C4 describes: the names of the concrete
    children go to one new bag, which comes after the quantified children
    when both are present; a lone quantified child is returned as it is.
    The result has at most one concrete child. *)
Lemma flattenUnions_of_leaves children h :
  forallb (fun c => negb (isUnion c)) children = true ->
  forallb (validIn h) children = true ->
  let quantified := List.filter isQuantified children in
  let collected := concat (map (findVars h) children) in
  let vars := length (arrays h) in
  exists v' h',
    flattenUnions (VUnion children) h = Returns v' h'
    /\ arrays h' = arrays h ++ [collected]
    /\ v' = match quantified, collected with
            | [], _ => VConcrete vars
            | [only], [] => only
            | _, [] => VUnion quantified
            | _, _ => VUnion (quantified ++ [VConcrete vars])
            end
    /\ length (concreteChildren v') <= 1.
Proof.
  intros HL HV quantified collected vars.
  set (h1 := mkHeap (arrays h ++ [[]]) (nextName h)).
  assert (Hvars : vars < length (arrays h1))
    by (subst h1 vars; cbn [arrays]; rewrite length_app; cbn; lia).
  assert (E0 : readArray vars h1 = []).
  { subst h1 vars. unfold readArray. cbn [arrays].
    now rewrite lookup_app_r, Nat.sub_diag by lia. }
  assert (E1 : concat (map (findVars h1) children) = collected).
  { subst collected h1. clear Hvars E0.
    induction children as [|c children IH]; [reflexivity|].
    cbn [forallb] in HL, HV.
    apply andb_true_iff in HL as [Lc Lrest]. apply andb_true_iff in HV as [Vc Vrest].
    cbn [map concat]. rewrite (IH Lrest Vrest). f_equal.
    destruct c as [r|o n|vs]; [| reflexivity | discriminate].
    cbn [findVars]. unfold validIn in Vc. cbn [refsBelow] in Vc.
    apply Nat.ltb_lt in Vc. unfold readArray. cbn [arrays].
    now rewrite lookup_app_l by exact Vc. }
  assert (E2 : <[vars := collected]> (arrays h1) = arrays h ++ [collected]).
  { subst h1 vars. cbn [arrays].
    replace (length (arrays h)) with (length (arrays h) + 0) by lia.
    now rewrite insert_app_r. }
  assert (Q : Forall (fun q => isQuantified q = true) quantified).
  { subst quantified. apply Forall_forall. intros q Hq.
    apply list_elem_of_In, filter_In in Hq. tauto. }
  assert (QC : List.filter isConcrete quantified = []).
  { clear -Q. induction Q as [|q qs Hq _ IH]; [reflexivity|].
    cbn. destruct q; try discriminate. exact IH. }
  assert (E3 : forall n, readArray vars (mkHeap (arrays h ++ [collected]) n) = collected).
  { intros n. unfold readArray. cbn [arrays].
    now rewrite list_lookup_middle by reflexivity. }
  exists (match quantified, collected with
          | [], _ => VConcrete vars
          | [only], [] => only
          | _, [] => VUnion quantified
          | _, _ => VUnion (quantified ++ [VConcrete vars])
          end),
         (mkHeap (arrays h ++ [collected]) (nextName h)).
  split; [| split; [reflexivity | split; [reflexivity|]]].
  - cbn [flattenUnions]. unfold bind at 1. unfold newArray at 1.
    fold h1. fold vars.
    rewrite (bind_returns _ _ _ _ _ (mapM_flattenUnions_leaves children h1 HL)).
    rewrite (bind_returns _ _ _ _ _
               (collectFlattened_of_leaves vars children HL HV h1 Hvars)).
    rewrite E0, E1. cbn [app]. rewrite E2.
    rewrite (bind_returns _ _ _ _ _ (eq_refl : getArray vars _ = Returns _ _)).
    rewrite E3. fold quantified. cbn [nextName h1].
    destruct quantified as [|q1 [|q2 qs]]; destruct collected as [|x xs]; reflexivity.
  - assert (Hu : length (concreteChildren (VUnion quantified)) <= 1)
      by (cbn [concreteChildren]; rewrite QC; cbn; lia).
    assert (Huc : length (concreteChildren (VUnion (quantified ++ [VConcrete vars]))) <= 1)
      by (cbn [concreteChildren]; rewrite List.filter_app, QC; cbn; lia).
    destruct quantified as [|q1 [|q2 qs]]; destruct collected as [|x xs];
      try exact Hu; try exact Huc; try (cbn; lia).
    inversion Q as [|? ? Hq1 _]; subst. destruct q1; try discriminate. cbn. lia.
Qed.

(** ** Arrays under in-place updates *)

Lemma readArray_update (f : list string -> list string) r r' h n :
  f [] = [] ->
  readArray r (mkHeap (<[r' := f (readArray r' h)]> (arrays h)) n)
  = if Nat.eqb r r' then f (readArray r h) else readArray r h.
Proof.
  intros Hf. unfold readArray. cbn [arrays].
  destruct (Nat.eqb_spec r r') as [->|Hne].
  - destruct (arrays h !! r') as [xs|] eqn:E; cbn.
    + rewrite list_lookup_insert_eq by (eapply lookup_lt_Some; eauto). reflexivity.
    + rewrite list_insert_ge by (now apply lookup_ge_None).
      rewrite E. cbn. now rewrite Hf.
  - rewrite list_lookup_insert_ne by congruence. reflexivity.
Qed.

Lemma everyEqual_refl xs : everyEqual xs xs = true.
Proof. induction xs as [|x xs IH]; cbn; [reflexivity|]. now rewrite String.eqb_refl. Qed.

(** Two arrays with the same contents are the same bag. *)
Lemma sameVars_same_contents v1 v2 h :
  readArray v1 h = readArray v2 h ->
  exists h', sameVars v1 v2 h = Returns true h'.
Proof.
  intros E. unfold sameVars, sortStrings. run.
  eexists. f_equal.
  set (h1 := mkHeap (<[v1 := sorted (readArray v1 h)]> (arrays h)) (nextName h)).
  assert (E1 : forall r, readArray r h1 = if Nat.eqb r v1 then sorted (readArray r h) else readArray r h).
  { intros r. subst h1. now apply (readArray_update sorted). }
  assert (E2 : forall r,
             readArray r (mkHeap (<[v2 := sorted (readArray v2 h1)]> (arrays h1)) (nextName h1))
             = if Nat.eqb r v2 then sorted (readArray r h1) else readArray r h1).
  { intros r. now apply (readArray_update sorted). }
  rewrite !E2, !E1, !Nat.eqb_refl.
  destruct (Nat.eqb_spec v1 v2) as [->|Hne].
  - now rewrite ?Nat.eqb_refl, everyEqual_refl.
  - destruct (Nat.eqb_spec v2 v1); [congruence|].
    now rewrite E, ?Nat.eqb_refl, everyEqual_refl.
Qed.

(** ** Serialization decides structural identity *)

Lemma listEqb_string_spec xs ys : listEqb String.eqb xs ys = true <-> xs = ys.
Proof.
  revert ys. induction xs as [|x xs IH]; intros [|y ys]; cbn; split;
    try congruence; try discriminate.
  - intros H. apply andb_true_iff in H as [Hx Hr].
    apply String.eqb_eq in Hx. apply IH in Hr. congruence.
  - intros [= -> ->]. rewrite String.eqb_refl. now apply IH.
Qed.

Lemma jsonEqb_spec a : forall b, jsonEqb a b = true <-> a = b.
Proof.
  induction a as [xs|n|js IH] using Json_nested_ind; intros [ys|m|ks]; cbn;
    try (split; [discriminate | congruence]).
  - rewrite listEqb_string_spec. split; congruence.
  - rewrite String.eqb_eq. split; congruence.
  - revert ks. induction IH as [|j js Hj _ IHjs]; intros [|k ks];
      try (split; [discriminate | congruence]).
    + split; reflexivity.
    + rewrite andb_true_iff, Hj, IHjs. split.
      * intros [-> [= ->]]. reflexivity.
      * intros [= -> ->]. split; reflexivity.
Qed.

(** ** The bag unifier on unions *)

(** C10. Let [v1] and [v2] be the flattened arguments of [unifyVariables].
    If at least one of them is a union, neither is quantified and their
    serializations differ, the result is the error leaf "Unification for
    unions of variables is not implemented"; if their serializations are
    equal, the result is the empty substitution. *)
Theorem unifyVariables_unions (va vb v1 v2 : Variables) (h h1 h2 : Heap) :
  flattenUnions va h = Returns v1 h1 ->
  flattenUnions vb h1 = Returns v2 h2 ->
  (isUnion v1 || isUnion v2 = true ->
   isQuantified v1 = false -> isQuantified v2 = false ->
   stringify h2 v1 <> stringify h2 v2 ->
   unifyVariables va vb h
   = Returns (Left (mkErrorTree
                      (Some "Unification for unions of variables is not implemented")
                      (unifyVariablesLocation h2 v1 v2) []))
             h2)
  /\ (stringify h2 v1 = stringify h2 v2 ->
      exists h3, unifyVariables va vb h = Returns (Right []) h3).
Proof.
  intros E1 E2. unfold unifyVariables.
  rewrite (bind_returns _ _ _ _ _ E1), (bind_returns _ _ _ _ _ E2).
  cbv zeta. rewrite bind_getHeap. split.
  - intros HU Q1 Q2 Hne.
    destruct v1 as [r1|o1 n1|vs1], v2 as [r2|o2 n2|vs2]; try discriminate;
      (destruct (jsonEqb _ _) eqn:J;
       [apply jsonEqb_spec in J; contradiction | reflexivity]).
  - intros Heq.
    destruct v1 as [r1|o1 n1|vs1], v2 as [r2|o2 n2|vs2]; cbn in Heq;
      try discriminate.
    + injection Heq as Heq.
      destruct (sameVars_same_contents r1 r2 h2 Heq) as [h3 E3].
      rewrite (bind_returns _ _ _ _ _ E3). now exists h3.
    + injection Heq as ->. rewrite String.eqb_refl. now exists h2.
    + assert (J : jsonEqb (stringify h2 (VUnion vs1)) (stringify h2 (VUnion vs2)) = true)
        by (apply jsonEqb_spec; cbn; now rewrite Heq).
      rewrite J. now exists h2.
Qed.

(** C10 on the unions [a, b] and [b, a], and on [a, b] and itself. *)
Lemma unifyVariables_unions_witness :
  unifyVariables unionAB unionBA (emptyArrays 0)
  = Returns (Left (mkErrorTree
                     (Some "Unification for unions of variables is not implemented")
                     "Trying to unify variables [a, b] and [b, a]" []))
            (emptyArrays 2)
  /\ exists h3, unifyVariables unionAB unionAB (emptyArrays 0) = Returns (Right []) h3.
Proof.
  split.
  - apply (proj1 (unifyVariables_unions unionAB unionBA unionAB unionBA
                    (emptyArrays 0) (emptyArrays 1) (emptyArrays 2)
                    eq_refl eq_refl));
      [reflexivity | reflexivity | reflexivity | discriminate].
  - apply (proj2 (unifyVariables_unions unionAB unionAB unionAB unionAB
                    (emptyArrays 0) (emptyArrays 1) (emptyArrays 2)
                    eq_refl eq_refl)).
    reflexivity.
Defined.

(** ** The occurs-check *)

(** [mapM] of a function that returns and moves the heap along a preorder
    [R], with results in a property [Q] that [R] preserves. *)
Lemma mapM_preorder {A B} (f : A -> M B)
    (R : Heap -> Heap -> Prop) (Q : Heap -> B -> Prop) (l : list A) :
  (forall h, R h h) ->
  (forall h1 h2 h3, R h1 h2 -> R h2 h3 -> R h1 h3) ->
  (forall h h' y, R h h' -> Q h y -> Q h' y) ->
  Forall (fun x => forall h, exists y h', f x h = Returns y h' /\ R h h' /\ Q h' y) l ->
  forall h, exists ys h', mapM f l h = Returns ys h' /\ R h h' /\ Forall (Q h') ys.
Proof.
  intros Hrefl Htrans Hmono.
  induction 1 as [|x l Hx _ IH]; intros h.
  - exists [], h. repeat split; [apply Hrefl | constructor].
  - destruct (Hx h) as (y & h1 & Ey & R1 & Qy).
    destruct (IH h1) as (ys & h2 & Eys & R2 & Qys).
    exists (y :: ys), h2. repeat split.
    + change (mapM f (x :: l)) with
        (bind (f x) (fun y0 => bind (mapM f l) (fun ys0 => ret (y0 :: ys0)))).
      rewrite (bind_returns _ _ _ _ _ Ey), (bind_returns _ _ _ _ _ Eys).
      reflexivity.
    + eapply Htrans; eauto.
    + constructor; [eapply Hmono; eauto | exact Qys].
Qed.

Lemma namesOnly_refl h : namesOnly h h.
Proof. split; [reflexivity | lia]. Qed.

Lemma namesOnly_trans h1 h2 h3 :
  namesOnly h1 h2 -> namesOnly h2 h3 -> namesOnly h1 h3.
Proof. intros [A1 N1] [A2 N2]. split; [congruence | lia]. Qed.

Lemma allocatedBefore_mono h h' ns :
  namesOnly h h' -> allocatedBefore h ns -> allocatedBefore h' ns.
Proof.
  intros [_ N] F. unfold allocatedBefore in *.
  eapply Forall_impl; [exact F|]. cbn. intros n Hn. lia.
Qed.

Lemma allocatedBefore_concat h nss :
  Forall (allocatedBefore h) nss -> allocatedBefore h (concat nss).
Proof.
  induction 1 as [|ns nss Hns _ IH]; cbn; [constructor|].
  apply Forall_app. now split.
Qed.

Lemma newName_spec kind name h :
  exists n h', newName kind name h = Returns n h'
               /\ namesOnly h h' /\ allocatedBefore h' [n].
Proof.
  eexists _, _. split; [reflexivity|]. split.
  - split; [reflexivity | cbn; lia].
  - constructor; [cbn; lia | constructor].
Qed.

Lemma variablesNames_spec v :
  forall h, exists ns h',
    variablesNames v h = Returns ns h' /\ namesOnly h h' /\ allocatedBefore h' ns.
Proof.
  induction v as [r|o n|vs IH] using Variables_nested_ind; intros h.
  - exists [], h. repeat split; [lia | constructor].
  - destruct (newName_spec KVariable n h) as (x & h' & E & R & Q).
    exists [x], h'. cbn [variablesNames].
    rewrite (bind_returns _ _ _ _ _ E). split; [reflexivity|]. split; assumption.
  - destruct (mapM_preorder variablesNames namesOnly allocatedBefore vs
                namesOnly_refl namesOnly_trans allocatedBefore_mono IH h)
      as (nss & h' & E & R & Q).
    exists (concat nss), h'. cbn [variablesNames].
    rewrite (bind_returns _ _ _ _ _ E).
    split; [reflexivity|]. split; [exact R | now apply allocatedBefore_concat].
Qed.

Lemma effectNames_spec e :
  forall h, exists ns h',
    effectNames e h = Returns ns h' /\ namesOnly h h' /\ allocatedBefore h' ns.
Proof.
  induction e as [n|r u|ps res IHps IHres] using Effect_nested_ind; intros h.
  - destruct (newName_spec KEffect n h) as (x & h' & E & R & Q).
    exists [x], h'. cbn [effectNames].
    rewrite (bind_returns _ _ _ _ _ E). split; [reflexivity|]. split; assumption.
  - destruct (variablesNames_spec r h) as (ns1 & h1 & E1 & R1 & Q1).
    destruct (variablesNames_spec u h1) as (ns2 & h2 & E2 & R2 & Q2).
    exists (ns1 ++ ns2), h2. cbn [effectNames].
    rewrite (bind_returns _ _ _ _ _ E1), (bind_returns _ _ _ _ _ E2).
    split; [reflexivity|]. split; [eapply namesOnly_trans; eauto|].
    apply Forall_app. split; [eapply allocatedBefore_mono; eauto | exact Q2].
  - destruct (mapM_preorder effectNames namesOnly allocatedBefore ps
                namesOnly_refl namesOnly_trans allocatedBefore_mono IHps h)
      as (nss & h1 & E1 & R1 & Q1).
    destruct (IHres h1) as (ns2 & h2 & E2 & R2 & Q2).
    exists (concat nss ++ ns2), h2. cbn [effectNames].
    rewrite (bind_returns _ _ _ _ _ E1), (bind_returns _ _ _ _ _ E2).
    split; [reflexivity|]. split; [eapply namesOnly_trans; eauto|].
    apply Forall_app. split; [| exact Q2].
    apply allocatedBefore_concat.
    eapply Forall_impl; [exact Q1|]. cbn. intros ns Hns.
    eapply allocatedBefore_mono; eauto.
Qed.

(** An object that is allocated after the elements of an array is none of
    them. *)
Lemma includes_fresh h ns kind name :
  allocatedBefore h ns -> includes ns (mkName (nextName h) kind name) = false.
Proof.
  unfold allocatedBefore, includes. cbn [stamp].
  induction 1 as [|n ns Hn _ IH]; cbn [existsb]; [reflexivity|].
  rewrite IH, orb_false_r. apply Nat.eqb_neq. lia.
Qed.

(** [bindEffect] compares the names of the effect with an object it has just
    built, so it finds no cycle, whatever the effect mentions. *)
Lemma bindEffect_never_fails name effect h :
  exists ns h1,
    effectNames effect h = Returns ns h1
    /\ bindEffect name effect h
       = Returns (Right (SubEffect name effect))
                 (mkHeap (arrays h1) (S (nextName h1)))
    /\ arrays h1 = arrays h.
Proof.
  destruct (effectNames_spec effect h) as (ns & h1 & E & [A N] & Q).
  exists ns, h1. split; [exact E|]. split; [| exact A].
  unfold bindEffect. rewrite (bind_returns _ _ _ _ _ E).
  unfold bind at 1, newName at 1.
  now rewrite (includes_fresh h1 ns KEffect name Q).
Qed.

Lemma bindVariables_never_fails name variables h :
  exists ns h1,
    variablesNames variables h = Returns ns h1
    /\ bindVariables name variables h
       = Returns (Right (SubVariable name variables))
                 (mkHeap (arrays h1) (S (nextName h1)))
    /\ arrays h1 = arrays h.
Proof.
  destruct (variablesNames_spec variables h) as (ns & h1 & E & [A N] & Q).
  exists ns, h1. split; [exact E|]. split; [| exact A].
  unfold bindVariables. rewrite (bind_returns _ _ _ _ _ E).
  unfold bind at 1, newName at 1.
  now rewrite (includes_fresh h1 ns KVariable name Q).
Qed.

(** ** Simplification and substitution always return *)

Lemma uniqueVariables_returns v :
  forall h, exists v' h', uniqueVariables v h = Returns v' h' /\ True.
Proof.
  induction v as [r|o n|vs IH] using Variables_nested_ind; intros h.
  - eexists _, _. split; [reflexivity | trivial].
  - eexists _, _. split; [reflexivity | trivial].
  - destruct (mapM_returns uniqueVariables (fun _ => True) vs IH h)
      as (nested & h' & E & _).
    eexists _, _. cbn [uniqueVariables].
    rewrite (bind_returns _ _ _ _ _ E). split; [reflexivity | trivial].
Qed.

(** The steps of [simplifyConcreteEffect]. *)
Lemma simplifyConcreteEffect_steps read update h :
  exists flatRead h1 read' h2 update' h3,
    flattenUnions read h = Returns flatRead h1
    /\ uniqueVariables flatRead h1 = Returns read' h2
    /\ flattenUnions update h2 = Returns update' h3
    /\ simplifyConcreteEffect read update h
       = Returns
           (if Nat.ltb 0 (length (repeatedIn (findVars h3 update)))
            then Left (mkErrorTree
                         (Some ("Multiple updates of variable(s): "
                                +:+ join "," (setOfStrings []
                                                (repeatedIn (findVars h3 update)))))
                         ("Trying to simplify effect "
                          +:+ effectToString h3 (EConcrete read update))
                         [])
            else Right (EConcrete read' update'))
           h3.
Proof.
  destruct (flattenUnions_flat read h) as (flatRead & h1 & E1 & _).
  destruct (uniqueVariables_returns flatRead h1) as (read' & h2 & E2 & _).
  destruct (flattenUnions_flat update h2) as (update' & h3 & E3 & _).
  exists flatRead, h1, read', h2, update', h3. repeat (split; [assumption|]).
  unfold simplifyConcreteEffect.
  rewrite (bind_returns _ _ _ _ _ E1), (bind_returns _ _ _ _ _ E2),
    (bind_returns _ _ _ _ _ E3), bind_getHeap.
  cbv zeta. now destruct (Nat.ltb 0 _).
Qed.

(** Simplifying returns, and what it returns is not a quantified effect
    unless it was given one. *)
Lemma simplifyIfConcrete_returns e h :
  exists res h',
    simplifyIfConcrete e h = Returns res h'
    /\ (isQuantifiedEffect e = false ->
        forall e', res = Right e' -> isQuantifiedEffect e' = false).
Proof.
  destruct e as [n|read update|ps r].
  - exists (Right (EQuantified n)), h. split; [reflexivity | discriminate].
  - destruct (simplifyConcreteEffect_steps read update h)
      as (fr & h1 & r' & h2 & u' & h3 & _ & _ & _ & E).
    eexists _, h3. split; [exact E|].
    intros _ e' He'. destruct (Nat.ltb 0 _); [discriminate|].
    injection He' as <-. reflexivity.
  - exists (Right (EArrow ps r)), h. split; [reflexivity|].
    intros _ e' [= <-]. reflexivity.
Qed.

Lemma applySubstitution_returns subs e :
  forall h, exists res h', applySubstitution subs e h = Returns res h' /\ True.
Proof.
  induction e as [n|read update|ps r IHps IHr] using Effect_nested_ind; intros h.
  - cbn [applySubstitution].
    destruct (findByName subs n) as [[m v|m v]|];
      try (eexists _, _; split; [reflexivity | trivial]).
    rewrite (bind_returns _ _ _ _ _ (eq_refl : ret (Right v) h = Returns _ h)).
    destruct (simplifyIfConcrete_returns v h) as (res & h' & E & _).
    now exists res, h'.
  - cbn [applySubstitution].
    rewrite (bind_returns _ _ _ _ _
               (eq_refl : ret (Right (EConcrete _ _)) h = Returns _ h)).
    destruct (simplifyIfConcrete_returns
                (EConcrete (applySubstitutionToVariables subs read)
                           (applySubstitutionToVariables subs update)) h)
      as (res & h' & E & _).
    now exists res, h'.
  - cbn [applySubstitution].
    destruct (mapM_returns (applySubstitution subs) (fun _ => True) ps IHps h)
      as (applied & h1 & E1 & _).
    unfold bind at 1. unfold bind at 1. rewrite E1.
    destruct (mergeInMany applied) as [errors|ps'].
    + eexists _, _. split; [reflexivity | trivial].
    + destruct (IHr h1) as (res & h2 & E2 & _).
      unfold bind at 1. unfold bind at 1. rewrite E2.
      destruct res as [err|r']; eexists _, _; (split; [reflexivity | trivial]).
Qed.

(** ** Unifying with a quantified effect *)

Lemma mapM_pair {A B} (f : A -> M B) x y h a h1 b h2 :
  f x h = Returns a h1 -> f y h1 = Returns b h2 ->
  mapM f [x; y] h = Returns [a; b] h2.
Proof. intros Ex Ey. unfold mapM, bind, ret. now rewrite Ex, Ey. Qed.

(** [unify], once its two arguments are simplified. *)
Lemma unify_simplified fuel ea eb h ra h1 rb h2 :
  simplifyIfConcrete ea h = Returns ra h1 ->
  simplifyIfConcrete eb h1 = Returns rb h2 ->
  unify (S fuel) ea eb h
  = (let* unified :=
       match mergeInMany [ra; rb] with
       | Left errors => ret (Left (ManyErrors errors))
       | Right [e1; e2] =>
           match e1, e2 with
           | EArrow params1 result1, EArrow params2 result2 =>
               unifyArrows (unify fuel) (unifyLocation h ea eb)
                 params1 result1 params2 result2
           | EConcrete read1 update1, EConcrete read2 update2 =>
               unifyConcrete (unifyLocation h ea eb) read1 update1 read2 update2
           | EQuantified name, _ => bindQuantified (unifyLocation h ea eb) name e2
           | _, EQuantified name => bindQuantified (unifyLocation h ea eb) name e1
           | _, _ =>
               ret (Left (OneError
                            (mkErrorTree
                               (Some "Can't unify different types of effects")
                               (unifyLocation h ea eb) [])))
           end
       | Right _ => ret (Right [])
       end in
     ret (mapLeft (buildErrorTree (unifyLocation h ea eb)) unified)) h2.
Proof.
  intros Ea Eb. cbn [unify]. rewrite bind_getHeap. cbv zeta.
  now rewrite (bind_returns _ _ _ _ _ (mapM_pair _ _ _ _ _ _ _ _ Ea Eb)).
Qed.

Lemma bindQuantified_returns name other h :
  exists ns h1,
    effectNames other h = Returns ns h1
    /\ forall loc,
         bindQuantified loc name other h
         = Returns (Right [SubEffect name other])
                   (mkHeap (arrays h1) (S (nextName h1))).
Proof.
  destruct (bindEffect_never_fails name other h) as (ns & h1 & En & E & _).
  exists ns, h1. split; [exact En|]. intros loc. unfold bindQuantified.
  now rewrite (bind_returns _ _ _ _ _ E).
Qed.

(** When one argument of [unify] is a quantified effect [n] and the other is
    an effect [e], the two orders of the arguments succeed or fail together,
    failing exactly when simplifying [e] fails.  If [e] is not quantified,
    both orders return the same single binding of [n] to the simplified [e];
    if [e] is the quantified effect [m], each order binds the name of its
    first argument to its second argument. *)
Lemma unify_with_quantified (fuel : nat) (n : string) (e : Effect) (h : Heap) :
  exists res h1 h2,
    simplifyIfConcrete e h = Returns res h1
    /\ match res with
       | Left t =>
           unify (S fuel) (EQuantified n) e h
           = Returns (Left (mkErrorTree None (unifyLocation h (EQuantified n) e) [t])) h1
           /\ unify (S fuel) e (EQuantified n) h
              = Returns (Left (mkErrorTree None (unifyLocation h e (EQuantified n)) [t])) h1
       | Right e' =>
           unify (S fuel) (EQuantified n) e h = Returns (Right [SubEffect n e']) h2
           /\ unify (S fuel) e (EQuantified n) h
              = Returns (Right [match e with
                                | EQuantified m => SubEffect m (EQuantified n)
                                | _ => SubEffect n e'
                                end]) h2
       end.
Proof.
  destruct (simplifyIfConcrete_returns e h) as (res & h1 & E & Hq).
  assert (Qh : forall h', simplifyIfConcrete (EQuantified n) h'
                          = Returns (Right (EQuantified n)) h') by reflexivity.
  rewrite (unify_simplified fuel _ _ h _ _ _ _ (Qh h) E).
  rewrite (unify_simplified fuel _ _ h _ _ _ _ E (Qh h1)).
  destruct res as [t|e'].
  - exists (Left t), h1, h1. split; [exact E|]. split; reflexivity.
  - destruct (bindQuantified_returns n e' h1) as (ns & h2 & En & Same).
    exists (Right e'), h1, (mkHeap (arrays h2) (S (nextName h2))).
    split; [exact E|].
    cbn [mergeInMany mergeInManyFrom app].
    split; [now rewrite (bind_returns _ _ _ _ _ (Same _))|].
    destruct e as [m|read update|ps r].
    + cbn in E. injection E as <- <-.
      destruct (bindQuantified_returns m (EQuantified n) h) as (ns3 & h3 & En3 & B3).
      rewrite (bind_returns _ _ _ _ _ (B3 _)).
      cbn in En, En3. injection En as _ <-. injection En3 as _ <-.
      reflexivity.
    + specialize (Hq eq_refl e' eq_refl).
      destruct e' as [m|read' update'|ps' r']; [discriminate| |];
        now rewrite (bind_returns _ _ _ _ _ (Same _)).
    + specialize (Hq eq_refl e' eq_refl).
      destruct e' as [m|read' update'|ps' r']; [discriminate| |];
        now rewrite (bind_returns _ _ _ _ _ (Same _)).
Qed.

(** ** The heap functions on values *)

Lemma extends_refl h : extends h h.
Proof. split; [reflexivity|]. exists []. now rewrite app_nil_r. Qed.

Lemma extends_trans h1 h2 h3 : extends h1 h2 -> extends h2 h3 -> extends h1 h3.
Proof.
  intros [N1 [x1 E1]] [N2 [x2 E2]]. split; [congruence|].
  exists (x1 ++ x2). now rewrite E2, E1, app_assoc.
Qed.

Lemma extends_length h h' : extends h h' -> length (arrays h) <= length (arrays h').
Proof. intros [_ [x E]]. rewrite E, length_app. lia. Qed.

Lemma readArray_extends h h' r :
  extends h h' -> r < length (arrays h) -> readArray r h' = readArray r h.
Proof.
  intros [_ [x E]] Hr. unfold readArray. now rewrite E, lookup_app_l.
Qed.

Lemma refsBelow_mono b b' v : b <= b' -> refsBelow b v = true -> refsBelow b' v = true.
Proof.
  intros Hb. induction v as [r|o n|vs IH] using Variables_nested_ind;
    cbn [refsBelow]; trivial.
  - rewrite !Nat.ltb_lt. lia.
  - rewrite !forallb_forall. intros H c Hc.
    rewrite Forall_forall in IH. apply IH; [now apply list_elem_of_In | now apply H].
Qed.

Lemma validIn_extends h h' v : extends h h' -> validIn h v = true -> validIn h' v = true.
Proof. intros E. apply refsBelow_mono. now apply extends_length. Qed.

Lemma bagOf_extends h h' v :
  extends h h' -> validIn h v = true -> bagOf h' v = bagOf h v.
Proof.
  intros E. unfold validIn.
  induction v as [r|o n|vs IH] using Variables_nested_ind;
    cbn [refsBelow bagOf]; trivial.
  - rewrite Nat.ltb_lt. intros Hr. f_equal. now apply readArray_extends.
  - rewrite forallb_forall. intros H. f_equal. apply map_ext_in.
    intros c Hc. rewrite Forall_forall in IH.
    apply IH; [now apply list_elem_of_In | now apply H].
Qed.

Lemma avoids_valid h v k :
  validIn h v = true -> length (arrays h) <= k -> avoids k v = true.
Proof.
  unfold validIn. intros V Hk. revert V.
  induction v as [r|o n|vs IH] using Variables_nested_ind;
    cbn [refsBelow avoids]; trivial.
  - rewrite Nat.ltb_lt. intros Hr. apply negb_true_iff, Nat.eqb_neq. lia.
  - rewrite !forallb_forall. intros H c Hc. rewrite Forall_forall in IH.
    apply IH; [now apply list_elem_of_In | now apply H].
Qed.

(** Writing to an array that a value does not reference leaves the value. *)
Lemma bagOf_insert k xs h n v :
  avoids k v = true -> bagOf (mkHeap (<[k := xs]> (arrays h)) n) v = bagOf h v.
Proof.
  induction v as [r|o m|vs IH] using Variables_nested_ind;
    cbn [avoids bagOf]; trivial.
  - rewrite negb_true_iff, Nat.eqb_neq. intros Hr. f_equal.
    now apply readArray_insert_other.
  - rewrite forallb_forall. intros H. f_equal. apply map_ext_in.
    intros c Hc. rewrite Forall_forall in IH.
    apply IH; [now apply list_elem_of_In | now apply H].
Qed.

Lemma validIn_insert k xs h n v :
  validIn (mkHeap (<[k := xs]> (arrays h)) n) v = validIn h v.
Proof. unfold validIn. cbn [arrays]. now rewrite length_insert. Qed.

Lemma mapM_rebuilds f pf vs :
  Forall (rebuilds f pf) vs ->
  forall h, forallb (validIn h) vs = true ->
    exists vs' h',
      mapM f vs h = Returns vs' h'
      /\ extends h h'
      /\ forallb (validIn h') vs' = true
      /\ map (bagOf h') vs' = map pf (map (bagOf h) vs)
      /\ (forall k, k < length (arrays h) ->
                    forallb (avoids k) vs = true -> forallb (avoids k) vs' = true).
Proof.
  induction 1 as [|v vs Hv _ IH]; intros h V.
  - exists [], h. repeat split; trivial. apply extends_refl.
  - cbn [forallb] in V. apply andb_true_iff in V as [Vv Vvs].
    destruct (Hv h Vv) as (v' & h1 & E1 & X1 & V1 & B1 & A1).
    assert (Vvs1 : forallb (validIn h1) vs = true).
    { rewrite forallb_forall in *. intros c Hc. eapply validIn_extends; eauto. }
    destruct (IH h1 Vvs1) as (vs' & h2 & E2 & X2 & V2 & B2 & A2).
    exists (v' :: vs'), h2.
    split.
    { change (mapM f (v :: vs))
        with (bind (f v) (fun y => bind (mapM f vs) (fun ys => ret (y :: ys)))).
      now rewrite (bind_returns _ _ _ _ _ E1), (bind_returns _ _ _ _ _ E2). }
    split; [eapply extends_trans; eauto|].
    split.
    { cbn [forallb]. rewrite V2, andb_true_r. eapply validIn_extends; eauto. }
    split.
    { cbn [map]. f_equal.
      - rewrite (bagOf_extends h1 h2 v' X2 V1). exact B1.
      - rewrite B2. f_equal. apply map_ext_in. intros c Hc.
        rewrite forallb_forall in Vvs. now apply bagOf_extends; [|apply Vvs]. }
    intros k Hk Av. cbn [forallb] in *. apply andb_true_iff in Av as [Avv Avs].
    rewrite (A1 k Hk Avv). cbn. apply A2; [|exact Avs].
    pose proof (extends_length _ _ X1). lia.
Qed.

Lemma bagOf_unionMembers g v :
  map (bagOf g) (unionMembers v) = unionPart (bagOf g v).
Proof. now destruct v. Qed.

Lemma avoids_unionMembers k v :
  avoids k v = true -> forallb (avoids k) (unionMembers v) = true.
Proof. destruct v; cbn; trivial. Qed.

Lemma validIn_unionMembers h v :
  validIn h v = true -> forallb (validIn h) (unionMembers v) = true.
Proof. destruct v; cbn; trivial. Qed.

Lemma forallb_concat {A} (p : A -> bool) (ls : list (list A)) :
  forallb (forallb p) ls = true -> forallb p (concat ls) = true.
Proof.
  induction ls as [|l ls IH]; cbn; trivial.
  intros H. apply andb_true_iff in H as [Hl Hls].
  rewrite forallb_app, Hl. cbn. now apply IH.
Qed.

Lemma forallb_map_impl {A B} (p : A -> bool) (q : B -> bool) (f : A -> B) l :
  (forall x, p x = true -> q (f x) = true) ->
  forallb p l = true -> forallb q (map f l) = true.
Proof.
  intros H. induction l as [|x l IH]; cbn; trivial.
  intros Hl. apply andb_true_iff in Hl as [Hx Hl]. now rewrite (H x Hx), IH.
Qed.

(** The [forEach], in general. *)
Lemma collectFlattened_spec vars fvs :
  forallb (avoids vars) fvs = true ->
  forall g, vars < length (arrays g) ->
    collectFlattened vars fvs g
    = Returns (concat (map unionMembers fvs))
              (mkHeap (<[vars := readArray vars g
                                 ++ concat (map (fun v => namesPart (bagOf g v)) fvs)]>
                         (arrays g))
                      (nextName g)).
Proof.
  induction fvs as [|c fvs IH]; cbn [forallb]; intros HA g Hvars.
  - cbn [collectFlattened map concat]. unfold ret. f_equal.
    rewrite app_nil_r. destruct g as [l n]. cbn [arrays nextName] in *. f_equal.
    unfold readArray. cbn [arrays].
    destruct (lookup_lt_is_Some_2 l vars Hvars) as [xs E].
    rewrite E. cbn. symmetry. now apply list_insert_id.
  - apply andb_true_iff in HA as [Ac Arest].
    assert (Erest : forall xs n,
               map (fun v => namesPart (bagOf (mkHeap (<[vars := xs]> (arrays g)) n) v)) fvs
               = map (fun v => namesPart (bagOf g v)) fvs).
    { intros xs n. apply map_ext_in. intros v Hv.
      rewrite forallb_forall in Arest. now rewrite bagOf_insert by now apply Arest. }
    destruct c as [r|o n|members].
    + set (g1 := mkHeap (<[vars := readArray vars g ++ readArray r g]> (arrays g))
                        (nextName g)).
      assert (Hvars1 : vars < length (arrays g1))
        by (subst g1; cbn [arrays]; now rewrite length_insert).
      assert (Epush : (let* xs := getArray r in
                       let* _ := pushArray vars xs in
                       ret (@nil Variables)) g = Returns [] g1) by reflexivity.
      cbn [collectFlattened].
      rewrite (bind_returns _ _ _ _ _ Epush),
        (bind_returns _ _ _ _ _ (IH Arest g1 Hvars1)).
      cbn [map concat unionMembers bagOf namesPart ret app]. f_equal.
      subst g1. cbn [arrays nextName]. f_equal.
      rewrite list_insert_insert_eq. f_equal.
      rewrite Erest.
      unfold readArray at 1. cbn [arrays].
      rewrite list_lookup_insert_eq by exact Hvars. cbn.
      now rewrite <- app_assoc.
    + cbn [collectFlattened].
      rewrite (bind_returns _ _ _ _ _
                 (eq_refl : ret [VQuantified o n] g = Returns _ g)).
      now rewrite (bind_returns _ _ _ _ _ (IH Arest g Hvars)).
    + cbn [collectFlattened].
      rewrite (bind_returns _ _ _ _ _ (eq_refl : ret members g = Returns _ g)).
      now rewrite (bind_returns _ _ _ _ _ (IH Arest g Hvars)).
Qed.

Lemma flattenUnions_rebuilds v : rebuilds flattenUnions flattenBag v.
Proof.
  induction v as [r|o n|children IH] using Variables_nested_ind; intros h V.
  - exists (VConcrete r), h. repeat split; trivial. apply extends_refl.
  - exists (VQuantified o n), h. repeat split; trivial. apply extends_refl.
  - set (vars := length (arrays h)).
    set (h1 := mkHeap (arrays h ++ [[]]) (nextName h)).
    assert (X1 : extends h h1) by (split; [reflexivity | now exists [[]]]).
    assert (L1 : length (arrays h1) = S vars)
      by (subst h1 vars; cbn [arrays]; rewrite length_app; cbn; lia).
    assert (Vc : forallb (validIn h) children = true) by exact V.
    assert (Vc1 : forallb (validIn h1) children = true).
    { rewrite forallb_forall in *. intros c Hc. eapply validIn_extends; eauto. }
    destruct (mapM_rebuilds flattenUnions flattenBag children IH h1 Vc1)
      as (fvs & h2 & E2 & X2 & V2 & B2 & A2).
    assert (Avars : forallb (avoids vars) fvs = true).
    { apply A2; [lia|]. rewrite forallb_forall in *. intros c Hc.
      eapply avoids_valid; [now apply Vc | subst vars; lia]. }
    assert (Hvars2 : vars < length (arrays h2))
      by (pose proof (extends_length _ _ X2); lia).
    assert (R2 : readArray vars h2 = []).
    { rewrite (readArray_extends h1 h2) by (trivial; lia).
      subst h1 vars. unfold readArray. cbn [arrays].
      now rewrite lookup_app_r, Nat.sub_diag by lia. }
    set (flattened := map flattenBag (map (bagOf h) children)).
    assert (B2' : map (bagOf h2) fvs = flattened).
    { rewrite B2. subst flattened. f_equal. apply map_ext_in. intros c Hc.
      rewrite forallb_forall in Vc. now apply bagOf_extends; [|apply Vc]. }
    set (names := concat (map namesPart flattened)).
    assert (N2 : concat (map (fun v => namesPart (bagOf h2 v)) fvs) = names).
    { subst names. rewrite <- B2', map_map. reflexivity. }
    set (h3 := mkHeap (<[vars := names]> (arrays h2)) (nextName h2)).
    assert (E3 : collectFlattened vars fvs h2 = Returns (concat (map unionMembers fvs)) h3).
    { rewrite (collectFlattened_spec vars fvs Avars h2 Hvars2), R2, N2. reflexivity. }
    set (us := concat (map unionMembers fvs)) in *.
    assert (R3 : readArray vars h3 = names).
    { subst h3. unfold readArray. cbn [arrays].
      now rewrite list_lookup_insert_eq by exact Hvars2. }
    assert (X3 : extends h h3).
    { destruct X2 as [N2' [extra Ex]]. split; [subst h3; exact N2'|].
      exists ([names] ++ extra). subst h3. cbn [arrays]. rewrite Ex.
      subst h1. cbn [arrays]. rewrite <- app_assoc.
      subst vars. replace (length (arrays h)) with (length (arrays h) + 0) by lia.
      now rewrite insert_app_r. }
    assert (Vus : forallb (validIn h3) us = true).
    { subst us. apply forallb_concat. apply forallb_map_impl with (p := validIn h2); [|exact V2].
      intros v Hv. pose proof (validIn_unionMembers h2 v Hv) as Mv.
      rewrite forallb_forall in *. intros x Hx. subst h3.
      rewrite validIn_insert. now apply Mv. }
    assert (Aus : forallb (avoids vars) us = true).
    { subst us. apply forallb_concat.
      apply forallb_map_impl with (p := avoids vars); [|exact Avars].
      intros v. apply avoids_unionMembers. }
    assert (Bus : map (bagOf h3) us = concat (map unionPart flattened)).
    { transitivity (map (bagOf h2) us).
      - apply map_ext_in. intros v Hv. subst h3. apply bagOf_insert.
        rewrite forallb_forall in Aus. now apply Aus.
      - subst us. rewrite <- B2'. rewrite concat_map, !map_map.
        f_equal. apply map_ext. intros v. apply bagOf_unionMembers. }
    assert (Lus : length us = length (concat (map unionPart flattened)))
      by (now rewrite <- Bus, length_map).
    assert (Vvars : validIn h3 (VConcrete vars) = true).
    { unfold validIn. cbn [refsBelow]. apply Nat.ltb_lt.
      subst h3. cbn [arrays]. now rewrite length_insert. }
    assert (Keep : forall k, k < length (arrays h) ->
                             forallb (avoids k) children = true ->
                             forallb (avoids k) us = true
                             /\ avoids k (VConcrete vars) = true).
    { intros k Hk Ak. split.
      - subst us. apply forallb_concat.
        apply forallb_map_impl with (p := avoids k);
          [intros v; apply avoids_unionMembers|].
        apply A2; [lia | exact Ak].
      - cbn [avoids]. apply negb_true_iff, Nat.eqb_neq. subst vars. lia. }
    set (vs' := if Nat.ltb 0 (length names) then us ++ [VConcrete vars] else us).
    set (bs' := if Nat.ltb 0 (length names)
                then concat (map unionPart flattened) ++ [BConcrete names]
                else concat (map unionPart flattened)).
    assert (Vvs' : forallb (validIn h3) vs' = true).
    { subst vs'. destruct (Nat.ltb 0 (length names)); [|exact Vus].
      rewrite forallb_app, Vus. cbn [forallb]. now rewrite Vvars. }
    assert (Bvs' : map (bagOf h3) vs' = bs').
    { subst vs' bs'. destruct (Nat.ltb 0 (length names)); [|exact Bus].
      rewrite map_app, Bus. cbn [map bagOf]. now rewrite R3. }
    assert (Avs' : forall k, k < length (arrays h) ->
                             forallb (avoids k) children = true ->
                             forallb (avoids k) vs' = true).
    { intros k Hk Ak. destruct (Keep k Hk Ak) as [K1 K2].
      subst vs'. destruct (Nat.ltb 0 (length names)); [|exact K1].
      rewrite forallb_app, K1. cbn [forallb]. now rewrite K2. }
    assert (Lvs' : length bs' = length vs') by (now rewrite <- Bvs', length_map).
    exists (if Nat.ltb 0 (length us) then
              if Nat.ltb 1 (length vs') then VUnion vs'
              else match vs' with
                   | first :: _ => first
                   | [] => VUnion []
                   end
            else VConcrete vars), h3.
    split.
    { cbn [flattenUnions]. unfold bind at 1. unfold newArray at 1.
      fold h1. fold vars.
      rewrite (bind_returns _ _ _ _ _ E2), (bind_returns _ _ _ _ _ E3).
      rewrite (bind_returns _ _ _ _ _ (eq_refl : getArray vars h3 = Returns _ h3)).
      rewrite R3. fold vs'.
      destruct (Nat.ltb 0 (length us)); [|reflexivity].
      destruct (Nat.ltb 1 (length vs')); [reflexivity|].
      now destruct vs'. }
    split; [exact X3|].
    cbn [bagOf flattenBag]. fold flattened. fold names. fold bs'.
    rewrite <- Lus, Lvs'.
    destruct (Nat.ltb 0 (length us)) eqn:Hus.
    + destruct (Nat.ltb 1 (length vs')).
      * split; [exact Vvs'|]. split; [cbn [bagOf]; now rewrite Bvs'|].
        intros k Hk Ak. now apply Avs'.
      * destruct vs' as [|first rest]; destruct bs' as [|bfirst brest];
          try discriminate.
        -- split; [reflexivity|]. split; [reflexivity|]. intros; reflexivity.
        -- cbn [forallb map] in *. apply andb_true_iff in Vvs' as [Vf _].
           injection Bvs' as Bf _.
           split; [exact Vf|]. split; [exact Bf|].
           intros k Hk Ak. specialize (Avs' k Hk Ak).
           now apply andb_true_iff in Avs' as [Af _].
    + split; [exact Vvars|]. split; [cbn [bagOf]; now rewrite R3|].
      intros k Hk Ak. now destruct (Keep k Hk Ak).
Qed.

Lemma bagOf_setOfObjects h vs :
  forall seen, map (bagOf h) (setOfObjects seen vs) = setOfBags seen (map (bagOf h) vs).
Proof.
  induction vs as [|v vs IH]; intros seen; [reflexivity|].
  destruct v as [r|o n|ws]; cbn [setOfObjects map bagOf setOfBags].
  - now rewrite IH.
  - destruct (existsb (Nat.eqb o) seen); [apply IH|]. cbn [map bagOf]. now rewrite IH.
  - now rewrite IH.
Qed.

Lemma forallb_setOfObjects (p : Variables -> bool) vs :
  forall seen, forallb p vs = true -> forallb p (setOfObjects seen vs) = true.
Proof.
  induction vs as [|v vs IH]; intros seen; [reflexivity|].
  cbn [forallb]. intros H. apply andb_true_iff in H as [Hv Hvs].
  destruct v as [r|o n|ws]; cbn [setOfObjects].
  - cbn [forallb]. now rewrite Hv, IH.
  - destruct (existsb (Nat.eqb o) seen); [now apply IH|].
    cbn [forallb]. now rewrite Hv, IH.
  - cbn [forallb]. now rewrite Hv, IH.
Qed.

Lemma uniqueVariables_rebuilds v : rebuilds uniqueVariables uniqueBag v.
Proof.
  induction v as [r|o n|vs IH] using Variables_nested_ind; intros h V.
  - eexists _, _. split; [reflexivity|].
    split; [split; [reflexivity | now eexists]|].
    split; [unfold validIn; cbn [refsBelow arrays]; apply Nat.ltb_lt;
            rewrite length_app; cbn; lia|].
    split.
    + cbn [bagOf]. f_equal. unfold readArray at 1. cbn [arrays].
      now rewrite list_lookup_middle by reflexivity.
    + intros k Hk _. cbn [avoids]. apply negb_true_iff, Nat.eqb_neq. lia.
  - exists (VQuantified o n), h. repeat split; trivial. apply extends_refl.
  - destruct (mapM_rebuilds uniqueVariables uniqueBag vs IH h V)
      as (nested & h' & E & X & V' & B & A).
    exists (VUnion (setOfObjects [] nested)), h'.
    split; [cbn [uniqueVariables]; now rewrite (bind_returns _ _ _ _ _ E)|].
    split; [exact X|].
    split; [now apply (forallb_setOfObjects (validIn h'))|].
    split.
    + cbn [bagOf uniqueBag]. f_equal. rewrite bagOf_setOfObjects. now rewrite B.
    + intros k Hk Ak. cbn [avoids] in *.
      apply forallb_setOfObjects. now apply A.
Qed.

(** Every array of the result of [uniqueVariables] is new. *)
Lemma uniqueVariables_fresh v :
  forall h, validIn h v = true ->
  forall v' h', uniqueVariables v h = Returns v' h' ->
  forall k, k < length (arrays h) -> avoids k v' = true.
Proof.
  induction v as [r|o n|vs IH] using Variables_nested_ind; intros h V v' h' E k Hk.
  - cbn in E. injection E as <- _.
    cbn [avoids]. apply negb_true_iff, Nat.eqb_neq. lia.
  - cbn in E. now injection E as <- _.
  - cbn [uniqueVariables] in E. unfold bind in E.
    destruct (mapM uniqueVariables vs h) as [nested h1| |] eqn:Em; try discriminate.
    injection E as <- <-. cbn [avoids]. apply forallb_setOfObjects.
    change (forallb (validIn h) vs = true) in V.
    revert h nested h1 V Em Hk.
    induction IH as [|c cs Hc _ IHcs]; intros h nested h1 V Em Hk.
    + cbn in Em. now injection Em as <- <-.
    + cbn [forallb] in V. apply andb_true_iff in V as [Vc Vcs].
      destruct (uniqueVariables_rebuilds c h Vc) as (c' & hc & Ec & Xc & _).
      change (mapM uniqueVariables (c :: cs))
        with (bind (uniqueVariables c)
                   (fun y => bind (mapM uniqueVariables cs) (fun ys => ret (y :: ys))))
        in Em.
      rewrite (bind_returns _ _ _ _ _ Ec) in Em. unfold bind in Em.
      destruct (mapM uniqueVariables cs hc) as [cs' hcs| |] eqn:Ecs; try discriminate.
      injection Em as <- <-. cbn [forallb].
      rewrite (Hc h Vc c' hc Ec k Hk). cbn.
      apply (IHcs hc cs' hcs); [| exact Ecs |].
      * rewrite forallb_forall in *. intros x Hx. eapply validIn_extends; eauto.
      * pose proof (extends_length _ _ Xc). lia.
Qed.

Lemma findVars_bagOf h v : findVars h v = namesOfBag (bagOf h v).
Proof.
  induction v as [r|o n|vs IH] using Variables_nested_ind; cbn; trivial.
  f_equal. rewrite map_map. apply map_ext_in. intros c Hc.
  rewrite Forall_forall in IH. apply IH. now apply list_elem_of_In.
Qed.

(** [simplifyConcreteEffect] on values. *)
Lemma simplifyConcreteEffect_bags read update h :
  validIn h read = true -> validIn h update = true ->
  exists res h',
    simplifyConcreteEffect read update h = Returns res h'
    /\ extends h h'
    /\ if updateOk (bagOf h update) then
         exists read' update',
           res = Right (EConcrete read' update')
           /\ validIn h' read' = true /\ validIn h' update' = true
           /\ bagOf h' read' = uniqueBag (flattenBag (bagOf h read))
           /\ bagOf h' update' = flattenBag (bagOf h update)
           /\ (forall k, k < length (arrays h) -> avoids k read' = true)
           /\ (forall k, avoids k read' = true \/ avoids k update' = true)
           /\ (forall k, k < length (arrays h) ->
                         avoids k update = true -> avoids k update' = true)
       else exists t, res = Left t.
Proof.
  intros Vr Vu.
  destruct (simplifyConcreteEffect_steps read update h)
    as (fr & h1 & r' & h2 & u' & h3 & E1 & E2 & E3 & E).
  destruct (flattenUnions_rebuilds read h Vr) as (fr0 & h10 & E1' & X1 & V1 & B1 & A1).
  rewrite E1 in E1'. injection E1' as <- <-.
  destruct (uniqueVariables_rebuilds fr h1 V1) as (r0 & h20 & E2' & X2 & V2 & B2 & A2).
  rewrite E2 in E2'. injection E2' as <- <-.
  assert (Vu2 : validIn h2 update = true)
    by (apply (validIn_extends h h2); [eapply extends_trans; eauto | exact Vu]).
  destruct (flattenUnions_rebuilds update h2 Vu2) as (u0 & h30 & E3' & X3 & V3 & B3 & A3).
  rewrite E3 in E3'. injection E3' as <- <-.
  assert (X : extends h h3) by (eapply extends_trans; [eapply extends_trans|]; eauto).
  assert (F : findVars h3 update = namesOfBag (bagOf h update)).
  { rewrite findVars_bagOf. f_equal. now apply bagOf_extends. }
  rewrite F in E.
  eexists _, h3. split; [exact E|]. split; [exact X|].
  unfold updateOk. destruct (Nat.ltb 0 _); cbn [negb]; [now eexists|].
  exists r', u'. split; [reflexivity|].
  split; [apply (validIn_extends h2 h3); assumption|]. split; [exact V3|].
  split.
  { rewrite (bagOf_extends h2 h3 r' X3 V2), B2, B1. reflexivity. }
  split.
  { rewrite B3. f_equal. apply bagOf_extends; [|exact Vu].
    apply (extends_trans h h1 h2); assumption. }
  pose proof (extends_length _ _ X1) as L1.
  pose proof (extends_length _ _ X2) as L2.
  assert (Fr : forall k, k < length (arrays h1) -> avoids k r' = true)
    by (intros k Hk; exact (uniqueVariables_fresh fr h1 V1 r' h2 E2 k Hk)).
  split; [intros k Hk; apply Fr; lia|].
  split.
  { intros k.
    destruct (Nat.lt_ge_cases k (length (arrays h))) as [Hlt|Hge];
      [left; apply Fr; lia|].
    destruct (Nat.lt_ge_cases k (length (arrays h2))) as [Hlt2|Hge2].
    - right. apply A3; [exact Hlt2|]. now apply (avoids_valid h).
    - left. now apply (avoids_valid h2). }
  intros k Hk Ak. apply A3; [lia | exact Ak].
Qed.

Lemma find_bindingOf h subs n :
  List.find (fun s => String.eqb (fst s) n) (map (bindingOf h) subs)
  = option_map (bindingOf h) (findByName subs n).
Proof.
  unfold findByName. induction subs as [|s subs IH]; [reflexivity|].
  cbn [map List.find].
  replace (fst (bindingOf h s)) with (subName s) by now destruct s.
  now destruct (String.eqb (subName s) n).
Qed.

Lemma bagOf_apply h subs v :
  bagOf h (applySubstitutionToVariables subs v)
  = applyBag (map (bindingOf h) subs) (bagOf h v).
Proof.
  induction v as [r|o n|vs IH] using Variables_nested_ind;
    cbn [applySubstitutionToVariables bagOf applyBag]; trivial.
  - rewrite find_bindingOf.
    now destruct (findByName subs n) as [[m w|m e]|].
  - f_equal. rewrite !map_map. apply map_ext_in. intros c Hc.
    rewrite Forall_forall in IH. apply IH. now apply list_elem_of_In.
Qed.

Lemma findByName_In subs n s : findByName subs n = Some s -> In s subs.
Proof. unfold findByName. intros H. now apply find_some in H. Qed.

Lemma validIn_apply h subs v :
  forallb (validSub h) subs = true -> validIn h v = true ->
  validIn h (applySubstitutionToVariables subs v) = true.
Proof.
  intros Hs. unfold validIn.
  induction v as [r|o n|vs IH] using Variables_nested_ind;
    cbn [applySubstitutionToVariables refsBelow]; trivial.
  - intros _. destruct (findByName subs n) as [[m w|m e]|] eqn:E; trivial.
    apply findByName_In in E. rewrite forallb_forall in Hs.
    exact (Hs _ E).
  - rewrite !forallb_forall. intros H c Hc. apply in_map_iff in Hc as (c0 & <- & Hc0).
    rewrite Forall_forall in IH. apply IH; [now apply list_elem_of_In | now apply H].
Qed.

Lemma stringify_bagOf h v : stringify h v = jsonOfBag (bagOf h v).
Proof.
  induction v as [r|o n|vs IH] using Variables_nested_ind; cbn; trivial.
  f_equal. rewrite map_map. apply map_ext_in. intros c Hc.
  rewrite Forall_forall in IH. apply IH. now apply list_elem_of_In.
Qed.

Lemma sameVars_sameNames v1 v2 h :
  sameVars v1 v2 h
  = Returns (if Nat.eqb v1 v2 then true
             else sameNames (readArray v1 h) (readArray v2 h))
            (sortedAt v1 v2 h).
Proof.
  unfold sameVars, sortStrings, sortedAt. run. f_equal.
  set (h1 := mkHeap (<[v1 := sorted (readArray v1 h)]> (arrays h)) (nextName h)).
  assert (E1 : forall r, readArray r h1
                         = if Nat.eqb r v1 then sorted (readArray r h) else readArray r h).
  { intros r. subst h1. now apply (readArray_update sorted). }
  assert (E2 : forall r,
             readArray r (mkHeap (<[v2 := sorted (readArray v2 h1)]> (arrays h1)) (nextName h1))
             = if Nat.eqb r v2 then sorted (readArray r h1) else readArray r h1).
  { intros r. now apply (readArray_update sorted). }
  rewrite !E2, !E1, !Nat.eqb_refl.
  destruct (Nat.eqb_spec v1 v2) as [->|Hne].
  - now rewrite ?Nat.eqb_refl, everyEqual_refl.
  - destruct (Nat.eqb_spec v2 v1); [congruence|]. reflexivity.
Qed.

Lemma bagOf_sortedAt v1 v2 h w :
  avoids v1 w = true -> avoids v2 w = true -> bagOf (sortedAt v1 v2 h) w = bagOf h w.
Proof.
  intros A1 A2. unfold sortedAt. cbv zeta.
  rewrite bagOf_insert by exact A2. now rewrite bagOf_insert by exact A1.
Qed.

Lemma validIn_sortedAt v1 v2 h w : validIn (sortedAt v1 v2 h) w = validIn h w.
Proof. unfold sortedAt. cbv zeta. now rewrite !validIn_insert. Qed.

Lemma bagOf_names h n v : bagOf (mkHeap (arrays h) n) v = bagOf h v.
Proof.
  induction v as [r|o m|vs IH] using Variables_nested_ind; cbn; trivial.
  f_equal. apply map_ext_in. intros c Hc.
  rewrite Forall_forall in IH. apply IH. now apply list_elem_of_In.
Qed.

Lemma sameNames_refl xs : sameNames xs xs = true.
Proof. unfold sameNames. now rewrite Nat.eqb_refl, everyEqual_refl. Qed.

Lemma bagOf_arrays h1 h2 v : arrays h1 = arrays h2 -> bagOf h1 v = bagOf h2 v.
Proof.
  intros E. induction v as [r|o m|vs IH] using Variables_nested_ind; cbn; trivial.
  - unfold readArray. now rewrite E.
  - f_equal. apply map_ext_in. intros c Hc.
    rewrite Forall_forall in IH. apply IH. now apply list_elem_of_In.
Qed.

Lemma validIn_length h1 h2 v :
  length (arrays h1) <= length (arrays h2) -> validIn h1 v = true -> validIn h2 v = true.
Proof. intros L. now apply refsBelow_mono. Qed.

(** A value that shares no array with [v] does not reference the array of
    the flattened [v]. *)
Lemma avoids_flattened h v r w :
  validIn h w = true ->
  (forall k, k < length (arrays h) -> avoids k v = true -> avoids k (VConcrete r) = true) ->
  (forall k, avoids k v = true \/ avoids k w = true) ->
  avoids r w = true.
Proof.
  intros Vw A D.
  destruct (Nat.lt_ge_cases r (length (arrays h))) as [Hlt|Hge].
  - destruct (D r) as [Av|Aw]; [|exact Aw].
    specialize (A r Hlt Av). cbn in A. now rewrite Nat.eqb_refl in A.
  - now apply (avoids_valid h).
Qed.

Lemma unifyVariables_bags va vb h :
  validIn h va = true -> validIn h vb = true ->
  exists res h',
    unifyVariables va vb h = Returns res h'
    /\ length (arrays h) <= length (arrays h')
    /\ (forall w, validIn h w = true ->
                  (forall k, avoids k va = true \/ avoids k w = true) ->
                  (forall k, avoids k vb = true \/ avoids k w = true) ->
                  bagOf h' w = bagOf h w)
    /\ match unifyBags (flattenBag (bagOf h va)) (flattenBag (bagOf h vb)) with
       | Some bindings =>
           exists subs, res = Right subs
                        /\ map (bindingOf h') subs = bindings
                        /\ forallb (validSub h') subs = true
       | None => exists t, res = Left t
       end.
Proof.
  intros Va Vb.
  destruct (flattenUnions_rebuilds va h Va) as (v1 & h1 & E1 & X1 & V1 & B1 & A1).
  assert (Vb1 : validIn h1 vb = true) by now apply (validIn_extends h h1).
  destruct (flattenUnions_rebuilds vb h1 Vb1) as (v2 & h2 & E2 & X2 & V2 & B2 & A2).
  assert (X : extends h h2) by now apply (extends_trans h h1 h2).
  pose proof (extends_length _ _ X1) as L1.
  pose proof (extends_length _ _ X2) as L2.
  assert (V1' : validIn h2 v1 = true) by now apply (validIn_extends h1 h2).
  assert (Bg1 : flattenBag (bagOf h va) = bagOf h2 v1)
    by (rewrite <- B1; symmetry; now apply bagOf_extends).
  assert (Bg2 : flattenBag (bagOf h vb) = bagOf h2 v2)
    by (rewrite B2; f_equal; symmetry; now apply bagOf_extends).
  rewrite Bg1, Bg2.
  unfold unifyVariables.
  rewrite (bind_returns _ _ _ _ _ E1), (bind_returns _ _ _ _ _ E2), bind_getHeap.
  cbv zeta.
  assert (Frame : forall h', arrays h' = arrays h2 ->
             forall w, validIn h w = true -> bagOf h' w = bagOf h w).
  { intros h' Eh w Vw. rewrite (bagOf_arrays h' h2 w Eh). now apply bagOf_extends. }
  assert (Bind : forall n other, validIn h2 other = true ->
             exists h',
               bindVariables n other h2 = Returns (Right (SubVariable n other)) h'
               /\ arrays h' = arrays h2).
  { intros n other _.
    destruct (bindVariables_never_fails n other h2) as (ns & hx & _ & E & Ax).
    eexists. split; [exact E | exact Ax]. }
  assert (Bound : forall n other loc, validIn h2 other = true ->
             exists res h',
               (let* bound := bindVariables n other in
                match bound with
                | Right subs => ret (Right [subs])
                | Left msg => ret (Left (buildErrorLeaf loc msg))
                end) h2 = Returns res h'
               /\ length (arrays h) <= length (arrays h')
               /\ (forall w, validIn h w = true ->
                             (forall k, avoids k va = true \/ avoids k w = true) ->
                             (forall k, avoids k vb = true \/ avoids k w = true) ->
                             bagOf h' w = bagOf h w)
               /\ exists subs, res = Right subs
                               /\ map (bindingOf h') subs = [(n, Some (bagOf h2 other))]
                               /\ forallb (validSub h') subs = true).
  { intros n other loc Vo. destruct (Bind n other Vo) as (h' & E & Ah).
    exists (Right [SubVariable n other]), h'.
    split; [now rewrite (bind_returns _ _ _ _ _ E)|].
    split; [rewrite Ah; lia|].
    split; [intros w Vw _ _; now apply Frame|].
    exists [SubVariable n other]. split; [reflexivity|].
    split; [cbn; now rewrite (bagOf_arrays h' h2 other Ah)|].
    cbn. rewrite andb_true_r. unfold validIn in *. now rewrite Ah. }
  destruct v1 as [r1|o1 n1|vs1], v2 as [r2|o2 n2|vs2]; cbn [bagOf unifyBags].
  - (* two concrete bags *)
    rewrite (bind_returns _ _ _ _ _ (sameVars_sameNames r1 r2 h2)).
    assert (Len : length (arrays h) <= length (arrays (sortedAt r1 r2 h2)))
      by (unfold sortedAt; cbn [arrays]; rewrite !length_insert; lia).
    assert (Fr : forall w, validIn h w = true ->
                   (forall k, avoids k va = true \/ avoids k w = true) ->
                   (forall k, avoids k vb = true \/ avoids k w = true) ->
                   bagOf (sortedAt r1 r2 h2) w = bagOf h w).
    { intros w Vw D1 D2.
      rewrite bagOf_sortedAt.
      - now apply bagOf_extends.
      - apply (avoids_flattened h va r1 w Vw A1 D1).
      - assert (Vw1 : validIn h1 w = true) by now apply (validIn_extends h h1).
        apply (avoids_flattened h1 vb r2 w Vw1 A2 D2). }
    destruct (Nat.eqb r1 r2) eqn:Heq.
    + apply Nat.eqb_eq in Heq. rewrite Heq in *. rewrite sameNames_refl.
      exists (Right []), (sortedAt r2 r2 h2).
      split; [reflexivity|]. split; [exact Len|]. split; [exact Fr|]. now exists [].
    + destruct (sameNames _ _).
      * exists (Right []), (sortedAt r1 r2 h2).
        split; [reflexivity|]. split; [exact Len|]. split; [exact Fr|]. now exists [].
      * eexists (Left _), (sortedAt r1 r2 h2).
        split; [reflexivity|]. split; [exact Len|]. split; [exact Fr|]. now eexists.
  - destruct (Bound n2 (VConcrete r1) (unifyVariablesLocation h2 (VConcrete r1) (VQuantified o2 n2)) V1')
      as (res & h' & E & L & Fr & Sb).
    exists res, h'. repeat (split; [assumption|]). exact Sb.
  - (* concrete and union *)
    exists (if jsonEqb (stringify h2 (VConcrete r1)) (stringify h2 (VUnion vs2))
            then Right [] else Left (mkErrorTree (Some "Unification for unions of variables is not implemented") (unifyVariablesLocation h2 (VConcrete r1) (VUnion vs2)) [])), h2.
    split; [now destruct (jsonEqb _ _)|].
    split; [lia|]. split; [intros w Vw _ _; now apply Frame|].
    rewrite !stringify_bagOf. cbn [bagOf].
    destruct (jsonEqb _ _); [now exists [] | now eexists].
  - destruct (Bound n1 (VConcrete r2) (unifyVariablesLocation h2 (VQuantified o1 n1) (VConcrete r2)) V2)
      as (res & h' & E & L & Fr & Sb).
    exists res, h'. repeat (split; [assumption|]). exact Sb.
  - destruct (String.eqb n1 n2).
    + exists (Right []), h2. split; [reflexivity|]. split; [lia|].
      split; [intros w Vw _ _; now apply Frame|]. now exists [].
    + destruct (Bound n1 (VQuantified o2 n2) (unifyVariablesLocation h2 (VQuantified o1 n1) (VQuantified o2 n2)) V2)
        as (res & h' & E & L & Fr & Sb).
      exists res, h'. repeat (split; [assumption|]). exact Sb.
  - destruct (Bound n1 (VUnion vs2) (unifyVariablesLocation h2 (VQuantified o1 n1) (VUnion vs2)) V2)
      as (res & h' & E & L & Fr & Sb).
    exists res, h'. repeat (split; [assumption|]). exact Sb.
  - exists (if jsonEqb (stringify h2 (VUnion vs1)) (stringify h2 (VConcrete r2))
            then Right [] else Left (mkErrorTree (Some "Unification for unions of variables is not implemented") (unifyVariablesLocation h2 (VUnion vs1) (VConcrete r2)) [])), h2.
    split; [now destruct (jsonEqb _ _)|].
    split; [lia|]. split; [intros w Vw _ _; now apply Frame|].
    rewrite !stringify_bagOf. cbn [bagOf].
    destruct (jsonEqb _ _); [now exists [] | now eexists].
  - destruct (Bound n2 (VUnion vs1) (unifyVariablesLocation h2 (VUnion vs1) (VQuantified o2 n2)) V1')
      as (res & h' & E & L & Fr & Sb).
    exists res, h'. repeat (split; [assumption|]). exact Sb.
  - exists (if jsonEqb (stringify h2 (VUnion vs1)) (stringify h2 (VUnion vs2))
            then Right [] else Left (mkErrorTree (Some "Unification for unions of variables is not implemented") (unifyVariablesLocation h2 (VUnion vs1) (VUnion vs2)) [])), h2.
    split; [now destruct (jsonEqb _ _)|].
    split; [lia|]. split; [intros w Vw _ _; now apply Frame|].
    rewrite !stringify_bagOf. cbn [bagOf].
    destruct (jsonEqb _ _); [now exists [] | now eexists].
Qed.

Lemma applySubstitution_concrete subs read update :
  applySubstitution subs (EConcrete read update)
  = simplifyConcreteEffect (applySubstitutionToVariables subs read)
                           (applySubstitutionToVariables subs update).
Proof. reflexivity. Qed.

Lemma unifyConcrete_bags loc r1 u1 r2 u2 h :
  validIn h r1 = true -> validIn h u1 = true ->
  validIn h r2 = true -> validIn h u2 = true ->
  (forall k, avoids k r1 = true \/ avoids k u1 = true) ->
  (forall k, avoids k r2 = true \/ avoids k u1 = true) ->
  (forall k, avoids k r1 = true \/ avoids k u2 = true) ->
  (forall k, avoids k r2 = true \/ avoids k u2 = true) ->
  exists res h',
    unifyConcrete loc r1 u1 r2 u2 h = Returns res h'
    /\ isRight res
       = concreteUnifiable (bagOf h r1) (bagOf h u1) (bagOf h r2) (bagOf h u2).
Proof.
  intros Vr1 Vu1 Vr2 Vu2 D11 D21 D12 D22.
  destruct (unifyVariables_bags r1 r2 h Vr1 Vr2) as (res1 & h3 & E & L & Fr & M).
  unfold unifyConcrete, concreteUnifiable.
  rewrite (bind_returns _ _ _ _ _ E).
  destruct (unifyBags (flattenBag (bagOf h r1)) (flattenBag (bagOf h r2)))
    as [bindings|].
  2:{ destruct M as [t ->]. eexists _, _. split; [reflexivity | reflexivity]. }
  destruct M as (subs & -> & Mb & Vs).
  assert (Bu1 : bagOf h3 u1 = bagOf h u1) by now apply Fr.
  assert (Bu2 : bagOf h3 u2 = bagOf h u2) by now apply Fr.
  assert (V3 : forall v, validIn h v = true -> validIn h3 v = true)
    by (intros v; now apply validIn_length).
  rewrite !applySubstitution_concrete.
  destruct (simplifyConcreteEffect_bags
              (applySubstitutionToVariables subs r1)
              (applySubstitutionToVariables subs u1) h3)
    as (a1 & h4 & Ea & Xa & Ma);
    [apply validIn_apply; auto .. |].
  rewrite bagOf_apply, Mb, Bu1 in Ma.
  assert (Vs4 : forall v, validIn h v = true ->
                          validIn h4 (applySubstitutionToVariables subs v) = true).
  { intros v Vv. apply (validIn_extends h3 h4); [exact Xa|].
    apply validIn_apply; auto. }
  destruct (simplifyConcreteEffect_bags
              (applySubstitutionToVariables subs r2)
              (applySubstitutionToVariables subs u2) h4)
    as (a2 & h5 & Eb & Xb & Mc); [auto .. |].
  assert (Bu2' : bagOf h4 (applySubstitutionToVariables subs u2)
                 = applyBag bindings (bagOf h u2)).
  { rewrite (bagOf_extends h3 h4) by (trivial; apply validIn_apply; auto).
    now rewrite bagOf_apply, Mb, Bu2. }
  rewrite Bu2' in Mc.
  unfold bind at 1. rewrite (bind_returns _ _ _ _ _ Ea), (bind_returns _ _ _ _ _ Eb).
  destruct (updateOk (applyBag bindings (bagOf h u1))).
  2:{ destruct Ma as [t ->]. cbn [andb].
      destruct a2 as [t2|e2]; eexists _, _; (split; [reflexivity | reflexivity]). }
  destruct Ma as (r1s & u1s & -> & Vr1s & Vu1s & _ & Bu1s & _).
  destruct (updateOk (applyBag bindings (bagOf h u2))).
  2:{ destruct Mc as [t ->]. eexists _, _. split; [reflexivity | reflexivity]. }
  destruct Mc as (r2s & u2s & -> & Vr2s & Vu2s & _ & Bu2s & _).
  cbn [andb mergeInMany mergeInManyFrom app].
  assert (Ee : mapM ensureConcreteEffect [EConcrete r1s u1s; EConcrete r2s u2s] h5
               = Returns [EConcrete r1s u1s; EConcrete r2s u2s] h5) by reflexivity.
  rewrite (bind_returns _ _ _ _ _ Ee). cbn [updateOf].
  assert (Vu1s5 : validIn h5 u1s = true) by now apply (validIn_extends h4 h5).
  destruct (unifyVariables_bags u1s u2s h5 Vu1s5 Vu2s) as (res2 & h6 & E2 & _ & _ & M2).
  rewrite (bagOf_extends h4 h5 u1s Xb Vu1s), Bu1s, Bu2s in M2.
  rewrite (bind_returns _ _ _ _ _ E2).
  destruct (unifyBags _ _) as [bindings2|].
  - destruct M2 as (subs2 & -> & _). eexists _, _. split; reflexivity.
  - destruct M2 as [t ->]. eexists _, _. split; reflexivity.
Qed.

(** [unify] on two concrete effects returns, and succeeds exactly when
    their values are unifiable. *)
Lemma unify_concrete_bags fuel r1 u1 r2 u2 h :
  validIn h r1 = true -> validIn h u1 = true ->
  validIn h r2 = true -> validIn h u2 = true ->
  exists res h',
    unify (S fuel) (EConcrete r1 u1) (EConcrete r2 u2) h = Returns res h'
    /\ isRight res = unifiable (bagOf h r1) (bagOf h u1) (bagOf h r2) (bagOf h u2).
Proof.
  intros Vr1 Vu1 Vr2 Vu2.
  destruct (simplifyConcreteEffect_bags r1 u1 h Vr1 Vu1) as (a1 & h1 & Ea & Xa & Ma).
  assert (Vr2' : validIn h1 r2 = true) by now apply (validIn_extends h h1).
  assert (Vu2' : validIn h1 u2 = true) by now apply (validIn_extends h h1).
  destruct (simplifyConcreteEffect_bags r2 u2 h1 Vr2' Vu2') as (a2 & h2 & Eb & Xb & Mb).
  rewrite (bagOf_extends h h1 u2 Xa Vu2), (bagOf_extends h h1 r2 Xa Vr2) in Mb.
  rewrite (unify_simplified fuel (EConcrete r1 u1) (EConcrete r2 u2) h a1 h1 a2 h2 Ea Eb).
  unfold unifiable.
  destruct (updateOk (bagOf h u1)).
  2:{ destruct Ma as [t ->]. cbn [andb].
      destruct a2 as [t2|e2]; eexists _, _; (split; [reflexivity | reflexivity]). }
  destruct Ma as (r1' & u1' & -> & Vr1s & Vu1s & Br1 & Bu1 & F1 & D1 & K1).
  destruct (updateOk (bagOf h u2)).
  2:{ destruct Mb as [t ->]. eexists _, _. split; [reflexivity | reflexivity]. }
  destruct Mb as (r2' & u2' & -> & Vr2s & Vu2s & Br2 & Bu2 & F2 & D2 & K2).
  cbn [andb mergeInMany mergeInManyFrom app].
  pose proof (extends_length _ _ Xa) as La.
  destruct (unifyConcrete_bags (unifyLocation h (EConcrete r1 u1) (EConcrete r2 u2))
              r1' u1' r2' u2' h2) as (res & h3 & E & M); trivial.
  - now apply (validIn_extends h1 h2).
  - now apply (validIn_extends h1 h2).
  - intros k. destruct (Nat.lt_ge_cases k (length (arrays h1))) as [Hlt|Hge].
    + left. now apply F2.
    + right. now apply (avoids_valid h1).
  - intros k. destruct (Nat.lt_ge_cases k (length (arrays h))) as [Hlt|Hge].
    + left. now apply F1.
    + destruct (Nat.lt_ge_cases k (length (arrays h1))) as [Hlt1|Hge1].
      * right. apply K2; [exact Hlt1|]. now apply (avoids_valid h).
      * left. now apply (avoids_valid h1).
  - rewrite (bagOf_extends h1 h2 r1' Xb Vr1s), (bagOf_extends h1 h2 u1' Xb Vu1s),
      Br1, Bu1, Br2, Bu2 in M.
    rewrite (bind_returns _ _ _ _ _ E).
    eexists _, _. split; [reflexivity|]. rewrite <- M. now destruct res.
Qed.

(** ** Unifiability does not depend on the order *)

Lemma bool_eq_iff (a b : bool) : (a = true <-> b = true) -> a = b.
Proof. destruct a, b; intros [H1 H2]; trivial; [symmetry; now apply H1 | now apply H2]. Qed.

Lemma everyEqual_spec a b :
  Nat.eqb (length a) (length b) && everyEqual a b = true <-> a = b.
Proof.
  split.
  - revert b. induction a as [|x a IH]; intros [|y b]; cbn; try discriminate; trivial.
    intros H. apply andb_true_iff in H as [Hl H].
    apply andb_true_iff in H as [Hx H]. apply String.eqb_eq in Hx.
    f_equal; [exact Hx|]. apply IH. now rewrite Hl, H.
  - intros ->. now rewrite Nat.eqb_refl, everyEqual_refl.
Qed.

Lemma sameNames_sym xs ys : sameNames xs ys = sameNames ys xs.
Proof.
  apply bool_eq_iff. unfold sameNames. rewrite !everyEqual_spec. split; congruence.
Qed.

Lemma jsonEqb_sym a b : jsonEqb a b = jsonEqb b a.
Proof. apply bool_eq_iff. rewrite !jsonEqb_spec. split; congruence. Qed.

Lemma unifyBags_sym x y : isSome (unifyBags x y) = isSome (unifyBags y x).
Proof.
  destruct x as [xs|o n|bs], y as [ys|o' n'|bs']; cbn [unifyBags]; trivial;
    first [ rewrite sameNames_sym; now destruct (sameNames _ _)
          | rewrite jsonEqb_sym; now destruct (jsonEqb _ _)
          | rewrite String.eqb_sym; now destruct (String.eqb _ _) ].
Qed.

Lemma renameBag_ext f g b : (forall x, f x = g x) -> renameBag f b = renameBag g b.
Proof.
  intros E. induction b as [xs|o n|bs IH] using Bag_nested_ind; cbn; trivial.
  - now rewrite E.
  - f_equal. apply map_ext_in. intros c Hc.
    rewrite Forall_forall in IH. apply IH. now apply list_elem_of_In.
Qed.

Lemma jsonOfBag_rename f b : jsonOfBag (renameBag f b) = renameJson f (jsonOfBag b).
Proof.
  induction b as [xs|o n|bs IH] using Bag_nested_ind; cbn; trivial.
  f_equal. rewrite !map_map. apply map_ext_in. intros c Hc.
  rewrite Forall_forall in IH. apply IH. now apply list_elem_of_In.
Qed.

Lemma renameJson_inj f :
  (forall x y, f x = f y -> x = y) ->
  forall a b, renameJson f a = renameJson f b -> a = b.
Proof.
  intros Hf a.
  induction a as [xs|n|js IH] using Json_nested_ind; intros [ys|m|ks]; cbn;
    try discriminate; trivial.
  - intros [= E]. f_equal. now apply Hf.
  - intros [= E]. f_equal. revert ks E.
    induction IH as [|j js Hj _ IHjs]; intros [|k ks]; cbn; try discriminate; trivial.
    intros [= Ej Ejs]. f_equal; [now apply Hj | now apply IHjs].
Qed.

Lemma unionPart_rename f b :
  unionPart (renameBag f b) = map (renameBag f) (unionPart b).
Proof. now destruct b. Qed.

Lemma namesPart_rename f b : namesPart (renameBag f b) = namesPart b.
Proof. now destruct b. Qed.

Lemma flattenBag_rename f b : flattenBag (renameBag f b) = renameBag f (flattenBag b).
Proof.
  induction b as [xs|o n|bs IH] using Bag_nested_ind; trivial.
  cbn [renameBag flattenBag].
  assert (E : map flattenBag (map (renameBag f) bs)
              = map (renameBag f) (map flattenBag bs)).
  { rewrite !map_map. apply map_ext_in. intros c Hc.
    rewrite Forall_forall in IH. apply IH. now apply list_elem_of_In. }
  rewrite E. set (fl := map flattenBag bs).
  assert (EU : concat (map unionPart (map (renameBag f) fl))
               = map (renameBag f) (concat (map unionPart fl))).
  { rewrite concat_map, !map_map. f_equal. apply map_ext. intros c.
    apply unionPart_rename. }
  assert (EN : concat (map namesPart (map (renameBag f) fl))
               = concat (map namesPart fl)).
  { rewrite map_map. f_equal. apply map_ext. intros c. apply namesPart_rename. }
  rewrite EU, EN, length_map.
  set (us := concat (map unionPart fl)). set (ns := concat (map namesPart fl)).
  destruct (Nat.ltb 0 (length us)); [|reflexivity].
  assert (EV : (if Nat.ltb 0 (length ns)
                then map (renameBag f) us ++ [BConcrete ns]
                else map (renameBag f) us)
               = map (renameBag f) (if Nat.ltb 0 (length ns)
                                    then us ++ [BConcrete ns] else us)).
  { destruct (Nat.ltb 0 (length ns)); [|reflexivity]. now rewrite map_app. }
  rewrite EV, length_map.
  destruct (Nat.ltb 1 _); [reflexivity|].
  now destruct (if Nat.ltb 0 (length ns) then us ++ [BConcrete ns] else us).
Qed.

Lemma unifyBags_rename f x y :
  (forall a b, f a = f b -> a = b) ->
  isSome (unifyBags (renameBag f x) (renameBag f y)) = isSome (unifyBags x y).
Proof.
  intros Hf.
  assert (J : forall a b, jsonEqb (jsonOfBag (renameBag f a)) (jsonOfBag (renameBag f b))
                          = jsonEqb (jsonOfBag a) (jsonOfBag b)).
  { intros a b. apply bool_eq_iff. rewrite !jsonEqb_spec, !jsonOfBag_rename.
    split; [now apply renameJson_inj | congruence]. }
  destruct x as [xs|o n|bs] eqn:Ex, y as [ys|o' n'|bs'] eqn:Ey;
    cbn [renameBag unifyBags]; trivial;
    try (now destruct (String.eqb (f n) (f n')), (String.eqb n n'));
    match goal with
    | |- context [jsonEqb (jsonOfBag ?a) (jsonOfBag ?b)] =>
        let Jx := fresh in
        first [ pose proof (J (BConcrete xs) (BUnion bs')) as Jx
              | pose proof (J (BUnion bs) (BConcrete ys)) as Jx
              | pose proof (J (BUnion bs) (BUnion bs')) as Jx ];
        cbn [renameBag] in Jx; rewrite Jx; reflexivity
    end.
Qed.

(** Binding a name to a quantified variable renames. *)
Lemma renameBag_apply f a o b u :
  renameBag f (applyBag [(a, Some (BQuantified o b))] u)
  = renameBag (fun x => f (if String.eqb x a then b else x)) u.
Proof.
  induction u as [xs|o' n|bs IH] using Bag_nested_ind; trivial.
  - cbn [applyBag List.find fst renameBag]. rewrite (String.eqb_sym a n).
    now destruct (String.eqb n a).
  - cbn [applyBag renameBag]. f_equal. rewrite map_map. apply map_ext_in.
    intros c Hc. rewrite Forall_forall in IH. apply IH. now apply list_elem_of_In.
Qed.

Lemma namesOfBag_apply a o b u :
  namesOfBag (applyBag [(a, Some (BQuantified o b))] u) = namesOfBag u.
Proof.
  induction u as [xs|o' n|bs IH] using Bag_nested_ind; trivial.
  - cbn [applyBag List.find fst]. now destruct (String.eqb a n).
  - cbn [applyBag namesOfBag]. f_equal. rewrite map_map. apply map_ext_in.
    intros c Hc. rewrite Forall_forall in IH. apply IH. now apply list_elem_of_In.
Qed.

Lemma swapNames_inj a b x y : swapNames a b x = swapNames a b y -> x = y.
Proof.
  unfold swapNames.
  destruct (String.eqb_spec x a), (String.eqb_spec x b),
    (String.eqb_spec y a), (String.eqb_spec y b); congruence.
Qed.

(** Two quantified reads with different names: whichever is bound to the
    other, the updates unify or not alike. *)
Lemma updates_unifiable_renamed a oa b ob u1 u2 :
  a <> b ->
  isSome (unifyBags
            (flattenBag (flattenBag (applyBag [(a, Some (BQuantified ob b))] u1)))
            (flattenBag (flattenBag (applyBag [(a, Some (BQuantified ob b))] u2))))
  = isSome (unifyBags
              (flattenBag (flattenBag (applyBag [(b, Some (BQuantified oa a))] u2)))
              (flattenBag (flattenBag (applyBag [(b, Some (BQuantified oa a))] u1)))).
Proof.
  intros Hab.
  assert (R : forall u,
             renameBag (swapNames a b) (applyBag [(a, Some (BQuantified ob b))] u)
             = renameBag (fun x => x) (applyBag [(b, Some (BQuantified oa a))] u)).
  { intros u. rewrite !renameBag_apply. apply renameBag_ext. intros x.
    cbn beta. unfold swapNames.
    destruct (String.eqb_spec x a) as [->|Hxa].
    - destruct (String.eqb_spec b a) as [->|Hba]; [congruence|].
      rewrite String.eqb_refl.
      match goal with |- context [if ?c then _ else _] => now destruct c end.
    - destruct (String.eqb_spec x a); [congruence | reflexivity]. }
  rewrite <- (unifyBags_rename (swapNames a b)) by apply swapNames_inj.
  rewrite <- !flattenBag_rename, !R, !flattenBag_rename.
  rewrite (unifyBags_rename (fun x => x)) by auto.
  apply unifyBags_sym.
Qed.

Lemma concreteUnifiable_sym r1 u1 r2 u2 :
  concreteUnifiable r1 u1 r2 u2 = concreteUnifiable r2 u2 r1 u1.
Proof.
  unfold concreteUnifiable.
  assert (Same : forall subs,
             updateOk (applyBag subs u1) && updateOk (applyBag subs u2)
             && isSome (unifyBags (flattenBag (flattenBag (applyBag subs u1)))
                                  (flattenBag (flattenBag (applyBag subs u2))))
             = updateOk (applyBag subs u2) && updateOk (applyBag subs u1)
               && isSome (unifyBags (flattenBag (flattenBag (applyBag subs u2)))
                                    (flattenBag (flattenBag (applyBag subs u1))))).
  { intros subs. rewrite unifyBags_sym. f_equal. apply andb_comm. }
  destruct (flattenBag r1) as [xs|o1 n1|bs1], (flattenBag r2) as [ys|o2 n2|bs2];
    cbn [unifyBags]; try apply Same.
  - rewrite sameNames_sym. destruct (sameNames ys xs); [apply Same | reflexivity].
  - rewrite jsonEqb_sym. destruct (jsonEqb _ _); [apply Same | reflexivity].
  - destruct (String.eqb_spec n1 n2) as [->|Hne].
    + rewrite String.eqb_refl. apply Same.
    + destruct (String.eqb_spec n2 n1); [congruence|].
      unfold updateOk. rewrite !namesOfBag_apply.
      rewrite (updates_unifiable_renamed n1 o1 n2 o2 u1 u2 Hne).
      f_equal. apply andb_comm.
  - rewrite jsonEqb_sym. destruct (jsonEqb _ _); [apply Same | reflexivity].
  - rewrite jsonEqb_sym. destruct (jsonEqb _ _); [apply Same | reflexivity].
Qed.

Lemma unifiable_sym r1 u1 r2 u2 : unifiable r1 u1 r2 u2 = unifiable r2 u2 r1 u1.
Proof.
  unfold unifiable. rewrite concreteUnifiable_sym. f_equal. apply andb_comm.
Qed.

(** ** The two orders of the arguments of [unify] *)

Lemma unify_concrete_both_orders fuel r1 u1 r2 u2 h :
  validIn h r1 = true -> validIn h u1 = true ->
  validIn h r2 = true -> validIn h u2 = true ->
  exists res h1 res' h2,
    unify (S fuel) (EConcrete r1 u1) (EConcrete r2 u2) h = Returns res h1
    /\ unify (S fuel) (EConcrete r2 u2) (EConcrete r1 u1) h = Returns res' h2
    /\ isRight res = isRight res'.
Proof.
  intros Vr1 Vu1 Vr2 Vu2.
  destruct (unify_concrete_bags fuel r1 u1 r2 u2 h Vr1 Vu1 Vr2 Vu2)
    as (res & h1 & E & M).
  destruct (unify_concrete_bags fuel r2 u2 r1 u1 h Vr2 Vu2 Vr1 Vu1)
    as (res' & h2 & E' & M').
  exists res, h1, res', h2. split; [exact E|]. split; [exact E'|].
  rewrite M, M'. apply unifiable_sym.
Qed.

Lemma unify_arrow_concrete fuel params result read update h :
  exists t h1 t' h2,
    unify (S fuel) (EArrow params result) (EConcrete read update) h = Returns (Left t) h1
    /\ unify (S fuel) (EConcrete read update) (EArrow params result) h
       = Returns (Left t') h2.
Proof.
  destruct (simplifyIfConcrete_returns (EConcrete read update) h) as (res & h1 & E & Hq).
  assert (Ah : forall h', simplifyIfConcrete (EArrow params result) h'
                          = Returns (Right (EArrow params result)) h') by reflexivity.
  rewrite (unify_simplified fuel _ _ h _ _ _ _ (Ah h) E).
  rewrite (unify_simplified fuel _ _ h _ _ _ _ E (Ah h1)).
  destruct res as [t|e'].
  - eexists _, _, _, _. split; reflexivity.
  - assert (exists r' u', e' = EConcrete r' u') as (r' & u' & ->).
    { destruct (simplifyConcreteEffect_steps read update h)
        as (fr & g1 & r' & g2 & u' & g3 & _ & _ & _ & E0).
      cbn [simplifyIfConcrete] in E. rewrite E0 in E.
      destruct (Nat.ltb 0 _); [discriminate|]. injection E as <- _. eauto. }
    eexists _, _, _, _. split; reflexivity.
Qed.

(** Away from pairs of arrows the order of the arguments does not decide
    success.  Let [a] and [b] be effects that are not both arrows, with
    their arrays in the heap.  Both orders of [unify] return, and one
    succeeds exactly when the other does.  When one of the two is a
    quantified effect [n] and the other is not, a successful result is the
    same in both orders: the single binding of [n]; when both are quantified,
    each order binds the name of its first argument to its second
    argument. *)
Theorem unify_both_orders (fuel : nat) (a b : Effect) (h : Heap) :
  validEffect h a = true -> validEffect h b = true ->
  isArrow a && isArrow b = false ->
  exists res h1 res' h2,
    unify (S fuel) a b h = Returns res h1
    /\ unify (S fuel) b a h = Returns res' h2
    /\ isRight res = isRight res'
    /\ match a, b with
       | EQuantified n, EQuantified m =>
           res = Right [SubEffect n b] /\ res' = Right [SubEffect m a]
       | EQuantified n, _ | _, EQuantified n =>
           forall s, res = Right s ->
                     res' = Right s /\ exists e', s = [SubEffect n e']
       | _, _ => True
       end.
Proof.
  intros Va Vb Hab.
  destruct a as [n|r1 u1|ps1 x1].
  - destruct (unify_with_quantified fuel n b h) as (res0 & g1 & g2 & E0 & M).
    destruct res0 as [t|e'].
    + destruct M as [M1 M2].
      destruct b as [m|r2 u2|ps2 x2]; [discriminate E0 | |];
        (eexists _, g1, _, g1; split; [exact M1|]; split; [exact M2|];
         split; [reflexivity|]; intros s [=]).
    + destruct M as [M1 M2].
      destruct b as [m|r2 u2|ps2 x2].
      * cbn in E0. injection E0 as <- <-.
        eexists _, g2, _, g2. split; [exact M1|]. split; [exact M2|].
        split; [reflexivity|]. split; reflexivity.
      * eexists _, g2, _, g2. split; [exact M1|]. split; [exact M2|].
        split; [reflexivity|]. intros s [= <-]. split; [reflexivity | eauto].
      * eexists _, g2, _, g2. split; [exact M1|]. split; [exact M2|].
        split; [reflexivity|]. intros s [= <-]. split; [reflexivity | eauto].
  - destruct b as [m|r2 u2|ps2 x2].
    + destruct (unify_with_quantified fuel m (EConcrete r1 u1) h)
        as (res0 & g1 & g2 & E0 & M).
      destruct res0 as [t|e']; destruct M as [M1 M2].
      * eexists _, g1, _, g1. split; [exact M2|]. split; [exact M1|].
        split; [reflexivity|]. intros s [=].
      * eexists _, g2, _, g2. split; [exact M2|]. split; [exact M1|].
        split; [reflexivity|]. intros s [= <-]. split; [reflexivity | eauto].
    + cbn [validEffect] in Va, Vb.
      apply andb_true_iff in Va as [Vr1 Vu1]. apply andb_true_iff in Vb as [Vr2 Vu2].
      destruct (unify_concrete_both_orders fuel r1 u1 r2 u2 h Vr1 Vu1 Vr2 Vu2)
        as (res & h1 & res' & h2 & E & E' & M).
      exists res, h1, res', h2. repeat (split; [assumption|]). exact I.
    + destruct (unify_arrow_concrete fuel ps2 x2 r1 u1 h) as (t & h1 & t' & h2 & E & E').
      eexists _, h2, _, h1. split; [exact E'|]. split; [exact E|].
      split; [reflexivity | exact I].
  - destruct b as [m|r2 u2|ps2 x2]; [| | discriminate Hab].
    + destruct (unify_with_quantified fuel m (EArrow ps1 x1) h)
        as (res0 & g1 & g2 & E0 & M).
      destruct res0 as [t|e']; destruct M as [M1 M2].
      * eexists _, g1, _, g1. split; [exact M2|]. split; [exact M1|].
        split; [reflexivity|]. intros s [=].
      * eexists _, g2, _, g2. split; [exact M2|]. split; [exact M1|].
        split; [reflexivity|]. intros s [= <-]. split; [reflexivity | eauto].
    + destruct (unify_arrow_concrete fuel ps1 x1 r2 u2 h) as (t & h1 & t' & h2 & E & E').
      eexists _, h1, _, h2. split; [exact E|]. split; [exact E'|].
      split; [reflexivity | exact I].
Qed.

(** [unify_both_orders] on [Update['y', 'x']] and [Update['x', 'y']]. *)
Lemma unify_both_orders_witness :
  exists res h1 res' h2,
    unify 1 updateYX updateXY updateHeap = Returns res h1
    /\ unify 1 updateXY updateYX updateHeap = Returns res' h2
    /\ isRight res = isRight res'
    /\ True.
Proof.
  apply (unify_both_orders 0 updateYX updateXY updateHeap); reflexivity.
Defined.

(** Both orders of the quantified effects [a] and [b] unify, each binding
    its first argument: the two substitutions differ on the effect [a],
    which the first maps to [b] and the second leaves as it is. *)
Lemma unify_quantified_orders_differ :
  exists s s' h1 h2,
    unify 1 (EQuantified "a") (EQuantified "b") (emptyArrays 0) = Returns (Right s) h1
    /\ unify 1 (EQuantified "b") (EQuantified "a") (emptyArrays 0) = Returns (Right s') h2
    /\ applySubstitution s (EQuantified "a") h1 = Returns (Right (EQuantified "b")) h1
    /\ applySubstitution s' (EQuantified "a") h2 = Returns (Right (EQuantified "a")) h2
    /\ EQuantified "b" <> EQuantified "a".
Proof.
  do 4 eexists.
  split; [vm_compute; reflexivity|].
  split; [vm_compute; reflexivity|].
  split; [vm_compute; reflexivity|].
  split; [vm_compute; reflexivity | discriminate].
Qed.

(** C8. The two orders of [(x, y, x) => Pure] and
    [(y, Read['u'], Read['w']) => Pure] do not succeed together.  The first
    order succeeds, with bindings of [x], [y] and [y] again under which the
    two arrows stay different; the second order fails, on ['w'] against
    ['u']. *)
Theorem unify_arrows_one_order_only :
  (exists s h1 a' h2 b' h3,
      unify 2 arrowXYX arrowYUW arrowsHeap = Returns (Right s) h1
      /\ map subName s = ["x"; "y"; "y"]
      /\ applySubstitution s arrowXYX h1 = Returns (Right a') h2
      /\ applySubstitution s arrowYUW h2 = Returns (Right b') h3
      /\ stringifyEffect h3 a' <> stringifyEffect h3 b')
  /\ (exists h',
         unify 2 arrowYUW arrowXYX arrowsHeap
         = Returns
             (Left (mkErrorTree None
                      "Trying to unify (y, Read['u'], Read['w']) => Pure and (x, y, x) => Pure"
                      [mkErrorTree None "Trying to unify Read['w'] and Read['u']"
                         [mkErrorTree
                            (Some "Expected variables [w] and [u] to be the same")
                            "Trying to unify variables ['w'] and ['u']" []]]))
             h').
Proof.
  split.
  - do 6 eexists.
    split; [vm_compute; reflexivity|].
    split; [reflexivity|].
    split; [vm_compute; reflexivity|].
    split; [vm_compute; reflexivity | vm_compute; discriminate].
  - eexists. vm_compute. reflexivity.
Qed.

(** ** Substitutions applied to a quantified effect *)

Lemma findByName_app s1 s2 n :
  findByName (s1 ++ s2) n
  = if bindsName s1 n then findByName s1 n else findByName s2 n.
Proof.
  unfold findByName, bindsName.
  induction s1 as [|b s1 IH]; cbn; [reflexivity|].
  now destruct (String.eqb (subName b) n).
Qed.

Lemma findByName_unbound s n : bindsName s n = false -> findByName s n = None.
Proof.
  unfold findByName, bindsName.
  induction s as [|b s IH]; cbn; [reflexivity|].
  destruct (String.eqb (subName b) n); [discriminate | exact IH].
Qed.

Lemma findByName_first pre b post :
  bindsName pre (subName b) = false ->
  findByName (pre ++ b :: post) (subName b) = Some b.
Proof.
  intros Hpre. rewrite findByName_app, Hpre.
  unfold findByName. cbn. now rewrite String.eqb_refl.
Qed.

(** [applySubstitution] on a quantified effect looks at one binding only:
    the one [find] returns. *)
Lemma applySubstitution_find s n h :
  applySubstitution s (EQuantified n) h
  = match findByName s n with
    | Some (SubEffect _ value) => simplifyIfConcrete value h
    | _ => Returns (Right (EQuantified n)) h
    end.
Proof.
  cbn [applySubstitution]. now destruct (findByName s n) as [[m v|m v]|].
Qed.

(** Applying [s] to the quantified effect [n] is decided by the first
    binding of [s] named [n], of either kind: if it is an effect
    binding, the result is its value, simplified when it is concrete; if it
    is a variable binding, or if [s] has no binding named [n], the result is
    the quantified effect, unchanged. *)
Theorem applySubstitution_quantified (s : list Substitution) (n : string) (h : Heap) :
  (forall pre value post,
      s = pre ++ SubEffect n value :: post -> bindsName pre n = false ->
      applySubstitution s (EQuantified n) h = simplifyIfConcrete value h)
  /\ (forall pre value post,
         s = pre ++ SubVariable n value :: post -> bindsName pre n = false ->
         applySubstitution s (EQuantified n) h = Returns (Right (EQuantified n)) h)
  /\ (bindsName s n = false ->
      applySubstitution s (EQuantified n) h = Returns (Right (EQuantified n)) h).
Proof.
  rewrite applySubstitution_find. repeat split.
  - intros pre value post -> Hpre.
    pose proof (findByName_first pre (SubEffect n value) post Hpre) as F.
    cbn [subName] in F. now rewrite F.
  - intros pre value post -> Hpre.
    pose proof (findByName_first pre (SubVariable n value) post Hpre) as F.
    cbn [subName] in F. now rewrite F.
  - intros Hs. now rewrite (findByName_unbound s n Hs).
Qed.

(** C6. A substitution with an effect binding of [n] to [m] behind a
    variable binding of [n] leaves the quantified effect [n] unchanged: the
    effect binding of [n], although it is there, is not applied. *)
Lemma applySubstitution_shadowed_binding :
  In (SubEffect "n" (EQuantified "m"))
     [SubVariable "n" (VConcrete 0); SubEffect "n" (EQuantified "m")]
  /\ applySubstitution
       [SubVariable "n" (VConcrete 0); SubEffect "n" (EQuantified "m")]
       (EQuantified "n") (emptyArrays 1)
     = Returns (Right (EQuantified "n")) (emptyArrays 1)
  /\ EQuantified "n" <> EQuantified "m".
Proof.
  split; [right; left; reflexivity|]. split; [reflexivity | discriminate].
Qed.

(** The three cases of [applySubstitution_quantified] on particular
    substitutions. *)
Lemma applySubstitution_quantified_witness :
  applySubstitution [SubEffect "n" (EQuantified "m")] (EQuantified "n") (emptyArrays 0)
  = simplifyIfConcrete (EQuantified "m") (emptyArrays 0)
  /\ applySubstitution
       [SubVariable "n" (VConcrete 0); SubEffect "n" (EQuantified "m")]
       (EQuantified "n") (emptyArrays 1)
     = Returns (Right (EQuantified "n")) (emptyArrays 1)
  /\ applySubstitution [SubEffect "m" (EQuantified "n")] (EQuantified "n") (emptyArrays 0)
     = Returns (Right (EQuantified "n")) (emptyArrays 0).
Proof.
  split; [| split].
  - apply (proj1 (applySubstitution_quantified
                    [SubEffect "n" (EQuantified "m")] "n" (emptyArrays 0))
                 [] (EQuantified "m") []); reflexivity.
  - apply (proj1 (proj2 (applySubstitution_quantified
                           [SubVariable "n" (VConcrete 0); SubEffect "n" (EQuantified "m")]
                           "n" (emptyArrays 1)))
                 [] (VConcrete 0) [SubEffect "n" (EQuantified "m")]); reflexivity.
  - apply (proj2 (proj2 (applySubstitution_quantified
                           [SubEffect "m" (EQuantified "n")] "n" (emptyArrays 0))));
      reflexivity.
Defined.

(** [unify] itself returns such substitutions: on [(v, Read[v]) => Pure] and
    [(Pure, Read['x']) => Pure] it binds the effect [v] and then the variable
    [v], and under the result the variable [v] of the first arrow stays as
    it is. *)
Example unify_returns_shadowed_binding :
  exists s h1 a' h2 b' h3,
    unify 2 arrowVReadV arrowPureReadX shadowHeap = Returns (Right s) h1
    /\ map subName s = ["v"; "v"]
    /\ map subKind s = [KEffect; KVariable]
    /\ applySubstitution s arrowVReadV h1 = Returns (Right a') h2
    /\ applySubstitution s arrowPureReadX h2 = Returns (Right b') h3
    /\ stringifyEffect h3 a'
       = JEArrow [JEConcrete (JConcrete []) (JConcrete []);
                  JEConcrete (JQuantified "v") (JConcrete [])]
                 (JEConcrete (JConcrete []) (JConcrete []))
    /\ stringifyEffect h3 b'
       = JEArrow [JEConcrete (JConcrete []) (JConcrete []);
                  JEConcrete (JConcrete ["x"]) (JConcrete [])]
                 (JEConcrete (JConcrete []) (JConcrete [])).
Proof.
  do 6 eexists.
  split; [vm_compute; reflexivity|].
  split; [reflexivity|].
  split; [reflexivity|].
  split; [vm_compute; reflexivity|].
  split; [vm_compute; reflexivity|].
  split; vm_compute; reflexivity.
Qed.

(** ** Composition *)

Lemma mergeInManyFrom_Left {L R} (ls : list L) (es : list (Either L R)) :
  exists ls', mergeInManyFrom (Left ls) es = Left ls'.
Proof.
  revert ls. induction es as [|[l|r] es IH]; intros ls; cbn; eauto.
Qed.

Lemma mergeInManyFrom_Right {L R} (es : list (Either L R)) :
  forall acc s, mergeInManyFrom (Right acc) es = Right s ->
                exists rs, es = map Right rs /\ s = acc ++ rs.
Proof.
  induction es as [|[l|r] es IH]; intros acc s H; cbn in H.
  - exists []. split; [reflexivity|]. injection H as <-. now rewrite app_nil_r.
  - destruct (mergeInManyFrom_Left [l] es) as [ls' E]. congruence.
  - destruct (IH _ _ H) as (rs & -> & ->).
    exists (r :: rs). split; [reflexivity|]. now rewrite <- app_assoc.
Qed.

Lemma mergeInMany_Right {L R} (es : list (Either L R)) s :
  mergeInMany es = Right s -> es = map Right s.
Proof.
  intros H. destruct (mergeInManyFrom_Right es [] s H) as (rs & -> & ->).
  reflexivity.
Qed.

(** When [compose s1 s2] succeeds, its result is [s1] followed by [s2'],
    the bindings of [s2] with [s1] applied to their values, and applying
    it to a quantified effect [n] is applying [s1] alone when [s1]
    has a binding named [n], and applying [s2'] alone otherwise: the values
    of [s1] are returned as they are, [s2'] is not applied to them. *)
Theorem compose_quantified (s1 s2 s : list Substitution) (h h' : Heap) :
  compose s1 s2 h = Returns (Right s) h' ->
  exists s2' : list Substitution,
    mapM (applySubstitutionsToSubstitution s1) s2 h = Returns (map Right s2') h'
    /\ s = s1 ++ s2'
    /\ forall n h0,
         applySubstitution s (EQuantified n) h0
         = if bindsName s1 n then applySubstitution s1 (EQuantified n) h0
           else applySubstitution s2' (EQuantified n) h0.
Proof.
  unfold compose, bind. intros H.
  destruct (mapM _ s2 h) as [applied h1| |] eqn:E; try discriminate.
  destruct (mergeInMany applied) as [errors|s2'] eqn:Mg; [discriminate|].
  injection H as <- <-. apply mergeInMany_Right in Mg as ->.
  exists s2'. split; [reflexivity|]. split; [reflexivity|].
  intros n h0. rewrite !applySubstitution_find, findByName_app.
  now destruct (bindsName s1 n).
Qed.

(** C7. For [s1] binding [a] to [b] and [s2] binding [b] to [c], the
    composition maps the quantified effect [a] to [b], while applying [s1]
    and then [s2'] maps it to [c]. *)
Lemma compose_not_sequential :
  exists s s2' h',
    compose [SubEffect "a" (EQuantified "b")] [SubEffect "b" (EQuantified "c")]
            (emptyArrays 0)
    = Returns (Right s) h'
    /\ s = [SubEffect "a" (EQuantified "b")] ++ s2'
    /\ applySubstitution s (EQuantified "a") h' = Returns (Right (EQuantified "b")) h'
    /\ applySubstitution [SubEffect "a" (EQuantified "b")] (EQuantified "a") h'
       = Returns (Right (EQuantified "b")) h'
    /\ applySubstitution s2' (EQuantified "b") h' = Returns (Right (EQuantified "c")) h'
    /\ EQuantified "b" <> EQuantified "c".
Proof.
  exists [SubEffect "a" (EQuantified "b"); SubEffect "b" (EQuantified "c")],
         [SubEffect "b" (EQuantified "c")], (emptyArrays 0).
  repeat split; discriminate.
Qed.

(** [compose_quantified] on these two substitutions. *)
Lemma compose_quantified_witness :
  exists s2' : list Substitution,
    mapM (applySubstitutionsToSubstitution [SubEffect "a" (EQuantified "b")])
         [SubEffect "b" (EQuantified "c")] (emptyArrays 0)
    = Returns (map Right s2') (emptyArrays 0)
    /\ [SubEffect "a" (EQuantified "b"); SubEffect "b" (EQuantified "c")]
       = [SubEffect "a" (EQuantified "b")] ++ s2'
    /\ forall n h0,
         applySubstitution
           [SubEffect "a" (EQuantified "b"); SubEffect "b" (EQuantified "c")]
           (EQuantified n) h0
         = if bindsName [SubEffect "a" (EQuantified "b")] n
           then applySubstitution [SubEffect "a" (EQuantified "b")] (EQuantified n) h0
           else applySubstitution s2' (EQuantified n) h0.
Proof.
  apply (compose_quantified
           [SubEffect "a" (EQuantified "b")] [SubEffect "b" (EQuantified "c")]
           [SubEffect "a" (EQuantified "b"); SubEffect "b" (EQuantified "c")]
           (emptyArrays 0) (emptyArrays 0)).
  reflexivity.
Defined.

(** ** The code at particular inputs *)

(** C1. On [e] and [(e) => Pure], an effect that mentions [e], [bindEffect]
    returns the binding of [e] to the arrow, not a cyclical-binding error,
    and so does [unify] (by [bindEffect_never_fails], the same holds for
    every name and effect). *)
Theorem unify_binds_cyclic_effect :
  (exists h', bindEffect "e" arrowOverE (emptyArrays 2)
              = Returns (Right (SubEffect "e" arrowOverE)) h')
  /\ (exists h', unify 1 (EQuantified "e") arrowOverE (emptyArrays 2)
                 = Returns (Right [SubEffect "e" arrowOverE]) h').
Proof. split; eexists; vm_compute; reflexivity. Qed.

(** C2. [unify] succeeds on [(a, b) => Pure] and [(b, Pure) => Pure] with a
    substitution under which the two effects stay different: the first
    becomes [(b, Pure) => Pure], the second [(Pure, Pure) => Pure]. *)
Theorem unify_arrows_not_unified :
  exists s h1 a' h2 b' h3,
    unify 2 arrowAB arrowBPure (emptyArrays 6) = Returns (Right s) h1
    /\ applySubstitution s arrowAB h1 = Returns (Right a') h2
    /\ applySubstitution s arrowBPure h2 = Returns (Right b') h3
    /\ stringifyEffect h3 a'
       = JEArrow [JEQuantified "b"; JEConcrete (JConcrete []) (JConcrete [])]
                 (JEConcrete (JConcrete []) (JConcrete []))
    /\ stringifyEffect h3 b'
       = JEArrow [JEConcrete (JConcrete []) (JConcrete []);
                  JEConcrete (JConcrete []) (JConcrete [])]
                 (JEConcrete (JConcrete []) (JConcrete []))
    /\ stringifyEffect h3 a' <> stringifyEffect h3 b'.
Proof.
  do 6 eexists.
  split; [vm_compute; reflexivity|].
  split; [vm_compute; reflexivity|].
  split; [vm_compute; reflexivity|].
  split; [vm_compute; reflexivity|].
  split; [vm_compute; reflexivity | vm_compute; discriminate].
Qed.

(** The same on concrete effects: [unify] succeeds on [Read[a] & Update[b]]
    and [Read[b] & Update['x']], after which the first is
    [Read[b] & Update['x']] and the second [Read['x'] & Update['x']]. *)
Example unify_concrete_not_unified :
  exists s h1 a' h2 b' h3,
    unify 1 readAUpdateB readBUpdateX concreteHeap = Returns (Right s) h1
    /\ applySubstitution s readAUpdateB h1 = Returns (Right a') h2
    /\ applySubstitution s readBUpdateX h2 = Returns (Right b') h3
    /\ stringifyEffect h3 a' = JEConcrete (JQuantified "b") (JConcrete ["x"])
    /\ stringifyEffect h3 b' = JEConcrete (JConcrete ["x"]) (JConcrete ["x"])
    /\ stringifyEffect h3 a' <> stringifyEffect h3 b'.
Proof.
  do 6 eexists.
  split; [vm_compute; reflexivity|].
  split; [vm_compute; reflexivity|].
  split; [vm_compute; reflexivity|].
  split; [vm_compute; reflexivity|].
  split; [vm_compute; reflexivity | vm_compute; discriminate].
Qed.

(** C3. Unifying [Update['y', 'x']] with [Update['x', 'y']] succeeds and
    leaves the update bag of the first argument, the array at reference 1,
    holding ['x', 'y']: the names of an argument have changed order. *)
Theorem unify_sorts_argument :
  exists h',
    unify 1 updateYX updateXY updateHeap = Returns (Right []) h'
    /\ stringifyEffect updateHeap updateYX
       = JEConcrete (JConcrete []) (JConcrete ["y"; "x"])
    /\ stringifyEffect h' updateYX
       = JEConcrete (JConcrete []) (JConcrete ["x"; "y"])
    /\ stringifyEffect h' updateYX <> stringifyEffect updateHeap updateYX.
Proof.
  eexists.
  split; [vm_compute; reflexivity|].
  split; [vm_compute; reflexivity|].
  split; [vm_compute; reflexivity | vm_compute; discriminate].
Qed.

(** C4. Flattening the union of the union [a, 'x'] and the bag ['y'] returns
    a union with two concrete bags among its children, ['x'] and ['y']: the
    bag of the inner union is spliced in, not merged. *)
Theorem flattenUnions_two_concrete_bags :
  exists v' h',
    flattenUnions nestedUnion nestedHeap = Returns v' h'
    /\ stringify h' v' = JUnion [JQuantified "a"; JConcrete ["x"]; JConcrete ["y"]]
    /\ length (concreteChildren v') = 2.
Proof. do 2 eexists. repeat split; vm_compute; reflexivity. Qed.

(** C5. Simplifying the effect that updates that union succeeds, and
    simplifying the result again returns a different effect: the two bags
    ['x'] and ['y'] of the first result are one bag ['x', 'y'] in the
    second. *)
Theorem simplify_twice_differs :
  exists e1 h1 e2 h2,
    simplifyIfConcrete updateNested nestedHeap = Returns (Right e1) h1
    /\ simplifyIfConcrete e1 h1 = Returns (Right e2) h2
    /\ stringifyEffect h2 e1
       = JEConcrete (JConcrete [])
           (JUnion [JQuantified "a"; JConcrete ["x"]; JConcrete ["y"]])
    /\ stringifyEffect h2 e2
       = JEConcrete (JConcrete [])
           (JUnion [JQuantified "a"; JConcrete ["x"; "y"]])
    /\ stringifyEffect h2 e2 <> stringifyEffect h2 e1.
Proof.
  do 4 eexists.
  split; [vm_compute; reflexivity|].
  split; [vm_compute; reflexivity|].
  split; [vm_compute; reflexivity|].
  split; [vm_compute; reflexivity | vm_compute; discriminate].
Qed.

(** * Further properties of the module *)

(** ** Sorting and comparing names *)

Lemma greater_lt x y : greater x y = true <-> OrderedTypeEx.String_as_OT.lt y x.
Proof.
  unfold greater, String.ltb. rewrite <- OrderedTypeEx.String_as_OT.cmp_lt.
  unfold OrderedTypeEx.String_as_OT.cmp. destruct (String.compare y x); split; congruence.
Qed.

Lemma notGreater_total x y : notGreater x y \/ notGreater y x.
Proof.
  unfold notGreater, greater, String.ltb.
  rewrite (String.compare_antisym x y).
  destruct (String.compare y x); cbn; auto.
Qed.

Lemma notGreater_antisym x y : notGreater x y -> notGreater y x -> x = y.
Proof.
  unfold notGreater, greater, String.ltb.
  rewrite (String.compare_antisym x y).
  destruct (String.compare y x) eqn:E; cbn; try discriminate.
  intros _ _. symmetry. now apply String.compare_eq_iff.
Qed.

Lemma notGreater_trans x y z : notGreater x y -> notGreater y z -> notGreater x z.
Proof.
  unfold notGreater. intros A B.
  destruct (greater x z) eqn:C; [|reflexivity].
  apply greater_lt in C.
  destruct (greater y x) eqn:D.
  - apply greater_lt in D.
    assert (L : OrderedTypeEx.String_as_OT.lt z y)
      by (eapply OrderedTypeEx.String_as_OT.lt_trans; eauto).
    apply greater_lt in L. congruence.
  - assert (x = y) by now apply notGreater_antisym.
    subst. apply greater_lt in C. congruence.
Qed.

Lemma insertSorted_perm x l : Permutation (insertSorted x l) (x :: l).
Proof.
  induction l as [|y l IH]; cbn; [reflexivity|].
  destruct (greater x y); [|reflexivity].
  rewrite IH. apply perm_swap.
Qed.

Lemma sorted_perm l : Permutation (sorted l) l.
Proof.
  induction l as [|x l IH]; cbn; [reflexivity|].
  rewrite insertSorted_perm. now rewrite IH.
Qed.

Lemma insertSorted_Sorted x l : Sorted notGreater l -> Sorted notGreater (insertSorted x l).
Proof.
  induction 1 as [|y l S IH Hd]; cbn.
  - repeat constructor.
  - destruct (greater x y) eqn:G.
    + assert (N : notGreater y x).
      { destruct (notGreater_total x y) as [N|N]; [unfold notGreater in N; congruence|exact N]. }
      constructor; [assumption|].
      destruct l as [|z l]; cbn.
      * now constructor.
      * destruct (greater x z); constructor; [now inversion Hd|exact N].
    + constructor; [now constructor|]. constructor. exact G.
Qed.

Lemma sorted_Sorted l : Sorted notGreater (sorted l).
Proof.
  induction l as [|x l IH]; cbn; [constructor|]. now apply insertSorted_Sorted.
Qed.

Lemma sorted_permutation xs ys : Permutation xs ys -> sorted xs = sorted ys.
Proof.
  intros P.
  apply (@Sorted_unique _ notGreater notGreater_trans notGreater_antisym);
    try apply sorted_Sorted.
  now rewrite !sorted_perm.
Qed.

Lemma sorted_sorted xs : sorted (sorted xs) = sorted xs.
Proof. apply sorted_permutation, sorted_perm. Qed.

Lemma ascending_Sorted l : ascending l = true <-> Sorted notGreater l.
Proof.
  induction l as [|x l IH]; cbn; [split; [constructor|trivial]|].
  destruct l as [|y l].
  - split; [repeat constructor|trivial].
  - rewrite andb_true_iff, negb_true_iff, IH. split.
    + intros [G S]. constructor; [assumption|now constructor].
    + intros S. inversion S as [|? ? S' Hd]; subst. inversion Hd; subst. now split.
Qed.

Lemma sameNames_permutation xs ys : sameNames xs ys = true <-> Permutation xs ys.
Proof.
  unfold sameNames. rewrite everyEqual_spec. split.
  - intros E. now rewrite <- (sorted_perm xs), E, sorted_perm.
  - apply sorted_permutation.
Qed.

Lemma sameVars_sorts v1 v2 h :
  exists b h',
    sameVars v1 v2 h = Returns b h'
    /\ (b = true <-> Permutation (readArray v1 h) (readArray v2 h))
    /\ readArray v1 h' = sorted (readArray v1 h)
    /\ readArray v2 h' = sorted (readArray v2 h)
    /\ (forall r, r <> v1 -> r <> v2 -> readArray r h' = readArray r h).
Proof.
  do 2 eexists. split; [apply sameVars_sameNames|].
  assert (R : forall r,
             readArray r (sortedAt v1 v2 h)
             = if Nat.eqb r v2
               then sorted (if Nat.eqb r v1 then sorted (readArray r h) else readArray r h)
               else if Nat.eqb r v1 then sorted (readArray r h) else readArray r h).
  { intros r. unfold sortedAt. cbv zeta.
    rewrite (readArray_update sorted r v2 _ _ eq_refl).
    now rewrite (readArray_update sorted r v1 h _ eq_refl). }
  split; [|split; [|split]].
  - destruct (Nat.eqb_spec v1 v2) as [->|Hne].
    + split; [reflexivity|trivial].
    + apply sameNames_permutation.
  - rewrite R, Nat.eqb_refl. destruct (Nat.eqb v1 v2); [apply sorted_sorted|reflexivity].
  - rewrite R, Nat.eqb_refl. destruct (Nat.eqb v2 v1); [apply sorted_sorted|reflexivity].
  - intros r N1 N2. rewrite R.
    destruct (Nat.eqb_spec r v2); [contradiction|].
    destruct (Nat.eqb_spec r v1); [contradiction|reflexivity].
Qed.

(** X1. [sameVars v1 v2] answers [true] exactly when the two arrays hold the
    same names with the same multiplicities, in any order.  It leaves both
    arrays sorted and every other array as it was. *)
Theorem sameVars_permutation (v1 v2 : ref) (h : Heap) :
  exists b h',
    sameVars v1 v2 h = Returns b h'
    /\ (b = true <-> Permutation (readArray v1 h) (readArray v2 h))
    /\ readArray v1 h' = sorted (readArray v1 h)
    /\ readArray v2 h' = sorted (readArray v2 h)
    /\ (forall r, r <> v1 -> r <> v2 -> readArray r h' = readArray r h).
Proof.
  destruct (sameVars_sorts v1 v2 h) as (b & h' & E & P & S1 & S2 & F).
  exists b, h'. repeat split; try assumption; now apply P.
Qed.

(** X2. [sortStrings array] returns the array it was given, the same
    object: afterwards that array holds the names it held before, in
    ascending order, and no other array has changed. *)
Theorem sortStrings_in_place (array : ref) (h : Heap) :
  exists h',
    sortStrings array h = Returns array h'
    /\ ascending (readArray array h') = true
    /\ Permutation (readArray array h') (readArray array h)
    /\ (forall r, r <> array -> readArray r h' = readArray r h)
    /\ length (arrays h') = length (arrays h).
Proof.
  eexists. split; [reflexivity|].
  assert (R : forall r n,
             readArray r (mkHeap (<[array := sorted (readArray array h)]> (arrays h)) n)
             = if Nat.eqb r array then sorted (readArray r h) else readArray r h).
  { intros r n. apply (readArray_update sorted r array h n eq_refl). }
  split; [|split; [|split]].
  - rewrite R, Nat.eqb_refl. apply ascending_Sorted, sorted_Sorted.
  - rewrite R, Nat.eqb_refl. apply sorted_perm.
  - intros r N. rewrite R. destruct (Nat.eqb_spec r array); [contradiction|reflexivity].
  - cbn [arrays]. apply length_insert.
Qed.

(** ** Duplicate names *)

Lemma existsb_eqb_In x seen : existsb (String.eqb x) seen = true <-> In x seen.
Proof.
  rewrite existsb_exists. split.
  - intros (y & I & E). apply String.eqb_eq in E. now subst.
  - intros I. exists x. split; [assumption|apply String.eqb_refl].
Qed.

Lemma setOfStrings_In xs : forall seen x,
  In x (setOfStrings seen xs) <-> In x xs /\ ~ In x seen.
Proof.
  induction xs as [|y xs IH]; intros seen x; cbn [setOfStrings].
  - cbn. tauto.
  - destruct (existsb (String.eqb y) seen) eqn:E.
    + apply existsb_eqb_In in E. rewrite IH. cbn. split.
      * intros [I N]. tauto.
      * intros [[->|I] N]; [contradiction|tauto].
    + assert (N : ~ In y seen).
      { intros I. apply existsb_eqb_In in I. congruence. }
      cbn [In]. rewrite IH. cbn [In]. split.
      * intros [->|[I M]]; [tauto|]. split; [tauto|]. intros I'. apply M. now right.
      * intros [[->|I] M]; [tauto|].
        destruct (string_dec y x) as [->|D]; [tauto|]. right. split; [assumption|].
        intros [->|I']; tauto.
Qed.

Lemma setOfStrings_NoDup xs : forall seen, NoDup (setOfStrings seen xs).
Proof.
  induction xs as [|y xs IH]; intros seen; cbn [setOfStrings]; [constructor|].
  destruct (existsb (String.eqb y) seen); [apply IH|].
  apply NoDup_cons_2; [|apply IH].
  rewrite list_elem_of_In, setOfStrings_In. cbn. tauto.
Qed.

Lemma concreteBags_setOfBags bs : forall seen,
  concat (map concreteBags (setOfBags seen bs)) = concat (map concreteBags bs).
Proof.
  induction bs as [|b bs IH]; intros seen; [reflexivity|].
  destruct b; cbn [setOfBags map concat concreteBags].
  - now rewrite IH.
  - destruct (existsb (Nat.eqb obj) seen); cbn [map concat concreteBags app]; apply IH.
  - now rewrite IH.
Qed.

Lemma uniqueBag_NoDup b : Forall (@NoDup string) (concreteBags (uniqueBag b)).
Proof.
  induction b as [xs|o n|bs IH] using Bag_nested_ind; cbn [uniqueBag concreteBags].
  - constructor; [apply setOfStrings_NoDup|constructor].
  - constructor.
  - rewrite concreteBags_setOfBags.
    induction IH as [|b bs Hb _ IHbs]; cbn; [constructor|].
    apply Forall_app. split; assumption.
Qed.

Lemma namesOfBag_setOfBags bs : forall seen,
  concat (map namesOfBag (setOfBags seen bs)) = concat (map namesOfBag bs).
Proof.
  induction bs as [|b bs IH]; intros seen; [reflexivity|].
  destruct b; cbn [setOfBags map concat namesOfBag].
  - now rewrite IH.
  - destruct (existsb (Nat.eqb obj) seen); cbn [map concat namesOfBag app]; apply IH.
  - now rewrite IH.
Qed.

Lemma uniqueBag_In b x : In x (namesOfBag (uniqueBag b)) <-> In x (namesOfBag b).
Proof.
  induction b as [xs|o n|bs IH] using Bag_nested_ind; cbn [uniqueBag namesOfBag].
  - rewrite setOfStrings_In. cbn. tauto.
  - tauto.
  - rewrite namesOfBag_setOfBags.
    induction IH as [|b bs Hb _ IHbs]; cbn [map concat]; [tauto|].
    rewrite !in_app_iff. tauto.
Qed.

(** X3. For a value [v] whose arrays exist, [uniqueVariables v] returns a
    value built of new arrays only, and changes no existing array.  No bag of
    the result holds a name twice, and the result has exactly the names of
    [v]. *)
Theorem uniqueVariables_no_duplicates (v : Variables) (h : Heap) :
  validIn h v = true ->
  exists v' h',
    uniqueVariables v h = Returns v' h'
    /\ extends h h'
    /\ Forall (@NoDup string) (concreteBags (bagOf h' v'))
    /\ (forall x, In x (findVars h' v') <-> In x (findVars h v))
    /\ (forall k, k < length (arrays h) -> avoids k v' = true).
Proof.
  intros V.
  destruct (uniqueVariables_rebuilds v h V) as (v' & h' & E & X & V' & B & _).
  exists v', h'. split; [exact E|]. split; [exact X|]. split; [|split].
  - rewrite B. apply uniqueBag_NoDup.
  - intros x. rewrite !findVars_bagOf, B. apply uniqueBag_In.
  - intros k K. exact (uniqueVariables_fresh v h V v' h' E k K).
Qed.

(** X3 on the bag ['x', 'x']. *)
Lemma uniqueVariables_no_duplicates_witness :
  exists v' h',
    uniqueVariables (VConcrete 1) twiceHeap = Returns v' h'
    /\ extends twiceHeap h'
    /\ Forall (@NoDup string) (concreteBags (bagOf h' v'))
    /\ (forall x, In x (findVars h' v') <-> In x (findVars twiceHeap (VConcrete 1)))
    /\ (forall k, k < length (arrays twiceHeap) -> avoids k v' = true).
Proof. apply (uniqueVariables_no_duplicates (VConcrete 1) twiceHeap). reflexivity. Defined.

Lemma occurrences_cons x y l :
  occurrences x (y :: l) = (if String.eqb x y then 1 else 0) + occurrences x l.
Proof. unfold occurrences. cbn. now destruct (String.eqb x y). Qed.

Lemma occurrences_In x l : In x l <-> 0 < occurrences x l.
Proof.
  induction l as [|y l IH]; [cbn; split; [tauto|lia]|].
  rewrite occurrences_cons. cbn [In]. destruct (String.eqb_spec x y) as [->|N].
  - split; [lia|auto].
  - rewrite IH. cbn. split; [intros [E|P]; [congruence|exact P]|auto].
Qed.

Lemma NoDup_occurrences l : NoDup l <-> forall x, occurrences x l <= 1.
Proof.
  induction l as [|y l IH].
  - split; [intros _ x; cbn; lia|constructor].
  - rewrite NoDup_cons, IH. split.
    + intros [N H] x. rewrite occurrences_cons.
      destruct (String.eqb_spec x y) as [->|D]; [|apply H].
      rewrite list_elem_of_In, occurrences_In in N. lia.
    + intros H. split.
      * rewrite list_elem_of_In, occurrences_In. specialize (H y).
        rewrite occurrences_cons, String.eqb_refl in H. lia.
      * intros x. specialize (H x). rewrite occurrences_cons in H. lia.
Qed.

Lemma repeatedIn_In x l : In x (repeatedIn l) <-> 1 < occurrences x l.
Proof.
  unfold repeatedIn. rewrite filter_In. fold (occurrences x l).
  rewrite Nat.ltb_lt, occurrences_In. lia.
Qed.

Lemma repeatedIn_NoDup l : repeatedIn l = [] <-> NoDup l.
Proof.
  rewrite NoDup_occurrences. split.
  - intros E x. destruct (Nat.le_gt_cases (occurrences x l) 1) as [L|G]; [exact L|].
    apply repeatedIn_In in G. rewrite E in G. destruct G.
  - intros H. destruct (repeatedIn l) as [|x r] eqn:E; [reflexivity|].
    assert (I : In x (repeatedIn l)) by (rewrite E; now left).
    apply repeatedIn_In in I. specialize (H x). lia.
Qed.

Lemma variablesToString_bagOf h h' v v' :
  bagOf h v = bagOf h' v' -> variablesToString h v = variablesToString h' v'.
Proof.
  revert v'. induction v as [r|o n|vs IH] using Variables_nested_ind;
    intros [r'|o' n'|vs']; cbn; try discriminate.
  - intros [= E]. now rewrite E.
  - now intros [= _ ->].
  - intros [= E]. f_equal.
    revert vs' E. induction IH as [|v vs Hv _ IHvs]; intros [|v' vs']; cbn; try discriminate; [reflexivity|].
    intros [= E1 E2]. f_equal; [now apply Hv|now apply IHvs].
Qed.

Lemma printed_bagOf h h' v v' : bagOf h v = bagOf h' v' -> printed h v = printed h' v'.
Proof. destruct v, v'; cbn; try discriminate; [|reflexivity..]. intros [= E]. now rewrite E. Qed.

Lemma effectToString_concrete_bagOf h h' r u :
  bagOf h' r = bagOf h r -> bagOf h' u = bagOf h u ->
  effectToString h' (EConcrete r u) = effectToString h (EConcrete r u).
Proof.
  intros Er Eu. cbn [effectToString].
  now rewrite (printed_bagOf _ _ _ _ Er), (printed_bagOf _ _ _ _ Eu),
    (variablesToString_bagOf _ _ _ _ Er), (variablesToString_bagOf _ _ _ _ Eu).
Qed.

(** X4. On an effect whose arrays exist, [simplifyConcreteEffect] changes no
    existing array, and it succeeds exactly when no name occurs twice among
    the names of the update part (duplicates in the read part are allowed).
    Otherwise it returns the leaf error "Multiple updates of variable(s): "
    followed by the names that occur more than once, each listed once. *)
Theorem simplifyConcreteEffect_multiple_updates (read update : Variables) (h : Heap) :
  validIn h read = true -> validIn h update = true ->
  exists res h',
    simplifyConcreteEffect read update h = Returns res h'
    /\ extends h h'
    /\ (NoDup (findVars h update) ->
        exists read' update', res = Right (EConcrete read' update'))
    /\ (~ NoDup (findVars h update) ->
        exists names,
          res = Left (mkErrorTree
                        (Some ("Multiple updates of variable(s): " +:+ join "," names))
                        ("Trying to simplify effect "
                         +:+ effectToString h (EConcrete read update))
                        [])
          /\ names <> [] /\ NoDup names
          /\ forall x, In x names <-> 1 < occurrences x (findVars h update)).
Proof.
  intros Vr Vu.
  destruct (simplifyConcreteEffect_bags read update h Vr Vu) as (res & h' & E & X & _).
  destruct (simplifyConcreteEffect_steps read update h)
    as (fr & h1 & r' & h2 & u' & h3 & _ & _ & _ & E').
  rewrite E in E'. injection E' as -> <-.
  assert (F : findVars h' update = findVars h update).
  { rewrite !findVars_bagOf. now rewrite (bagOf_extends h h' update X Vu). }
  assert (T : effectToString h' (EConcrete read update) = effectToString h (EConcrete read update)).
  { apply effectToString_concrete_bagOf; now apply bagOf_extends. }
  rewrite F in E. cbn [effectToString] in T. rewrite T in E. clear F T.
  do 2 eexists. split; [exact E|]. split; [exact X|].
  destruct (repeatedIn (findVars h update)) as [|x rest] eqn:R.
  - split.
    + intros _. cbn. eauto.
    + intros N. exfalso. apply N. now apply repeatedIn_NoDup.
  - split.
    + intros N. apply repeatedIn_NoDup in N. congruence.
    + intros _. cbn [length Nat.ltb Nat.leb]. eexists. split; [reflexivity|].
      split; [|split].
      * cbn. discriminate.
      * apply setOfStrings_NoDup.
      * intros y. rewrite setOfStrings_In, <- R, repeatedIn_In. cbn. tauto.
Qed.

(** X4 on [Update['x', 'x']]. *)
Lemma simplifyConcreteEffect_multiple_updates_witness :
  exists res h',
    simplifyConcreteEffect (VConcrete 0) (VConcrete 1) twiceHeap = Returns res h'
    /\ extends twiceHeap h'
    /\ (NoDup (findVars twiceHeap (VConcrete 1)) ->
        exists read' update', res = Right (EConcrete read' update'))
    /\ (~ NoDup (findVars twiceHeap (VConcrete 1)) ->
        exists names,
          res = Left (mkErrorTree
                        (Some ("Multiple updates of variable(s): " +:+ join "," names))
                        ("Trying to simplify effect "
                         +:+ effectToString twiceHeap updateTwice)
                        [])
          /\ names <> [] /\ NoDup names
          /\ forall x, In x names <-> 1 < occurrences x (findVars twiceHeap (VConcrete 1))).
Proof.
  apply (simplifyConcreteEffect_multiple_updates (VConcrete 0) (VConcrete 1) twiceHeap);
    reflexivity.
Defined.

(** ** Flattening keeps the names *)

Lemma quantifiedOfBag_unionPart b :
  concat (map quantifiedOfBag (unionPart b)) = quantifiedOfBag b.
Proof. destruct b; cbn; trivial. Qed.

Lemma concat_map_concat {A B} (f : A -> list B) (ls : list (list A)) :
  concat (map f (concat ls)) = concat (map (fun l => concat (map f l)) ls).
Proof.
  induction ls as [|l ls IH]; [reflexivity|].
  cbn. now rewrite map_app, concat_app, IH.
Qed.

Lemma flattenBag_shape children :
  let flattened := map flattenBag children in
  let unionVariables := concat (map unionPart flattened) in
  let names := concat (map namesPart flattened) in
  flattenBag (BUnion children) = BConcrete names /\ unionVariables = []
  \/ (exists q, flattenBag (BUnion children) = q /\ unionVariables = [q] /\ names = [])
  \/ flattenBag (BUnion children) = BUnion unionVariables /\ names = []
  \/ flattenBag (BUnion children) = BUnion (unionVariables ++ [BConcrete names]).
Proof.
  cbv zeta. cbn [flattenBag].
  destruct (concat (map unionPart (map flattenBag children))) as [|q uv] eqn:U.
  - left. now split.
  - right. cbn [length Nat.ltb Nat.leb].
    destruct (concat (map namesPart (map flattenBag children))) as [|x ns] eqn:N.
    + cbn [length Nat.ltb Nat.leb]. destruct uv as [|q' uv].
      * left. exists q. now cbn.
      * right. left. now cbn.
    + right. right. now destruct uv.
Qed.

Lemma flattenBag_quantified b : quantifiedOfBag (flattenBag b) = quantifiedOfBag b.
Proof.
  induction b as [xs|o n|bs IH] using Bag_nested_ind; try reflexivity.
  assert (Q : concat (map quantifiedOfBag (concat (map unionPart (map flattenBag bs))))
              = concat (map quantifiedOfBag bs)).
  { rewrite concat_map_concat, map_map.
    induction IH as [|b bs Hb _ IHbs]; [reflexivity|].
    cbn [map concat]. now rewrite quantifiedOfBag_unionPart, Hb, IHbs. }
  cbn [quantifiedOfBag]. rewrite <- Q.
  destruct (flattenBag_shape bs) as [[E U]|[(q & E & U & N)|[[E N]|E]]]; rewrite E.
  - now rewrite U.
  - rewrite U. cbn. now rewrite app_nil_r.
  - reflexivity.
  - cbn [quantifiedOfBag]. rewrite map_app, concat_app. cbn. now rewrite app_nil_r.
Qed.

Lemma namesOfBag_parts b :
  Permutation (namesOfBag b) (concat (map namesOfBag (unionPart b)) ++ namesPart b).
Proof.
  destruct b; cbn [unionPart namesPart namesOfBag map concat].
  - reflexivity.
  - reflexivity.
  - now rewrite app_nil_r.
Qed.

Lemma flattenBag_names b : Permutation (namesOfBag (flattenBag b)) (namesOfBag b).
Proof.
  induction b as [xs|o n|bs IH] using Bag_nested_ind; try reflexivity.
  assert (Q : Permutation
                (concat (map namesOfBag (concat (map unionPart (map flattenBag bs))))
                 ++ concat (map namesPart (map flattenBag bs)))
                (concat (map namesOfBag bs))).
  { rewrite concat_map_concat, !map_map.
    induction IH as [|b bs Hb _ IHbs]; [reflexivity|].
    cbn [map concat]. rewrite <- Hb, <- IHbs.
    rewrite (namesOfBag_parts (flattenBag b)).
    rewrite <- !app_assoc. apply Permutation_app_head.
    rewrite !app_assoc. apply Permutation_app_tail. apply Permutation_app_comm. }
  cbn [namesOfBag]. rewrite <- Q.
  destruct (flattenBag_shape bs) as [[E U]|[(q & E & U & N)|[[E N]|E]]]; rewrite E.
  - now rewrite U.
  - rewrite U, N. cbn. now rewrite !app_nil_r.
  - rewrite N. cbn [namesOfBag]. now rewrite app_nil_r.
  - cbn [namesOfBag]. rewrite map_app, concat_app. cbn. now rewrite app_nil_r.
Qed.

Lemma quantifiedOfBag_bagOf h v : quantifiedOfBag (bagOf h v) = quantifiedNames v.
Proof.
  induction v as [r|o n|vs IH] using Variables_nested_ind; try reflexivity.
  cbn [bagOf quantifiedOfBag quantifiedNames]. rewrite map_map. f_equal.
  induction IH as [|v vs Hv _ IHvs]; [reflexivity|]. cbn. now rewrite Hv, IHvs.
Qed.

(** X5. For a value [v] whose arrays exist, [flattenUnions v] changes no
    existing array; its result has the names of [v], each as many times as
    in [v] (not always in the same order), and the quantified variables of
    [v] in the same order. *)
Theorem flattenUnions_keeps_names (v : Variables) (h : Heap) :
  validIn h v = true ->
  exists v' h',
    flattenUnions v h = Returns v' h'
    /\ extends h h'
    /\ Permutation (findVars h' v') (findVars h v)
    /\ quantifiedNames v' = quantifiedNames v.
Proof.
  intros V.
  destruct (flattenUnions_rebuilds v h V) as (v' & h' & E & X & _ & B & _).
  exists v', h'. split; [exact E|]. split; [exact X|].
  rewrite !findVars_bagOf, <- (quantifiedOfBag_bagOf h' v'), <- (quantifiedOfBag_bagOf h v), B.
  split; [apply flattenBag_names|apply flattenBag_quantified].
Qed.

(** X5 on the union of the union [a, 'x'] and the bag ['y']. *)
Lemma flattenUnions_keeps_names_witness :
  exists v' h',
    flattenUnions nestedUnion nestedHeap = Returns v' h'
    /\ extends nestedHeap h'
    /\ Permutation (findVars h' v') (findVars nestedHeap nestedUnion)
    /\ quantifiedNames v' = quantifiedNames nestedUnion.
Proof. apply (flattenUnions_keeps_names nestedUnion nestedHeap). reflexivity. Defined.

(** ** Flattening a flat value *)

Lemma flattenBag_leaf b : isUnionBag b = false -> flattenBag b = b.
Proof. now destruct b. Qed.

Lemma flattenBag_leaves bs :
  forallb (fun b => negb (isUnionBag b)) bs = true -> map flattenBag bs = bs.
Proof.
  induction bs as [|b bs IH]; [reflexivity|].
  cbn. intros [L R]%andb_true_iff. apply negb_true_iff in L.
  now rewrite flattenBag_leaf, IH.
Qed.

Lemma unionPart_leaves bs :
  forallb (fun b => negb (isUnionBag b)) bs = true ->
  forallb isQuantifiedBag (concat (map unionPart bs)) = true.
Proof.
  induction bs as [|b bs IH]; [reflexivity|].
  cbn [forallb map concat]. intros [L R]%andb_true_iff.
  rewrite forallb_app, (IH R), andb_true_r. now destruct b.
Qed.

Lemma parts_of_quantified qs :
  forallb isQuantifiedBag qs = true ->
  concat (map unionPart qs) = qs /\ concat (map namesPart qs) = []
  /\ forallb (fun b => negb (isUnionBag b)) qs = true.
Proof.
  induction qs as [|q qs IH]; [now repeat split|].
  cbn [forallb]. intros [Q R]%andb_true_iff. destruct (IH R) as (A & B & C).
  destruct q; try discriminate. cbn. now rewrite A, B, C.
Qed.

Lemma flattenBag_flat_fixed bs :
  forallb (fun b => negb (isUnionBag b)) bs = true ->
  flattenBag (flattenBag (BUnion bs)) = flattenBag (BUnion bs).
Proof.
  intros L.
  pose proof (unionPart_leaves bs L) as Q.
  destruct (parts_of_quantified _ Q) as (A & B & C).
  destruct (flattenBag_shape bs) as [[E U]|[(q & E & U & N)|[[E N]|E]]];
    rewrite (flattenBag_leaves bs L) in *; rewrite E.
  - reflexivity.
  - rewrite U in Q. cbn in Q. destruct q; try discriminate. reflexivity.
  - set (uv := concat (map unionPart bs)) in *.
    cbn [flattenBag]. rewrite (flattenBag_leaves uv C), A, B.
    cbn [flattenBag] in E. rewrite (flattenBag_leaves bs L) in E. fold uv in E.
    rewrite N in E. exact E.
  - set (uv := concat (map unionPart bs)) in *.
    set (ns := concat (map namesPart bs)) in *.
    assert (L' : forallb (fun b => negb (isUnionBag b)) (uv ++ [BConcrete ns]) = true).
    { rewrite forallb_app, C. reflexivity. }
    cbn [flattenBag]. rewrite (flattenBag_leaves _ L').
    rewrite !map_app, !concat_app, A, B. cbn [map concat unionPart namesPart app].
    rewrite !app_nil_r.
    cbn [flattenBag] in E. rewrite (flattenBag_leaves bs L) in E. fold uv ns in E.
    (* this shape is taken only when there are names *)
    destruct uv as [|q uv']; [cbn in E; discriminate|].
    cbn [length Nat.ltb Nat.leb] in *.
    destruct ns as [|x ns'].
    + cbn [length Nat.ltb Nat.leb] in E. exfalso.
      destruct uv' as [|q' uv'']; cbn in E.
      * destruct q; discriminate.
      * injection E as E. apply (f_equal (@length _)) in E.
        rewrite length_app in E. cbn in E. lia.
    + now destruct uv'.
Qed.

Lemma flatBag_bagOf h v : flatBag (bagOf h v) = flat v.
Proof.
  destruct v as [r|o n|vs]; try reflexivity.
  cbn. induction vs as [|c vs IH]; [reflexivity|].
  cbn. rewrite IH. now destruct c.
Qed.

Lemma flattenBag_fixed b : flatBag b = true -> flattenBag (flattenBag b) = flattenBag b.
Proof. destruct b; try reflexivity. apply flattenBag_flat_fixed. Qed.

Lemma flattenUnions_step v h :
  validIn h v = true ->
  exists v' h',
    flattenUnions v h = Returns v' h'
    /\ extends h h' /\ validIn h' v' = true /\ flat v' = true
    /\ bagOf h' v' = flattenBag (bagOf h v).
Proof.
  intros V.
  destruct (flattenUnions_rebuilds v h V) as (v' & h' & E & X & V' & B & _).
  destruct (flattenUnions_flat v h) as (v'' & h'' & E' & F).
  rewrite E in E'. injection E' as <- <-.
  now exists v', h'.
Qed.

(** X6. The result of flattening a flat value (a leaf, or a union of
    leaves) is a fixed point of [flattenUnions], and for every value [v] whose
    arrays exist two rounds of [flattenUnions] reach a fixed point: a third
    round returns a value with the same serialization. *)
Theorem flattenUnions_twice_is_stable (v : Variables) (h : Heap) :
  validIn h v = true ->
  exists v1 h1 v2 h2 v3 h3,
    flattenUnions v h = Returns v1 h1
    /\ flattenUnions v1 h1 = Returns v2 h2
    /\ flattenUnions v2 h2 = Returns v3 h3
    /\ stringify h3 v3 = stringify h3 v2
    /\ (flat v = true -> stringify h3 v2 = stringify h3 v1).
Proof.
  intros V.
  destruct (flattenUnions_step v h V) as (v1 & h1 & E1 & X1 & V1 & F1 & B1).
  destruct (flattenUnions_step v1 h1 V1) as (v2 & h2 & E2 & X2 & V2 & F2 & B2).
  destruct (flattenUnions_step v2 h2 V2) as (v3 & h3 & E3 & X3 & V3 & F3 & B3).
  exists v1, h1, v2, h2, v3, h3. repeat (split; [assumption|]).
  rewrite !stringify_bagOf.
  rewrite (bagOf_extends h2 h3 v2 X3 V2).
  rewrite (bagOf_extends h1 h3 v1 (extends_trans _ _ _ X2 X3) V1).
  split.
  - rewrite B3, B2. f_equal. apply flattenBag_fixed. now rewrite flatBag_bagOf.
  - intros F. rewrite B2, B1. f_equal. apply flattenBag_fixed. now rewrite flatBag_bagOf.
Qed.

(** X6 on the union of the union [a, 'x'] and the bag ['y']. *)
Lemma flattenUnions_twice_is_stable_witness :
  exists v1 h1 v2 h2 v3 h3,
    flattenUnions nestedUnion nestedHeap = Returns v1 h1
    /\ flattenUnions v1 h1 = Returns v2 h2
    /\ flattenUnions v2 h2 = Returns v3 h3
    /\ stringify h3 v3 = stringify h3 v2
    /\ (flat nestedUnion = true -> stringify h3 v2 = stringify h3 v1).
Proof. apply (flattenUnions_twice_is_stable nestedUnion nestedHeap). reflexivity. Defined.

(** X7. On a union whose children are concrete bags and quantified
    variables, all with existing arrays, [flattenUnions] allocates one array,
    which receives the names of the concrete children in order, and returns
    the quantified children in order followed by the bag of that array: the
    bag alone when there is no quantified child, no bag when there is no
    name, and the only quantified child itself when nothing else is left. *)
Theorem flattenUnions_union_of_leaves (children : list Variables) (h : Heap) :
  forallb (fun c => negb (isUnion c)) children = true ->
  forallb (validIn h) children = true ->
  exists v' h',
    flattenUnions (VUnion children) h = Returns v' h'
    /\ arrays h' = arrays h ++ [concat (map (findVars h) children)]
    /\ v' = match List.filter isQuantified children,
                  concat (map (findVars h) children) with
            | [], _ => VConcrete (length (arrays h))
            | [only], [] => only
            | quantified, [] => VUnion quantified
            | quantified, _ => VUnion (quantified ++ [VConcrete (length (arrays h))])
            end
    /\ length (concreteChildren v') <= 1.
Proof.
  intros L V.
  destruct (flattenUnions_of_leaves children h L V) as (v' & h' & E & A & S & C).
  exists v', h'. split; [exact E|]. split; [exact A|]. split; [|exact C].
  rewrite S.
  destruct (List.filter isQuantified children) as [|q [|q' qs]];
    destruct (concat (map (findVars h) children)); reflexivity.
Qed.

(** X7 on the union of [a], ['x'] and ['y']. *)
Lemma flattenUnions_union_of_leaves_witness :
  exists v' h',
    flattenUnions (VUnion leavesUnion) nestedHeap = Returns v' h'
    /\ arrays h' = arrays nestedHeap ++ [["x"; "y"]]
    /\ v' = VUnion [VQuantified 0 "a"; VConcrete 3]
    /\ length (concreteChildren v') <= 1.
Proof. apply (flattenUnions_union_of_leaves leavesUnion nestedHeap); reflexivity. Defined.

(** ** The errors of [unify] *)

Lemma buildErrorTree_location loc errors : location (buildErrorTree loc errors) = loc.
Proof.
  destruct errors as [t|ts]; cbn; [|reflexivity].
  destruct (String.eqb_spec loc (location t)) as [E|N]; [now symmetry|reflexivity].
Qed.

(** X8. Every error that [unify ea eb] returns is a tree whose root location
    is "Trying to unify ea and eb", the two effects printed as they were when
    [unify] was called. *)
Theorem unify_error_location (fuel : nat) (ea eb : Effect) (h h' : Heap) (t : ErrorTree) :
  unify fuel ea eb h = Returns (Left t) h' ->
  location t = unifyLocation h ea eb.
Proof.
  destruct fuel as [|fuel]; [discriminate|].
  destruct (simplifyIfConcrete_returns ea h) as (ra & h1 & Ea & _).
  destruct (simplifyIfConcrete_returns eb h1) as (rb & h2 & Eb & _).
  rewrite (unify_simplified fuel ea eb h ra h1 rb h2 Ea Eb).
  unfold bind at 1.
  match goal with |- match ?m with _ => _ end = _ -> _ => destruct m as [unified h3|msg h3|] end;
    try discriminate.
  unfold ret. intros [= E _]. destruct unified as [err|s]; [|discriminate].
  cbn in E. injection E as <-. apply buildErrorTree_location.
Qed.

(** X8 on [(e) => Pure] and [Pure]. *)
Lemma unify_error_location_witness :
  exists t h',
    unify 1 arrowOverE (pureAt 0) (emptyArrays 2) = Returns (Left t) h'
    /\ location t = unifyLocation (emptyArrays 2) arrowOverE (pureAt 0).
Proof.
  do 2 eexists. split; [vm_compute; reflexivity|].
  eapply (unify_error_location 1 arrowOverE (pureAt 0) (emptyArrays 2)).
  vm_compute. reflexivity.
Defined.

(** X9. Two arrows with different numbers of parameters do not unify: the
    result is the leaf error "Expected n arguments, got m" at the location of
    the call, whatever the parameters and the results are, and the heap is
    unchanged. *)
Theorem unify_arity_mismatch (fuel : nat) (params1 params2 : list Effect)
    (result1 result2 : Effect) (h : Heap) :
  length params1 <> length params2 ->
  unify (S fuel) (EArrow params1 result1) (EArrow params2 result2) h
  = Returns (Left (mkErrorTree
                     (Some ("Expected " +:+ numberToString (length params1)
                            +:+ " arguments, got " +:+ numberToString (length params2)))
                     (unifyLocation h (EArrow params1 result1) (EArrow params2 result2))
                     []))
            h.
Proof.
  intros N.
  rewrite (unify_simplified fuel (EArrow params1 result1) (EArrow params2 result2) h
             (Right (EArrow params1 result1)) h
             (Right (EArrow params2 result2)) h eq_refl eq_refl).
  cbn [mergeInMany mergeInManyFrom app]. unfold unifyArrows.
  destruct (Nat.eqb_spec (length params1) (length params2)) as [E|_]; [contradiction|].
  cbn [negb]. unfold bind, ret. cbn [mapLeft buildErrorTree location].
  now rewrite String.eqb_refl.
Qed.

(** X9 on [() => Pure] and [(e) => Pure]. *)
Lemma unify_arity_mismatch_witness :
  unify 1 (EArrow [] (pureAt 0)) arrowOverE (emptyArrays 2)
  = Returns (Left (mkErrorTree
                     (Some "Expected 0 arguments, got 1")
                     "Trying to unify () => Pure and (e) => Pure"
                     []))
            (emptyArrays 2).
Proof.
  apply (unify_arity_mismatch 0 [] [EQuantified "e"] (pureAt 0) (pureAt 0) (emptyArrays 2)).
  cbn. lia.
Defined.

(** X10. An arrow and a concrete effect never unify, in either order.  When
    the concrete effect simplifies, the error is the leaf "Can't unify
    different types of effects" at the location of the call; when it does
    not, the error of the simplification is the only child of a node at that
    location. *)
Theorem unify_different_kinds (fuel : nat) (params : list Effect) (result : Effect)
    (read update : Variables) (h : Heap) :
  let arrow := EArrow params result in
  let concrete := EConcrete read update in
  exists res h1,
    simplifyConcreteEffect read update h = Returns res h1
    /\ unify (S fuel) arrow concrete h
       = Returns (Left match res with
                       | Right _ =>
                           mkErrorTree (Some "Can't unify different types of effects")
                                       (unifyLocation h arrow concrete) []
                       | Left t => mkErrorTree None (unifyLocation h arrow concrete) [t]
                       end) h1
    /\ unify (S fuel) concrete arrow h
       = Returns (Left match res with
                       | Right _ =>
                           mkErrorTree (Some "Can't unify different types of effects")
                                       (unifyLocation h concrete arrow) []
                       | Left t => mkErrorTree None (unifyLocation h concrete arrow) [t]
                       end) h1.
Proof.
  cbv zeta.
  destruct (simplifyConcreteEffect_steps read update h)
    as (fr & g1 & r' & g2 & u' & h1 & _ & _ & _ & E).
  do 2 eexists. split; [exact E|]. split.
  - rewrite (unify_simplified fuel (EArrow params result) (EConcrete read update) h
               (Right (EArrow params result)) h _ h1 eq_refl E).
    destruct (Nat.ltb 0 _); cbn [mergeInMany mergeInManyFrom app];
      unfold bind, ret; cbn [mapLeft buildErrorTree location];
      now rewrite ?String.eqb_refl.
  - rewrite (unify_simplified fuel (EConcrete read update) (EArrow params result) h
               _ h1 (Right (EArrow params result)) h1 E eq_refl).
    destruct (Nat.ltb 0 _); cbn [mergeInMany mergeInManyFrom app];
      unfold bind, ret; cbn [mapLeft buildErrorTree location];
      now rewrite ?String.eqb_refl.
Qed.

(** ** The exception of [ensureConcreteEffect] *)

Lemma noThrow_ret {A} (Q : A -> Prop) a : Q a -> noThrow Q (ret a).
Proof. intros H h. exact H. Qed.

Lemma noThrow_bind {A B} (P : A -> Prop) (Q : B -> Prop) (m : M A) (k : A -> M B) :
  noThrow P m -> (forall a, P a -> noThrow Q (k a)) -> noThrow Q (bind m k).
Proof.
  intros Hm Hk h. unfold bind. specialize (Hm h).
  destruct (m h) as [a h'| |]; [|contradiction|exact I].
  apply (Hk a Hm).
Qed.

Lemma noThrow_weaken {A} (P Q : A -> Prop) (m : M A) :
  (forall a, P a -> Q a) -> noThrow P m -> noThrow Q m.
Proof.
  intros I Hm h. specialize (Hm h). destruct (m h); auto.
Qed.

Lemma noThrow_returns {A} (Q : A -> Prop) (m : M A) :
  (forall h, exists a h', m h = Returns a h' /\ Q a) -> noThrow Q m.
Proof. intros H h. destruct (H h) as (a & h' & -> & q). exact q. Qed.

Lemma noThrow_getHeap (Q : Heap -> Prop) : (forall h, Q h) -> noThrow Q getHeap.
Proof. intros H h. apply H. Qed.

Lemma noThrow_mapM {A B} (Q : B -> Prop) (f : A -> M B) l :
  (forall x, noThrow Q (f x)) -> noThrow (Forall Q) (mapM f l).
Proof.
  intros H. induction l as [|x l IH]; cbn [mapM].
  - apply noThrow_ret. constructor.
  - apply (noThrow_bind Q); [apply H|]. intros y Qy.
    apply (noThrow_bind (Forall Q)); [apply IH|]. intros ys Qys.
    apply noThrow_ret. now constructor.
Qed.

Lemma flattenUnions_noThrow v : noThrow (fun _ => True) (flattenUnions v).
Proof.
  apply noThrow_returns. intros h.
  destruct (flattenUnions_flat v h) as (v' & h' & E & _). eauto.
Qed.

Lemma simplifyConcreteEffect_noThrow read update :
  noThrow (onRight (fun e => isConcreteEffect e = true)) (simplifyConcreteEffect read update).
Proof.
  apply noThrow_returns. intros h.
  destruct (simplifyConcreteEffect_steps read update h)
    as (fr & g1 & r' & g2 & u' & h1 & _ & _ & _ & E).
  do 2 eexists. split; [exact E|]. now destruct (Nat.ltb 0 _).
Qed.

Lemma applySubstitution_noThrow subs e :
  noThrow (onRight (fun e' => isConcreteEffect e = true -> isConcreteEffect e' = true))
          (applySubstitution subs e).
Proof.
  destruct e as [n|r u|ps res].
  - apply noThrow_returns. intros h.
    destruct (applySubstitution_returns subs (EQuantified n) h) as (x & h' & E & _).
    exists x, h'. split; [exact E|]. destruct x; cbn; [trivial|discriminate].
  - rewrite applySubstitution_concrete.
    eapply noThrow_weaken; [|apply simplifyConcreteEffect_noThrow].
    intros [t|e']; cbn; auto.
  - apply noThrow_returns. intros h.
    destruct (applySubstitution_returns subs (EArrow ps res) h) as (x & h' & E & _).
    exists x, h'. split; [exact E|]. destruct x; cbn; [trivial|discriminate].
Qed.

Lemma bindVariables_noThrow name v :
  noThrow (fun r => r = Right (SubVariable name v)) (bindVariables name v).
Proof.
  apply noThrow_returns. intros h.
  destruct (bindVariables_never_fails name v h) as (ns & h1 & _ & E & _). eauto.
Qed.

Lemma sameVars_noThrow v1 v2 : noThrow (fun _ => True) (sameVars v1 v2).
Proof. apply noThrow_returns. intros h. rewrite sameVars_sameNames. eauto. Qed.

Lemma unifyVariables_noThrow va vb :
  noThrow (onRight oneVariableBinding) (unifyVariables va vb).
Proof.
  unfold unifyVariables.
  apply (noThrow_bind (fun _ => True)); [apply flattenUnions_noThrow|]. intros v1 _.
  apply (noThrow_bind (fun _ => True)); [apply flattenUnions_noThrow|]. intros v2 _.
  apply (noThrow_bind (fun _ => True)); [now apply noThrow_getHeap|]. intros h _.
  cbv zeta.
  assert (B : forall name other,
             noThrow (onRight oneVariableBinding)
               (let* bound := bindVariables name other in
                match bound with
                | Right subs => ret (Right [subs])
                | Left msg =>
                    ret (Left (buildErrorLeaf (unifyVariablesLocation h v1 v2) msg))
                end)).
  { intros name other. eapply noThrow_bind; [apply bindVariables_noThrow|].
    intros r ->. apply noThrow_ret. right. eauto. }
  assert (N : forall A (x : Either A _), x = Right [] -> onRight oneVariableBinding x).
  { intros A x ->. now left. }
  destruct v1 as [r1|o1 n1|vs1], v2 as [r2|o2 n2|vs2]; try apply B.
  - eapply noThrow_bind; [apply sameVars_noThrow|]. intros [|] _.
    + apply noThrow_ret. now left.
    + eapply noThrow_bind; [now apply (noThrow_getHeap (fun _ => True))|].
      intros h' _. now apply noThrow_ret.
  - destruct (jsonEqb _ _); apply noThrow_ret; [now left|exact I].
  - destruct (String.eqb n1 n2); [apply noThrow_ret; now left|apply B].
  - destruct (jsonEqb _ _); apply noThrow_ret; [now left|exact I].
  - destruct (jsonEqb _ _); apply noThrow_ret; [now left|exact I].
Qed.

Lemma oneVariableBinding_two s1 s2 :
  oneVariableBinding s1 -> oneVariableBinding s2 -> variableBindings (s1 ++ s2).
Proof.
  intros [->|(n & v & ->)] [->|(m & w & ->)]; split; cbn; trivial; lia.
Qed.

Lemma ensureConcreteEffect_noThrow e :
  isConcreteEffect e = true -> noThrow (fun e' => True) (ensureConcreteEffect e).
Proof. destruct e; try discriminate. intros _. now apply noThrow_ret. Qed.

Lemma unifyConcrete_noThrow loc read1 update1 read2 update2 :
  noThrow (onRight variableBindings) (unifyConcrete loc read1 update1 read2 update2).
Proof.
  unfold unifyConcrete.
  eapply noThrow_bind; [apply unifyVariables_noThrow|].
  intros [t|subs] Hr.
  - eapply noThrow_bind; [apply (noThrow_ret (fun _ => True)); exact I|].
    intros u _. cbn. now apply noThrow_ret.
  - cbn in Hr.
    eapply (noThrow_bind (onRight oneVariableBinding)).
    + eapply noThrow_bind; [apply applySubstitution_noThrow|]. intros a1 H1.
      eapply noThrow_bind; [apply applySubstitution_noThrow|]. intros a2 H2.
      destruct a1 as [t1|e1], a2 as [t2|e2]; cbn [mergeInMany mergeInManyFrom app];
        try (now apply noThrow_ret).
      cbn in H1, H2. specialize (H1 eq_refl). specialize (H2 eq_refl).
      cbn [mapM].
      eapply noThrow_bind.
      { eapply noThrow_bind; [now apply ensureConcreteEffect_noThrow|]. intros x1 _.
        eapply noThrow_bind.
        - eapply noThrow_bind; [now apply ensureConcreteEffect_noThrow|]. intros x2 _.
          eapply noThrow_bind; [apply (noThrow_ret (fun l => l = [])); reflexivity|].
          intros l ->. apply (noThrow_ret (fun l => exists y, l = [y])). eauto.
        - intros l [y ->]. apply (noThrow_ret (fun l => exists x y, l = [x; y])). eauto. }
      intros l (x & y & ->).
      eapply noThrow_bind; [apply unifyVariables_noThrow|].
      intros [t|s] Hs; now apply noThrow_ret.
    + intros [err|s2] Hu; cbn [merge mergeFrom mapLeft app]; apply noThrow_ret; [exact I|].
      cbn [concat]. rewrite app_nil_r. now apply oneVariableBinding_two.
Qed.

(** X11. When [unify] succeeds on two concrete effects, its substitution has
    at most two bindings, and all of them bind variables: at most one from
    the read parts and one from the update parts. *)
Theorem unify_concrete_bindings (fuel : nat) (read1 update1 read2 update2 : Variables)
    (h h' : Heap) (s : list Substitution) :
  unify (S fuel) (EConcrete read1 update1) (EConcrete read2 update2) h
  = Returns (Right s) h' ->
  forallb isVariableBinding s = true /\ length s <= 2.
Proof.
  destruct (simplifyConcreteEffect_steps read1 update1 h)
    as (fr1 & g1 & r1 & g2 & u1 & h1 & _ & _ & _ & E1).
  destruct (simplifyConcreteEffect_steps read2 update2 h1)
    as (fr2 & g3 & r2 & g4 & u2 & h2 & _ & _ & _ & E2).
  rewrite (unify_simplified fuel (EConcrete read1 update1) (EConcrete read2 update2)
             h _ h1 _ h2 E1 E2).
  destruct (Nat.ltb 0 _); destruct (Nat.ltb 0 _);
    cbn [mergeInMany mergeInManyFrom app]; try (unfold bind, ret; discriminate).
  unfold bind at 1.
  pose proof (unifyConcrete_noThrow
                (unifyLocation h (EConcrete read1 update1) (EConcrete read2 update2))
                r1 u1 r2 u2 h2) as N.
  destruct (unifyConcrete _ _ _ _ _ h2) as [[err|s'] h3| |]; try discriminate.
  unfold ret. cbn [mapLeft]. intros [= <- _]. exact N.
Qed.

(** X11 on [Read[a] & Update[b]] and [Read[b] & Update['x']]. *)
Lemma unify_concrete_bindings_witness :
  exists s h',
    unify 1 readAUpdateB readBUpdateX concreteHeap = Returns (Right s) h'
    /\ forallb isVariableBinding s = true /\ length s <= 2.
Proof.
  do 2 eexists. split; [vm_compute; reflexivity|].
  eapply (unify_concrete_bindings 0 (VQuantified 0 "a") (VQuantified 1 "b")
            (VQuantified 2 "b") (VConcrete 0) concreteHeap).
  vm_compute. reflexivity.
Defined.

Lemma applySubstitutionsToSubstitution_noThrow subs s :
  noThrow (fun _ => True) (applySubstitutionsToSubstitution subs s).
Proof.
  destruct s as [n v|n e]; cbn; [now apply noThrow_ret|].
  eapply noThrow_bind; [apply applySubstitution_noThrow|].
  intros [t|e'] _; now apply noThrow_ret.
Qed.

Lemma compose_noThrow s1 s2 : noThrow (fun _ => True) (compose s1 s2).
Proof.
  unfold compose.
  eapply noThrow_bind;
    [apply (noThrow_mapM (fun _ => True)), applySubstitutionsToSubstitution_noThrow|].
  intros applied _. destruct (mergeInMany applied); now apply noThrow_ret.
Qed.

Section UnifyArrowsNoThrow.
Variable unify' : Effect -> Effect -> M (Either ErrorTree (list Substitution)).
Hypothesis unify'_noThrow : forall x y, noThrow (fun _ => True) (unify' x y).

Lemma applySubstitutionsAndUnify_noThrow subs e1 e2 :
  noThrow (fun _ => True) (applySubstitutionsAndUnify unify' subs e1 e2).
Proof.
  unfold applySubstitutionsAndUnify.
  eapply noThrow_bind; [apply applySubstitution_noThrow|]. intros a1 _.
  eapply noThrow_bind; [apply applySubstitution_noThrow|]. intros a2 _.
  destruct (mergeInMany [a1; a2]) as [errs|[|x [|y [|z l]]]]; try now apply noThrow_ret.
  eapply noThrow_bind; [apply unify'_noThrow|].
  intros [err|newSubs] _; [now apply noThrow_ret|].
  eapply noThrow_bind; [apply compose_noThrow|]. intros c _. now apply noThrow_ret.
Qed.

Lemma unifyParams_noThrow params1 : forall result params2,
  noThrow (fun _ => True) (unifyParams unify' result params1 params2).
Proof.
  induction params1 as [|e rest IH]; intros result [|e' rest']; cbn [unifyParams];
    try now apply noThrow_ret.
  eapply noThrow_bind; [|intros next _; apply IH].
  destruct result; [now apply (noThrow_ret (fun _ => True))|].
  apply applySubstitutionsAndUnify_noThrow.
Qed.

Lemma unifyArrows_noThrow loc params1 result1 params2 result2 :
  noThrow (fun _ => True) (unifyArrows unify' loc params1 result1 params2 result2).
Proof.
  unfold unifyArrows. destruct (negb _); [now apply noThrow_ret|].
  eapply noThrow_bind; [apply unifyParams_noThrow|].
  intros [err|subs] _; [now apply noThrow_ret|apply applySubstitutionsAndUnify_noThrow].
Qed.
End UnifyArrowsNoThrow.

Lemma bindQuantified_noThrow loc name other :
  noThrow (fun _ => True) (bindQuantified loc name other).
Proof.
  apply noThrow_returns. intros h.
  destruct (bindQuantified_returns name other h) as (ns & h1 & _ & E).
  rewrite (E loc). eauto.
Qed.

Lemma simplifyIfConcrete_noThrow e : noThrow (fun _ => True) (simplifyIfConcrete e).
Proof.
  apply noThrow_returns. intros h.
  destruct (simplifyIfConcrete_returns e h) as (res & h' & E & _). eauto.
Qed.

Lemma unify_noThrow fuel : forall ea eb, noThrow (fun _ => True) (unify fuel ea eb).
Proof.
  induction fuel as [|fuel IH]; intros ea eb; [intros h; exact I|].
  cbn [unify].
  eapply noThrow_bind; [now apply (noThrow_getHeap (fun _ => True))|]. intros h _.
  eapply noThrow_bind; [apply (noThrow_mapM (fun _ => True)), simplifyIfConcrete_noThrow|].
  intros rs _.
  eapply noThrow_bind; [|intros u _; now apply noThrow_ret].
  instantiate (1 := fun _ => True).
  destruct (mergeInMany rs) as [errs|[|e1 [|e2 [|e3 l]]]]; try now apply noThrow_ret.
  destruct e1 as [n1|r1 u1|ps1 res1], e2 as [n2|r2 u2|ps2 res2];
    try apply bindQuantified_noThrow; try now apply noThrow_ret.
  - eapply noThrow_weaken; [|apply unifyConcrete_noThrow]. trivial.
  - now apply unifyArrows_noThrow.
Qed.

(** Not every call of [unify] returns.  On [((e) => e) => ((e) => e)] and
    [(e) => e] the parameters give the binding of [e] to [(e) => e] (no
    occurs-check stops it), under which the results of the two arrows are
    the two arrows again: [unify] calls itself on its own arguments, at
    every depth.  A JavaScript engine ends such a run with a [RangeError]. *)
Lemma bind_outOfFuel {A B} (m : M A) (k : A -> M B) h :
  m h = OutOfFuel -> bind m k h = OutOfFuel.
Proof. intros E. unfold bind. now rewrite E. Qed.

Example unify_recurses_forever (fuel : nat) :
  forall h, unify fuel idArrowArrow idArrow h = OutOfFuel.
Proof.
  induction fuel as [|fuel IH]; intros h; [reflexivity|].
  destruct fuel as [|fuel]; [reflexivity|].
  rewrite (unify_simplified (S fuel) idArrowArrow idArrow h
             (Right idArrowArrow) h (Right idArrow) h eq_refl eq_refl).
  apply bind_outOfFuel.
  cbn [mergeInMany mergeInManyFrom app idArrowArrow idArrow].
  fold idArrow. fold idArrowArrow.
  unfold unifyArrows. cbn [length Nat.eqb negb unifyParams].
  destruct (unify_with_quantified fuel "e" idArrow h) as (res & h1 & h2 & S & U).
  change (simplifyIfConcrete idArrow h) with (Returns (@inr ErrorTree _ idArrow) h) in S.
  injection S as <- <-. destruct U as [_ U]. cbn [idArrow] in U. fold idArrow in U.
  assert (P : applySubstitutionsAndUnify (unify (S fuel)) [] idArrow (EQuantified "e") h
              = Returns (Right [SubEffect "e" idArrow]) h2).
  { unfold applySubstitutionsAndUnify.
    rewrite (bind_returns (applySubstitution [] idArrow) _ h (Right idArrow) h eq_refl).
    rewrite (bind_returns (applySubstitution [] (EQuantified "e")) _ h
               (Right (EQuantified "e")) h eq_refl).
    cbn [mergeInMany mergeInManyFrom app].
    rewrite (bind_returns _ _ _ _ _ U).
    reflexivity. }
  rewrite (bind_returns _ _ _ _ _ (bind_returns _ _ _ _ _ P)).
  unfold applySubstitutionsAndUnify.
  rewrite (bind_returns (applySubstitution [SubEffect "e" idArrow] idArrow) _ h2
             (Right idArrowArrow) h2 eq_refl).
  rewrite (bind_returns (applySubstitution [SubEffect "e" idArrow] (EQuantified "e")) _ h2
             (Right idArrow) h2 eq_refl).
  cbn [mergeInMany mergeInManyFrom app].
  apply bind_outOfFuel, IH.
Qed.

(** X12. The [throw] of [ensureConcreteEffect] is not reachable from [unify]:
    no run of [unify], to whatever depth of its recursion, raises the
    "Unexpected format" exception, because what [unifyConcrete] passes to
    [ensureConcreteEffect] is the result of applying a substitution to a
    concrete effect, which is concrete.  This is about that exception only:
    a run that does not return ([unify_recurses_forever]) is a run out of
    fuel here, not a [Throws]. *)
Theorem unify_never_reaches_throw (fuel : nat) (ea eb : Effect) (h h' : Heap)
    (msg : string) :
  unify fuel ea eb h <> Throws msg h'.
Proof.
  pose proof (unify_noThrow fuel ea eb h) as N.
  intros E. now rewrite E in N.
Qed.

(** ** Composition keeps the bindings *)

Lemma mapM_applySubstitutionsToSubstitution subs s2 :
  forall h, exists applied h',
    mapM (applySubstitutionsToSubstitution subs) s2 h = Returns applied h'
    /\ Forall2 (fun s r => forall s', r = Right s' ->
                  subName s' = subName s /\ subKind s' = subKind s) s2 applied.
Proof.
  induction s2 as [|s s2 IH]; intros h.
  - exists [], h. split; [reflexivity|constructor].
  - assert (E : exists r h1, applySubstitutionsToSubstitution subs s h = Returns r h1
                  /\ forall s', r = Right s' ->
                       subName s' = subName s /\ subKind s' = subKind s).
    { destruct s as [n v|n e]; cbn [applySubstitutionsToSubstitution].
      - do 2 eexists. split; [reflexivity|]. now intros s' [= <-].
      - destruct (applySubstitution_returns subs e h) as (r & h1 & E & _).
        unfold bind. rewrite E.
        destruct r as [t|e']; do 2 eexists; (split; [reflexivity|]);
          [discriminate|now intros s' [= <-]]. }
    destruct E as (r & h1 & E & P).
    destruct (IH h1) as (rs & h2 & E2 & F).
    exists (r :: rs), h2. split; [|now constructor].
    cbn [mapM]. unfold bind at 1. rewrite E. unfold bind at 1. now rewrite E2.
Qed.

Lemma Forall2_bindings (f : Substitution -> string) (g : Substitution -> NameKind)
    (s2 s : list Substitution) :
  Forall2 (fun b r => forall b', r = Right b' -> f b' = f b /\ g b' = g b)
          s2 (map (@inr ErrorTree Substitution) s) ->
  map f s = map f s2 /\ map g s = map g s2.
Proof.
  revert s. induction s2 as [|b s2 IH]; intros [|b' s] F;
    inversion F as [|? ? ? ? Hb Hrest]; subst; [now split|].
  destruct (Hb b' eq_refl) as [Ef Eg]. destruct (IH s Hrest) as [If Ig].
  cbn. now rewrite Ef, Eg, If, Ig.
Qed.

(** X13. [compose s1 s2] always returns.  When it succeeds, its result starts
    with the bindings of [s1], unchanged, and goes on with one binding for
    each binding of [s2], of the same name and kind and in the same order;
    when it fails, the error is a node with no message at the location
    "Composing substitutions ... and ...". *)
Theorem compose_keeps_bindings (s1 s2 : list Substitution) (h : Heap) :
  exists res h',
    compose s1 s2 h = Returns res h'
    /\ match res with
       | Right s =>
           firstn (length s1) s = s1
           /\ map subName s = map subName s1 ++ map subName s2
           /\ map subKind s = map subKind s1 ++ map subKind s2
       | Left t =>
           location t = "Composing substitutions " +:+ substitutionsToString s1
                        +:+ " and " +:+ substitutionsToString s2
           /\ message t = None
       end.
Proof.
  destruct (mapM_applySubstitutionsToSubstitution s1 s2 h) as (applied & h' & E & F).
  unfold compose, bind. rewrite E.
  destruct (mergeInMany applied) as [errors|s] eqn:MM; do 2 eexists; (split; [reflexivity|]).
  - now cbn.
  - apply mergeInMany_Right in MM. subst applied.
    destruct (Forall2_bindings subName subKind s2 s F) as [En Ek].
    split; [|rewrite !map_app, En, Ek; now split].
    rewrite firstn_app, firstn_all, Nat.sub_diag. cbn. apply app_nil_r.
Qed.

(** ** Substitutions that do not bind the names of a value *)

Lemma applySubstitutionToVariables_nil v : applySubstitutionToVariables [] v = v.
Proof.
  induction v as [r|o n|vs IH] using Variables_nested_ind; try reflexivity.
  cbn [applySubstitutionToVariables]. f_equal.
  induction IH as [|v vs Hv _ IHvs]; [reflexivity|]. cbn. now rewrite Hv, IHvs.
Qed.

(** X14. A substitution that binds none of the quantified names of [v]
    leaves [v] as it is; the empty substitution is one. *)
Theorem applySubstitutionToVariables_unbound (subs : list Substitution) (v : Variables) :
  forallb (fun n => negb (bindsName subs n)) (quantifiedNames v) = true ->
  applySubstitutionToVariables subs v = v.
Proof.
  induction v as [r|o n|vs IH] using Variables_nested_ind; intros U; try reflexivity.
  - cbn in U. rewrite andb_true_r in U. apply negb_true_iff in U.
    cbn. now rewrite (findByName_unbound subs n U).
  - cbn [applySubstitutionToVariables]. f_equal.
    cbn [quantifiedNames] in U.
    induction IH as [|c vs Hc _ IHvs]; [reflexivity|].
    cbn [map concat] in U. rewrite forallb_app in U. apply andb_true_iff in U as [U1 U2].
    cbn. now rewrite (Hc U1), (IHvs U2).
Qed.

(** X14 on the union [a, 'x'] and a substitution for [b]. *)
Lemma applySubstitutionToVariables_unbound_witness :
  applySubstitutionToVariables [SubVariable "b" (VConcrete 1)]
    (VUnion [VQuantified 0 "a"; VConcrete 0])
  = VUnion [VQuantified 0 "a"; VConcrete 0].
Proof.
  apply (applySubstitutionToVariables_unbound
           [SubVariable "b" (VConcrete 1)] (VUnion [VQuantified 0 "a"; VConcrete 0])).
  reflexivity.
Defined.

(** ** Substitutions applied to an arrow *)

Lemma mapM_applySubstitution_returns subs params :
  forall h, exists rs h', mapM (applySubstitution subs) params h = Returns rs h'
                          /\ length rs = length params.
Proof.
  induction params as [|p ps IH]; intros h.
  - now exists [], h.
  - destruct (applySubstitution_returns subs p h) as (r & h1 & E & _).
    destruct (IH h1) as (rs & h2 & E2 & L).
    exists (r :: rs), h2. split; [|cbn; now rewrite L].
    cbn [mapM]. unfold bind at 1. rewrite E. unfold bind at 1. now rewrite E2.
Qed.

(** X15. Applying a substitution to an arrow always returns; when it
    succeeds the result is an arrow with as many parameters, each the result
    of applying the substitution to the parameter at the same place, from
    left to right, and then to the result of the arrow. *)
Theorem applySubstitution_arrow (subs : list Substitution) (params : list Effect)
    (result : Effect) (h : Heap) :
  exists res h',
    applySubstitution subs (EArrow params result) h = Returns res h'
    /\ forall e', res = Right e' ->
         exists params' result' h1,
           e' = EArrow params' result'
           /\ length params' = length params
           /\ mapM (applySubstitution subs) params h = Returns (map Right params') h1
           /\ applySubstitution subs result h1 = Returns (Right result') h'.
Proof.
  destruct (mapM_applySubstitution_returns subs params h) as (rs & h1 & E & L).
  cbn [applySubstitution]. unfold bind at 1. unfold bind at 1. rewrite E.
  destruct (mergeInMany rs) as [errors|ps] eqn:MM.
  - unfold bind, ret, getHeap. cbn [mapLeft]. do 2 eexists. split; [reflexivity|]. discriminate.
  - apply mergeInMany_Right in MM. subst rs. rewrite length_map in L.
    destruct (applySubstitution_returns subs result h1) as (r & h2 & E2 & _).
    unfold bind at 1. unfold bind at 1. rewrite E2.
    destruct r as [t|r']; unfold bind, ret, getHeap; cbn [mapLeft simplifyIfConcrete];
      do 2 eexists; (split; [reflexivity|]); [discriminate|].
    intros e' [= <-]. now exists ps, r', h1.
Qed.

(** ** The bag unifier on quantified variables and on concrete bags *)

(** X16. When one of the two flattened arguments of [unifyVariables] is a
    quantified variable, the call succeeds, whether or not the variable
    occurs in the other argument: it returns no binding for two variables of
    the same name, and otherwise one binding, of the first argument when that
    is a variable and of the second when it is not. *)
Theorem unifyVariables_binds (va vb v1 v2 : Variables) (h h1 h2 : Heap) :
  flattenUnions va h = Returns v1 h1 ->
  flattenUnions vb h1 = Returns v2 h2 ->
  isQuantified v1 || isQuantified v2 = true ->
  exists h',
    unifyVariables va vb h
    = Returns (Right match v1, v2 with
                     | VQuantified _ n1, VQuantified _ n2 =>
                         if String.eqb n1 n2 then [] else [SubVariable n1 v2]
                     | VQuantified _ n1, _ => [SubVariable n1 v2]
                     | _, VQuantified _ n2 => [SubVariable n2 v1]
                     | _, _ => []
                     end) h'
    /\ arrays h' = arrays h2.
Proof.
  intros E1 E2 Q. unfold unifyVariables.
  rewrite (bind_returns _ _ _ _ _ E1), (bind_returns _ _ _ _ _ E2), bind_getHeap.
  cbv zeta.
  assert (B : forall name other,
             exists h',
               (let* bound := bindVariables name other in
                match bound with
                | Right subs => ret (Right [subs])
                | Left msg =>
                    ret (Left (buildErrorLeaf (unifyVariablesLocation h2 v1 v2) msg))
                end) h2 = Returns (Right [SubVariable name other]) h'
               /\ arrays h' = arrays h2).
  { intros name other.
    destruct (bindVariables_never_fails name other h2) as (ns & g & _ & E & A).
    unfold bind. rewrite E. eexists. split; [reflexivity|exact A]. }
  destruct v1 as [r1|o1 n1|vs1], v2 as [r2|o2 n2|vs2]; try discriminate; try apply B.
  destruct (String.eqb n1 n2); [|apply B]. now exists h2.
Qed.

(** X16 on [a] and the union [a, b]. *)
Lemma unifyVariables_binds_witness :
  exists h',
    unifyVariables (VQuantified 0 "a") unionAB (emptyArrays 0)
    = Returns (Right [SubVariable "a" unionAB]) h'
    /\ arrays h' = arrays (emptyArrays 1).
Proof.
  apply (unifyVariables_binds (VQuantified 0 "a") unionAB (VQuantified 0 "a") unionAB
           (emptyArrays 0) (emptyArrays 0) (emptyArrays 1)); reflexivity.
Defined.

(** X17. When both flattened arguments of [unifyVariables] are concrete bags,
    the call succeeds, with no binding, exactly when the two bags hold the
    same names with the same multiplicities.  Either way both arrays are left
    sorted, and on failure the message lists the names in sorted order while
    the location shows them in the order they had. *)
Theorem unifyVariables_concrete (va vb : Variables) (r1 r2 : ref) (h h1 h2 : Heap) :
  flattenUnions va h = Returns (VConcrete r1) h1 ->
  flattenUnions vb h1 = Returns (VConcrete r2) h2 ->
  exists res h',
    unifyVariables va vb h = Returns res h'
    /\ (Permutation (readArray r1 h2) (readArray r2 h2) -> res = Right [])
    /\ (~ Permutation (readArray r1 h2) (readArray r2 h2) ->
        res = Left (mkErrorTree
                      (Some ("Expected variables ["
                             +:+ join "," (sorted (readArray r1 h2))
                             +:+ "] and [" +:+ join "," (sorted (readArray r2 h2))
                             +:+ "] to be the same"))
                      (unifyVariablesLocation h2 (VConcrete r1) (VConcrete r2))
                      []))
    /\ readArray r1 h' = sorted (readArray r1 h2)
    /\ readArray r2 h' = sorted (readArray r2 h2).
Proof.
  intros E1 E2. unfold unifyVariables.
  rewrite (bind_returns _ _ _ _ _ E1), (bind_returns _ _ _ _ _ E2), bind_getHeap.
  cbv zeta.
  destruct (sameVars_sorts r1 r2 h2) as (b & h' & E & P & S1 & S2 & _).
  rewrite (bind_returns _ _ _ _ _ E).
  destruct b.
  - exists (Right []), h'. split; [reflexivity|]. split; [reflexivity|].
    split; [|now split]. intros N. exfalso. apply N. now apply P.
  - rewrite bind_getHeap. unfold ret. rewrite S1, S2.
    do 2 eexists. split; [reflexivity|]. split; [|now split].
    intros Q. apply P in Q. discriminate.
Qed.

(** X17 on the bags ['y', 'x'] and ['x', 'y']. *)
Lemma unifyVariables_concrete_witness :
  exists res h',
    unifyVariables (VConcrete 1) (VConcrete 3) updateHeap = Returns res h'
    /\ (Permutation (readArray 1 updateHeap) (readArray 3 updateHeap) -> res = Right [])
    /\ (~ Permutation (readArray 1 updateHeap) (readArray 3 updateHeap) ->
        res = Left (mkErrorTree
                      (Some ("Expected variables ["
                             +:+ join "," (sorted (readArray 1 updateHeap))
                             +:+ "] and [" +:+ join "," (sorted (readArray 3 updateHeap))
                             +:+ "] to be the same"))
                      (unifyVariablesLocation updateHeap (VConcrete 1) (VConcrete 3))
                      []))
    /\ readArray 1 h' = sorted (readArray 1 updateHeap)
    /\ readArray 3 h' = sorted (readArray 3 updateHeap).
Proof.
  apply (unifyVariables_concrete (VConcrete 1) (VConcrete 3) 1 3
           updateHeap updateHeap updateHeap); reflexivity.
Defined.

(** ** The names of an effect *)

Lemma stampedFrom_nil h : stampedFrom h h [].
Proof. repeat split. cbn. lia. Qed.

Lemma stampedFrom_app h h1 h2 ns1 ns2 :
  stampedFrom h h1 ns1 -> stampedFrom h1 h2 ns2 -> stampedFrom h h2 (ns1 ++ ns2).
Proof.
  intros (S1 & N1 & A1) (S2 & N2 & A2). split; [|split].
  - rewrite map_app, length_app, seq_app, S1, S2, N1. reflexivity.
  - rewrite length_app. lia.
  - congruence.
Qed.

Lemma mapM_names {A} (f : A -> M (list Name)) (g : A -> list (NameKind * string)) l :
  Forall (fun x => forall h, exists ns h',
            f x h = Returns ns h' /\ map kindAndName ns = g x /\ stampedFrom h h' ns) l ->
  forall h, exists nss h',
    mapM f l h = Returns nss h'
    /\ map kindAndName (concat nss) = concat (map g l)
    /\ stampedFrom h h' (concat nss).
Proof.
  induction 1 as [|x l Hx _ IH]; intros h.
  - exists [], h. repeat split. cbn. lia.
  - destruct (Hx h) as (ns & h1 & E & K & S).
    destruct (IH h1) as (nss & h2 & E2 & K2 & S2).
    exists (ns :: nss), h2. split; [|split].
    + cbn [mapM]. unfold bind at 1. rewrite E. unfold bind at 1. now rewrite E2.
    + cbn [concat map]. now rewrite map_app, K, K2.
    + cbn [concat]. now apply (stampedFrom_app h h1 h2).
Qed.

Lemma variablesNames_lists v :
  forall h, exists ns h',
    variablesNames v h = Returns ns h'
    /\ map kindAndName ns = map (pair KVariable) (quantifiedNames v)
    /\ stampedFrom h h' ns.
Proof.
  induction v as [r|o n|vs IH] using Variables_nested_ind; intros h.
  - exists [], h. split; [reflexivity|]. split; [reflexivity|apply stampedFrom_nil].
  - do 2 eexists. split; [reflexivity|]. split; [reflexivity|].
    repeat split. cbn. lia.
  - destruct (mapM_names variablesNames (fun v => map (pair KVariable) (quantifiedNames v))
                vs IH h) as (nss & h' & E & K & S).
    exists (concat nss), h'. split; [|split; [|exact S]].
    + cbn [variablesNames]. unfold bind. now rewrite E.
    + rewrite K. cbn [quantifiedNames]. clear.
      induction vs as [|v vs IH]; [reflexivity|]. cbn. now rewrite map_app, IH.
Qed.

Lemma effectNames_lists e :
  forall h, exists ns h',
    effectNames e h = Returns ns h'
    /\ map kindAndName ns = quantifiedInEffect e
    /\ stampedFrom h h' ns.
Proof.
  induction e as [n|r u|ps res IHps IHres] using Effect_nested_ind; intros h.
  - do 2 eexists. split; [reflexivity|]. split; [reflexivity|].
    repeat split. cbn. lia.
  - destruct (variablesNames_lists r h) as (ns1 & h1 & E1 & K1 & S1).
    destruct (variablesNames_lists u h1) as (ns2 & h2 & E2 & K2 & S2).
    exists (ns1 ++ ns2), h2. split; [|split].
    + cbn [effectNames]. unfold bind at 1. rewrite E1. unfold bind at 1. now rewrite E2.
    + cbn [quantifiedInEffect]. now rewrite !map_app, K1, K2.
    + now apply (stampedFrom_app h h1 h2).
  - destruct (mapM_names effectNames quantifiedInEffect ps IHps h)
      as (nss & h1 & E1 & K1 & S1).
    destruct (IHres h1) as (ns2 & h2 & E2 & K2 & S2).
    exists (concat nss ++ ns2), h2. split; [|split].
    + cbn [effectNames]. unfold bind at 1. rewrite E1. unfold bind at 1. now rewrite E2.
    + cbn [quantifiedInEffect]. now rewrite map_app, K1, K2.
    + now apply (stampedFrom_app h h1 h2).
Qed.

(** X18. [effectNames e] returns one new [Name] object for each occurrence
    of a quantified name in [e], from left to right: kind 'effect' for
    quantified effects, kind 'variable' for quantified variables, nothing for
    concrete bags.  No two of the objects are the same, and no array
    changes. *)
Theorem effectNames_lists_occurrences (e : Effect) (h : Heap) :
  exists ns h',
    effectNames e h = Returns ns h'
    /\ map kindAndName ns = quantifiedInEffect e
    /\ NoDup (map stamp ns)
    /\ arrays h' = arrays h.
Proof.
  destruct (effectNames_lists e h) as (ns & h' & E & K & S & _ & A).
  exists ns, h'. repeat split; try assumption.
  rewrite S. apply NoDup_ListNoDup, seq_NoDup.
Qed.

(** ** Printing *)

(** X19. [effectToString] prints "Pure" for a concrete effect whose read and
    update parts are both empty concrete bags, for the quantified effect of
    that name, and for nothing else. *)
Theorem effectToString_pure (e : Effect) (h : Heap) :
  effectToString h e = "Pure"
  <-> match e with
      | EQuantified n => n = "Pure"
      | EConcrete read update =>
          exists r1 r2, read = VConcrete r1 /\ update = VConcrete r2
                        /\ readArray r1 h = [] /\ readArray r2 h = []
      | EArrow _ _ => False
      end.
Proof.
  destruct e as [n|read update|params result]; cbn [effectToString].
  - reflexivity.
  - split.
    + destruct read as [r1|o1 n1|vs1], update as [r2|o2 n2|vs2]; cbn [printed];
        try (destruct (negb _); cbn; discriminate); try (cbn; discriminate).
      destruct (readArray r1 h) as [|x xs] eqn:E1, (readArray r2 h) as [|y ys] eqn:E2;
        cbn; try discriminate.
      intros _. now exists r1, r2.
    + intros (r1 & r2 & -> & -> & E1 & E2). cbn [printed]. now rewrite E1, E2.
  - split; [cbn; discriminate|contradiction].
Qed.

(** ** What the functions leave of the arrays *)

Section Keeps.
Variable R : list string -> list string -> Prop.
Hypothesis R_refl : forall xs, R xs xs.
Hypothesis R_trans : forall xs ys zs, R xs ys -> R ys zs -> R xs zs.
Variable n : nat.

Lemma keeps_ret {A} (Q : A -> Prop) a : Q a -> keeps R n Q (ret a).
Proof. intros q h _. cbn. auto. Qed.

Lemma keeps_bind {A B} (P : A -> Prop) (Q : B -> Prop) (m : M A) (k : A -> M B) :
  keeps R n P m -> (forall a, P a -> keeps R n Q (k a)) -> keeps R n Q (bind m k).
Proof.
  intros Hm Hk h L. unfold bind. specialize (Hm h L).
  destruct (m h) as [a h1| |]; trivial.
  destruct Hm as (L1 & F1 & p).
  specialize (Hk a p h1 ltac:(lia)).
  destruct (k a h1) as [b h2| |]; trivial.
  destruct Hk as (L2 & F2 & q).
  split; [lia|]. split; [|exact q].
  intros r Hr. exact (R_trans _ _ _ (F1 r Hr) (F2 r Hr)).
Qed.

Lemma keeps_weaken {A} (P Q : A -> Prop) (m : M A) :
  (forall a, P a -> Q a) -> keeps R n P m -> keeps R n Q m.
Proof.
  intros I Hm h L. specialize (Hm h L). destruct (m h); trivial.
  destruct Hm as (L1 & F1 & p). auto.
Qed.

Lemma keeps_same_arrays {A} (Q : A -> Prop) (m : M A) :
  (forall h, exists a h', m h = Returns a h' /\ arrays h' = arrays h /\ Q a) ->
  keeps R n Q m.
Proof.
  intros H h L. destruct (H h) as (a & h' & -> & E & q).
  unfold readArray. rewrite E. auto.
Qed.

Lemma keeps_getHeap : keeps R n anything getHeap.
Proof. intros h _. cbn. unfold anything. auto. Qed.

Lemma keeps_mapM {A B} (Q : B -> Prop) (f : A -> M B) l :
  Forall (fun x => keeps R n Q (f x)) l -> keeps R n (Forall Q) (mapM f l).
Proof.
  induction 1 as [|x l Hx _ IH]; cbn [mapM].
  - apply keeps_ret. constructor.
  - apply (keeps_bind Q); [exact Hx|]. intros y Qy.
    apply (keeps_bind (Forall Q)); [apply IH|]. intros ys Qys.
    apply keeps_ret. now constructor.
Qed.

Lemma keeps_newArray xs : keeps R n (fun r => n <= r) (newArray xs).
Proof.
  intros h L. cbn. rewrite length_app. cbn. split; [lia|]. split; [|exact L].
  intros r Hr. unfold readArray. cbn [arrays].
  rewrite lookup_app_l by lia. apply R_refl.
Qed.

Lemma keeps_getArray r : keeps R n anything (getArray r).
Proof. intros h _. cbn. unfold anything. auto. Qed.

Lemma keeps_setArray r xs : n <= r -> keeps R n anything (setArray r xs).
Proof.
  intros Hr h L. cbn. rewrite length_insert. split; [lia|]. split; [|exact I].
  intros r' Hr'. unfold readArray. cbn [arrays].
  rewrite list_lookup_insert_ne by lia. apply R_refl.
Qed.

Lemma keeps_pushArray r xs : n <= r -> keeps R n anything (pushArray r xs).
Proof.
  intros Hr. unfold pushArray.
  apply (keeps_bind anything); [apply keeps_getArray|]. intros old _.
  now apply keeps_setArray.
Qed.

Lemma keeps_collectFlattened vars fvs :
  n <= vars -> keeps R n anything (collectFlattened vars fvs).
Proof.
  intros Hv. induction fvs as [|v fvs IH]; cbn [collectFlattened].
  - now apply keeps_ret.
  - apply (keeps_bind anything).
    + destruct v; try now apply keeps_ret.
      apply (keeps_bind anything); [apply keeps_getArray|]. intros xs _.
      apply (keeps_bind anything); [now apply keeps_pushArray|]. intros _ _.
      now apply keeps_ret.
    + intros pushed _. apply (keeps_bind anything); [exact IH|].
      intros more _. now apply keeps_ret.
Qed.

Lemma keeps_flattenUnions v : keeps R n anything (flattenUnions v).
Proof.
  induction v as [r|o name|vs IH] using Variables_nested_ind; try now apply keeps_ret.
  cbn [flattenUnions].
  apply (keeps_bind (fun r => n <= r)); [apply keeps_newArray|]. intros vars Hv.
  apply (keeps_bind (Forall anything)); [now apply keeps_mapM|]. intros fvs _.
  apply (keeps_bind anything); [now apply keeps_collectFlattened|]. intros uv _.
  apply (keeps_bind anything); [apply keeps_getArray|]. intros names _.
  destruct (Nat.ltb 0 (length uv)); [|now apply keeps_ret].
  destruct (Nat.ltb 1 _); [now apply keeps_ret|].
  destruct (if Nat.ltb 0 (length names) then _ else _); now apply keeps_ret.
Qed.

Lemma keeps_uniqueVariables v : keeps R n anything (uniqueVariables v).
Proof.
  induction v as [r|o name|vs IH] using Variables_nested_ind; cbn [uniqueVariables].
  - apply (keeps_bind anything); [apply keeps_getArray|]. intros xs _.
    apply (keeps_bind (fun r => n <= r)); [apply keeps_newArray|]. intros r' _.
    now apply keeps_ret.
  - now apply keeps_ret.
  - apply (keeps_bind (Forall anything)); [now apply keeps_mapM|]. intros nested _.
    now apply keeps_ret.
Qed.

Lemma keeps_simplifyConcreteEffect read update :
  keeps R n anything (simplifyConcreteEffect read update).
Proof.
  unfold simplifyConcreteEffect.
  apply (keeps_bind anything); [apply keeps_flattenUnions|]. intros flatRead _.
  apply (keeps_bind anything); [apply keeps_uniqueVariables|]. intros read' _.
  apply (keeps_bind anything); [apply keeps_flattenUnions|]. intros update' _.
  apply (keeps_bind anything); [apply keeps_getHeap|]. intros h _.
  cbv zeta. destruct (Nat.ltb 0 _); now apply keeps_ret.
Qed.

Lemma keeps_simplifyIfConcrete e : keeps R n anything (simplifyIfConcrete e).
Proof.
  destruct e; cbn [simplifyIfConcrete];
    [now apply keeps_ret|apply keeps_simplifyConcreteEffect|now apply keeps_ret].
Qed.

Lemma keeps_applySubstitution subs e : keeps R n anything (applySubstitution subs e).
Proof.
  induction e as [name|r u|ps res IHps IHres] using Effect_nested_ind;
    cbn [applySubstitution].
  - apply (keeps_bind anything).
    + destruct (findByName subs name) as [[? ?|? ?]|]; now apply keeps_ret.
    + intros [err|e'] _; [now apply keeps_ret|apply keeps_simplifyIfConcrete].
  - apply (keeps_bind anything); [now apply keeps_ret|].
    intros [err|e'] _; [now apply keeps_ret|apply keeps_simplifyIfConcrete].
  - apply (keeps_bind anything).
    + apply (keeps_bind (Forall anything)); [now apply keeps_mapM|]. intros applied _.
      apply (keeps_bind anything).
      * destruct (mergeInMany applied); [now apply keeps_ret|].
        apply (keeps_bind anything); [exact IHres|].
        intros [err|r] _; now apply keeps_ret.
      * intros chained _. apply (keeps_bind anything); [apply keeps_getHeap|].
        intros h _. now apply keeps_ret.
    + intros [err|e'] _; [now apply keeps_ret|apply keeps_simplifyIfConcrete].
Qed.

Lemma keeps_applySubstitutionsToSubstitution subs s :
  keeps R n anything (applySubstitutionsToSubstitution subs s).
Proof.
  destruct s as [name v|name e]; cbn [applySubstitutionsToSubstitution];
    [now apply keeps_ret|].
  apply (keeps_bind anything); [apply keeps_applySubstitution|].
  intros [err|v] _; now apply keeps_ret.
Qed.

Lemma keeps_compose s1 s2 : keeps R n anything (compose s1 s2).
Proof.
  unfold compose.
  apply (keeps_bind (Forall anything)).
  - apply keeps_mapM, Forall_forall. intros s _.
    apply keeps_applySubstitutionsToSubstitution.
  - intros applied _. destruct (mergeInMany applied); now apply keeps_ret.
Qed.

Lemma keeps_bindVariables name v : keeps R n anything (bindVariables name v).
Proof.
  apply keeps_same_arrays. intros h.
  destruct (bindVariables_never_fails name v h) as (ns & h1 & _ & E & A).
  do 2 eexists. split; [exact E|]. now split.
Qed.

Lemma keeps_bindQuantified loc name other : keeps R n anything (bindQuantified loc name other).
Proof.
  apply keeps_same_arrays. intros h.
  destruct (bindEffect_never_fails name other h) as (ns & h1 & _ & E & A).
  unfold bindQuantified, bind. rewrite E.
  do 2 eexists. split; [reflexivity|]. now split.
Qed.

Lemma keeps_ensureConcreteEffect e : keeps R n anything (ensureConcreteEffect e).
Proof.
  destruct e; cbn [ensureConcreteEffect]; try now apply keeps_ret.
  all: intros h _; exact I.
Qed.
End Keeps.

Lemma reordered_refl xs : reordered xs xs.
Proof. apply Permutation_refl. Qed.

Lemma reordered_trans xs ys zs : reordered xs ys -> reordered ys zs -> reordered xs zs.
Proof. apply Permutation_trans. Qed.

Section Reorders.
Variable n : nat.

Lemma keeps_sortStrings array : keeps reordered n anything (sortStrings array).
Proof.
  intros h L. cbn. rewrite length_insert. split; [lia|]. split; [|exact I].
  intros r _.
  rewrite (readArray_update sorted r array h (nextName h) eq_refl).
  destruct (Nat.eqb r array); [|apply reordered_refl].
  unfold reordered. symmetry. apply sorted_perm.
Qed.

Lemma keeps_sameVars v1 v2 : keeps reordered n anything (sameVars v1 v2).
Proof.
  unfold sameVars.
  apply (keeps_bind reordered reordered_trans n anything); [apply keeps_sortStrings|].
  intros v1s _.
  apply (keeps_bind reordered reordered_trans n anything); [apply keeps_sortStrings|].
  intros v2s _.
  apply (keeps_bind reordered reordered_trans n anything);
    [apply keeps_getArray, reordered_refl|]. intros a _.
  apply (keeps_bind reordered reordered_trans n anything);
    [apply keeps_getArray, reordered_refl|]. intros b _.
  apply keeps_ret; [apply reordered_refl|exact I].
Qed.

Ltac step := apply (keeps_bind reordered reordered_trans n anything).
Ltac done_ := apply keeps_ret; [apply reordered_refl|exact I].

Lemma keeps_unifyVariables va vb : keeps reordered n anything (unifyVariables va vb).
Proof.
  unfold unifyVariables.
  step; [apply keeps_flattenUnions; [apply reordered_refl|apply reordered_trans]|].
  intros v1 _.
  step; [apply keeps_flattenUnions; [apply reordered_refl|apply reordered_trans]|].
  intros v2 _.
  step; [apply keeps_getHeap, reordered_refl|]. intros h _. cbv zeta.
  assert (B : forall name other,
             keeps reordered n anything
               (let* bound := bindVariables name other in
                match bound with
                | Right subs => ret (Right [subs])
                | Left msg =>
                    ret (Left (buildErrorLeaf (unifyVariablesLocation h v1 v2) msg))
                end)).
  { intros name other. step; [apply keeps_bindVariables, reordered_refl|].
    intros [msg|subs] _; done_. }
  destruct v1 as [r1|o1 n1|vs1], v2 as [r2|o2 n2|vs2]; try apply B.
  - step; [apply keeps_sameVars|]. intros [|] _; [done_|].
    step; [apply keeps_getHeap, reordered_refl|]. intros h' _. done_.
  - destruct (jsonEqb _ _); done_.
  - destruct (String.eqb n1 n2); [done_|apply B].
  - destruct (jsonEqb _ _); done_.
  - destruct (jsonEqb _ _); done_.
Qed.

Lemma keeps_reordered_applySubstitution subs e :
  keeps reordered n anything (applySubstitution subs e).
Proof. apply keeps_applySubstitution; [apply reordered_refl|apply reordered_trans]. Qed.

Lemma keeps_unifyConcrete loc read1 update1 read2 update2 :
  keeps reordered n anything (unifyConcrete loc read1 update1 read2 update2).
Proof.
  unfold unifyConcrete.
  step; [apply keeps_unifyVariables|]. intros readResult _.
  step.
  - destruct readResult as [err|subs]; [done_|].
    step; [apply keeps_reordered_applySubstitution|]. intros a1 _.
    step; [apply keeps_reordered_applySubstitution|]. intros a2 _.
    destruct (mergeInMany [a1; a2]) as [errors|effects]; [done_|].
    apply (keeps_bind reordered reordered_trans n (Forall anything)).
    + apply keeps_mapM; [apply reordered_refl|apply reordered_trans|].
      apply Forall_forall. intros e _. apply keeps_ensureConcreteEffect, reordered_refl.
    + intros [|e1s [|e2s [|e3 l]]] _; try done_.
      step; [apply keeps_unifyVariables|]. intros r _. done_.
  - intros updateResult _. destruct (merge _); done_.
Qed.

Variable unify' : Effect -> Effect -> M (Either ErrorTree (list Substitution)).
Hypothesis keeps_unify' : forall x y, keeps reordered n anything (unify' x y).

Lemma keeps_applySubstitutionsAndUnify subs e1 e2 :
  keeps reordered n anything (applySubstitutionsAndUnify unify' subs e1 e2).
Proof.
  unfold applySubstitutionsAndUnify.
  step; [apply keeps_reordered_applySubstitution|]. intros a1 _.
  step; [apply keeps_reordered_applySubstitution|]. intros a2 _.
  destruct (mergeInMany [a1; a2]) as [errs|[|x [|y [|z l]]]]; try done_.
  step; [apply keeps_unify'|].
  intros [err|newSubs] _; [done_|].
  step; [apply keeps_compose; [apply reordered_refl|apply reordered_trans]|].
  intros c _. done_.
Qed.

Lemma keeps_unifyParams params1 : forall result params2,
  keeps reordered n anything (unifyParams unify' result params1 params2).
Proof.
  induction params1 as [|e rest IH]; intros result [|e' rest']; cbn [unifyParams];
    try done_.
  step; [|intros next _; apply IH].
  destruct result; [done_|apply keeps_applySubstitutionsAndUnify].
Qed.

Lemma keeps_unifyArrows loc params1 result1 params2 result2 :
  keeps reordered n anything (unifyArrows unify' loc params1 result1 params2 result2).
Proof.
  unfold unifyArrows. destruct (negb _); [done_|].
  step; [apply keeps_unifyParams|].
  intros [err|subs] _; [done_|apply keeps_applySubstitutionsAndUnify].
Qed.
End Reorders.

Lemma keeps_unify n fuel : forall ea eb, keeps reordered n anything (unify fuel ea eb).
Proof.
  induction fuel as [|fuel IH]; intros ea eb; [intros h _; exact I|].
  cbn [unify].
  apply (keeps_bind reordered reordered_trans n anything);
    [apply keeps_getHeap, reordered_refl|]. intros h _.
  apply (keeps_bind reordered reordered_trans n (Forall anything)).
  { apply keeps_mapM; [apply reordered_refl|apply reordered_trans|].
    apply Forall_forall. intros e _.
    apply keeps_simplifyIfConcrete; [apply reordered_refl|apply reordered_trans]. }
  intros rs _.
  apply (keeps_bind reordered reordered_trans n anything);
    [|intros u _; apply keeps_ret; [apply reordered_refl|exact I]].
  destruct (mergeInMany rs) as [errs|[|e1 [|e2 [|e3 l]]]];
    try (apply keeps_ret; [apply reordered_refl|exact I]).
  destruct e1 as [n1|r1 u1|ps1 res1], e2 as [n2|r2 u2|ps2 res2];
    try (apply keeps_bindQuantified, reordered_refl);
    try (apply keeps_ret; [apply reordered_refl|exact I]).
  - apply keeps_unifyConcrete.
  - now apply keeps_unifyArrows.
Qed.

(** X20. [unify] removes no array and changes no existing array except in
    the order of its names: whatever it returns, every array that existed
    before holds the same names, with the same multiplicities. *)
Theorem unify_only_reorders (fuel : nat) (ea eb : Effect) (h h' : Heap)
    (res : Either ErrorTree (list Substitution)) :
  unify fuel ea eb h = Returns res h' ->
  length (arrays h) <= length (arrays h')
  /\ forall r, r < length (arrays h) -> Permutation (readArray r h) (readArray r h').
Proof.
  intros E. pose proof (keeps_unify (length (arrays h)) fuel ea eb h (le_n _)) as K.
  rewrite E in K. destruct K as (L & F & _). now split.
Qed.

(** X20 on [Update['y', 'x']] and [Update['x', 'y']]. *)
Lemma unify_only_reorders_witness :
  exists res h',
    unify 1 updateYX updateXY updateHeap = Returns res h'
    /\ length (arrays updateHeap) <= length (arrays h')
    /\ forall r, r < length (arrays updateHeap) ->
                 Permutation (readArray r updateHeap) (readArray r h').
Proof.
  do 2 eexists. split; [vm_compute; reflexivity|].
  eapply (unify_only_reorders 1 updateYX updateXY updateHeap).
  vm_compute. reflexivity.
Defined.

Lemma same_reads_prefix (h h' : Heap) :
  length (arrays h) <= length (arrays h') ->
  (forall r, r < length (arrays h) -> readArray r h = readArray r h') ->
  exists extra, arrays h' = arrays h ++ extra.
Proof.
  intros L F. exists (drop (length (arrays h)) (arrays h')).
  rewrite <- (take_drop (length (arrays h)) (arrays h')) at 1. f_equal.
  apply list_eq. intros r.
  destruct (Nat.lt_ge_cases r (length (arrays h))) as [Hr|Hr].
  - rewrite lookup_take_lt by exact Hr.
    specialize (F r Hr). unfold readArray in F.
    destruct (lookup_lt_is_Some_2 (arrays h) r Hr) as [x Ex].
    destruct (lookup_lt_is_Some_2 (arrays h') r ltac:(lia)) as [y Ey].
    rewrite Ex, Ey in *. cbn in F. now subst.
  - rewrite lookup_take_ge by exact Hr. symmetry. now apply lookup_ge_None.
Qed.

Lemma compose_returns s1 s2 h : exists res h', compose s1 s2 h = Returns res h'.
Proof.
  destruct (mapM_applySubstitutionsToSubstitution s1 s2 h) as (applied & h' & E & _).
  unfold compose, bind. rewrite E. destruct (mergeInMany applied); eauto.
Qed.

(** X21. Applying a substitution to an effect and composing two
    substitutions always return, and neither changes an existing array: the
    arrays of the heap afterwards are the arrays before, followed by new
    ones. *)
Theorem substitution_keeps_arrays (s1 s2 : list Substitution) (e : Effect) (h : Heap) :
  (exists res h' extra,
      applySubstitution s1 e h = Returns res h' /\ arrays h' = arrays h ++ extra)
  /\ (exists res h' extra,
         compose s1 s2 h = Returns res h' /\ arrays h' = arrays h ++ extra).
Proof.
  split.
  - destruct (applySubstitution_returns s1 e h) as (res & h' & E & _).
    pose proof (keeps_applySubstitution eq (@eq_refl _) (@eq_trans _)
                  (length (arrays h)) s1 e h (le_n _)) as K.
    rewrite E in K. destruct K as (L & F & _).
    destruct (same_reads_prefix h h' L F) as [extra X]. now exists res, h', extra.
  - destruct (compose_returns s1 s2 h) as (res & h' & E).
    pose proof (keeps_compose eq (@eq_refl _) (@eq_trans _)
                  (length (arrays h)) s1 s2 h (le_n _)) as K.
    rewrite E in K. destruct K as (L & F & _).
    destruct (same_reads_prefix h h' L F) as [extra X]. now exists res, h', extra.
Qed.

(** ** Unifying an effect with itself *)

Lemma jsonEqb_refl j : jsonEqb j j = true.
Proof. now apply jsonEqb_spec. Qed.

Lemma unifyBags_refl b : unifyBags b b = Some [].
Proof.
  destruct b as [xs|o n|bs]; cbn [unifyBags].
  - now rewrite sameNames_refl.
  - now rewrite String.eqb_refl.
  - now rewrite jsonEqb_refl.
Qed.

Lemma updateOk_NoDup b : updateOk b = true <-> NoDup (namesOfBag b).
Proof.
  unfold updateOk. rewrite <- repeatedIn_NoDup.
  destruct (repeatedIn (namesOfBag b)); cbn; split; congruence.
Qed.

Lemma updateOk_flattenBag b : updateOk (flattenBag b) = updateOk b.
Proof.
  apply bool_eq_iff. rewrite !updateOk_NoDup.
  now rewrite (flattenBag_names b).
Qed.

Lemma unifyConcrete_same loc r1 u1 r2 u2 h :
  validIn h r1 = true -> validIn h u1 = true ->
  validIn h r2 = true -> validIn h u2 = true ->
  (forall k, avoids k r1 = true \/ avoids k u1 = true) ->
  (forall k, avoids k r2 = true \/ avoids k u1 = true) ->
  (forall k, avoids k r1 = true \/ avoids k u2 = true) ->
  (forall k, avoids k r2 = true \/ avoids k u2 = true) ->
  bagOf h r1 = bagOf h r2 -> bagOf h u1 = bagOf h u2 ->
  updateOk (bagOf h u1) = true ->
  exists h', unifyConcrete loc r1 u1 r2 u2 h = Returns (Right []) h'.
Proof.
  intros Vr1 Vu1 Vr2 Vu2 D11 D21 D12 D22 Sr Su Ok.
  destruct (unifyVariables_bags r1 r2 h Vr1 Vr2) as (res1 & h3 & E & L & Fr & M).
  unfold unifyConcrete.
  rewrite (bind_returns _ _ _ _ _ E).
  rewrite Sr, unifyBags_refl in M.
  destruct M as (subs & -> & Mb & Vs).
  destruct subs as [|s subs]; [clear Mb Vs|discriminate].
  assert (Bu1 : bagOf h3 u1 = bagOf h u1) by now apply Fr.
  assert (Bu2 : bagOf h3 u2 = bagOf h u2) by now apply Fr.
  assert (V3 : forall v, validIn h v = true -> validIn h3 v = true)
    by (intros v; now apply validIn_length).
  rewrite !applySubstitution_concrete, !applySubstitutionToVariables_nil.
  destruct (simplifyConcreteEffect_bags r1 u1 h3) as (a1 & h4 & Ea & Xa & Ma); [auto..|].
  rewrite Bu1, Ok in Ma.
  destruct Ma as (r1s & u1s & -> & Vr1s & Vu1s & _ & Bu1s & _).
  destruct (simplifyConcreteEffect_bags r2 u2 h4) as (a2 & h5 & Eb & Xb & Mc).
  { apply (validIn_extends h3 h4); auto. }
  { apply (validIn_extends h3 h4); auto. }
  rewrite (bagOf_extends h3 h4 u2 Xa (V3 _ Vu2)), Bu2, <- Su, Ok in Mc.
  destruct Mc as (r2s & u2s & -> & Vr2s & Vu2s & _ & Bu2s & _).
  unfold bind at 1. rewrite (bind_returns _ _ _ _ _ Ea), (bind_returns _ _ _ _ _ Eb).
  cbn [andb mergeInMany mergeInManyFrom app].
  assert (Ee : mapM ensureConcreteEffect [EConcrete r1s u1s; EConcrete r2s u2s] h5
               = Returns [EConcrete r1s u1s; EConcrete r2s u2s] h5) by reflexivity.
  rewrite (bind_returns _ _ _ _ _ Ee). cbn [updateOf].
  assert (Vu1s5 : validIn h5 u1s = true) by now apply (validIn_extends h4 h5).
  destruct (unifyVariables_bags u1s u2s h5 Vu1s5 Vu2s) as (res2 & h6 & E2 & _ & _ & M2).
  rewrite (bagOf_extends h4 h5 u1s Xb Vu1s), Bu1s, Bu2s, unifyBags_refl in M2.
  rewrite (bind_returns _ _ _ _ _ E2).
  destruct M2 as (subs2 & -> & Mb2 & _).
  destruct subs2; [|discriminate].
  eexists. reflexivity.
Qed.

(** X22. A concrete effect whose arrays exist and that updates no name twice
    unifies with itself, with the empty substitution. *)
Theorem unify_concrete_reflexive (fuel : nat) (read update : Variables) (h : Heap) :
  validIn h read = true -> validIn h update = true ->
  NoDup (findVars h update) ->
  exists h',
    unify (S fuel) (EConcrete read update) (EConcrete read update) h
    = Returns (Right []) h'.
Proof.
  intros Vr Vu N.
  assert (Ok : updateOk (bagOf h update) = true).
  { apply updateOk_NoDup. now rewrite <- findVars_bagOf. }
  destruct (simplifyConcreteEffect_bags read update h Vr Vu) as (a1 & h1 & Ea & Xa & Ma).
  assert (Vr' : validIn h1 read = true) by now apply (validIn_extends h h1).
  assert (Vu' : validIn h1 update = true) by now apply (validIn_extends h h1).
  destruct (simplifyConcreteEffect_bags read update h1 Vr' Vu') as (a2 & h2 & Eb & Xb & Mb).
  rewrite (bagOf_extends h h1 update Xa Vu), (bagOf_extends h h1 read Xa Vr) in Mb.
  rewrite (unify_simplified fuel (EConcrete read update) (EConcrete read update)
             h a1 h1 a2 h2 Ea Eb).
  rewrite Ok in Ma, Mb.
  destruct Ma as (r1' & u1' & -> & Vr1s & Vu1s & Br1 & Bu1 & F1 & D1 & K1).
  destruct Mb as (r2' & u2' & -> & Vr2s & Vu2s & Br2 & Bu2 & F2 & D2 & K2).
  cbn [andb mergeInMany mergeInManyFrom app].
  pose proof (extends_length _ _ Xa) as La.
  destruct (unifyConcrete_same
              (unifyLocation h (EConcrete read update) (EConcrete read update))
              r1' u1' r2' u2' h2) as (h3 & E); trivial.
  - now apply (validIn_extends h1 h2).
  - now apply (validIn_extends h1 h2).
  - intros k. destruct (Nat.lt_ge_cases k (length (arrays h1))) as [Hlt|Hge].
    + left. now apply F2.
    + right. now apply (avoids_valid h1).
  - intros k. destruct (Nat.lt_ge_cases k (length (arrays h))) as [Hlt|Hge].
    + left. now apply F1.
    + destruct (Nat.lt_ge_cases k (length (arrays h1))) as [Hlt1|Hge1].
      * right. apply K2; [exact Hlt1|]. now apply (avoids_valid h).
      * left. now apply (avoids_valid h1).
  - rewrite (bagOf_extends h1 h2 r1' Xb Vr1s). congruence.
  - rewrite (bagOf_extends h1 h2 u1' Xb Vu1s). congruence.
  - rewrite (bagOf_extends h1 h2 u1' Xb Vu1s), Bu1. now rewrite updateOk_flattenBag.
  - rewrite (bind_returns _ _ _ _ _ E). eexists. reflexivity.
Qed.

(** X22 on [Update['y', 'x']]. *)
Lemma unify_concrete_reflexive_witness :
  exists h', unify 1 updateYX updateYX updateHeap = Returns (Right []) h'.
Proof.
  apply (unify_concrete_reflexive 0 (VConcrete 0) (VConcrete 1) updateHeap);
    try reflexivity.
  apply NoDup_ListNoDup. repeat constructor; cbn; intuition discriminate.
Defined.

(** ** Effects without quantified variables *)

Lemma flattenBag_ground b :
  quantifiedOfBag b = [] -> flattenBag b = BConcrete (namesOfBag b).
Proof.
  induction b as [xs|o n|bs IH] using Bag_nested_ind; cbn [quantifiedOfBag namesOfBag].
  - reflexivity.
  - discriminate.
  - intros G.
    assert (F : map flattenBag bs = map (fun b => BConcrete (namesOfBag b)) bs).
    { induction IH as [|b bs Hb _ IHbs]; [reflexivity|].
      cbn [map concat] in G. apply app_eq_nil in G as [G1 G2].
      cbn. now rewrite (Hb G1), (IHbs G2). }
    cbn [flattenBag]. rewrite F, !map_map. cbn [unionPart namesPart].
    replace (concat (map (fun _ : Bag => @nil Bag) bs)) with (@nil Bag)
      by (clear; induction bs; cbn; trivial).
    reflexivity.
Qed.

Lemma same_elements_permutation (xs ys : list string) :
  (forall x, In x xs <-> In x ys)
  <-> Permutation (setOfStrings [] xs) (setOfStrings [] ys).
Proof.
  split.
  - intros S. apply NoDup_Permutation; try apply setOfStrings_NoDup.
    intros x. rewrite !list_elem_of_In, !setOfStrings_In. cbn. specialize (S x). tauto.
  - intros P x.
    assert (A : forall l, In x l <-> In x (setOfStrings [] l)).
    { intros l. rewrite setOfStrings_In. cbn. tauto. }
    rewrite (A xs), (A ys), <- !list_elem_of_In. now rewrite P.
Qed.

(** X23. Two concrete effects without quantified variables, whose arrays
    exist, unify exactly when they update the same names, each once, and read
    the same set of names. *)
Theorem unify_ground_effects (fuel : nat) (read1 update1 read2 update2 : Variables)
    (h : Heap) :
  validIn h read1 = true -> validIn h update1 = true ->
  validIn h read2 = true -> validIn h update2 = true ->
  quantifiedNames read1 ++ quantifiedNames update1
  ++ quantifiedNames read2 ++ quantifiedNames update2 = [] ->
  exists res h',
    unify (S fuel) (EConcrete read1 update1) (EConcrete read2 update2) h = Returns res h'
    /\ (isRight res = true
        <-> NoDup (findVars h update1)
            /\ Permutation (findVars h update1) (findVars h update2)
            /\ forall x, In x (findVars h read1) <-> In x (findVars h read2)).
Proof.
  intros Vr1 Vu1 Vr2 Vu2 G.
  apply app_eq_nil in G as [Gr1 G]. apply app_eq_nil in G as [Gu1 G].
  apply app_eq_nil in G as [Gr2 Gu2].
  destruct (unify_concrete_bags fuel read1 update1 read2 update2 h Vr1 Vu1 Vr2 Vu2)
    as (res & h' & E & R).
  exists res, h'. split; [exact E|]. rewrite R. clear E R.
  rewrite <- (quantifiedOfBag_bagOf h) in Gr1, Gu1, Gr2, Gu2.
  rewrite !findVars_bagOf.
  set (r1 := bagOf h read1) in *. set (u1 := bagOf h update1) in *.
  set (r2 := bagOf h read2) in *. set (u2 := bagOf h update2) in *.
  unfold unifiable, concreteUnifiable.
  rewrite (flattenBag_ground r1 Gr1), (flattenBag_ground r2 Gr2),
    (flattenBag_ground u1 Gu1), (flattenBag_ground u2 Gu2).
  cbn [uniqueBag flattenBag unifyBags].
  rewrite same_elements_permutation, <- !sameNames_permutation.
  rewrite <- (updateOk_NoDup u1).
  destruct (sameNames (setOfStrings [] (namesOfBag r1)) (setOfStrings [] (namesOfBag r2))).
  - cbn [applyBag flattenBag unifyBags].
    assert (O1 : updateOk (BConcrete (namesOfBag u1)) = updateOk u1) by reflexivity.
    assert (O2 : updateOk (BConcrete (namesOfBag u2)) = updateOk u2) by reflexivity.
    rewrite O1, O2.
    destruct (sameNames (namesOfBag u1) (namesOfBag u2)) eqn:S.
    + assert (O : updateOk u2 = updateOk u1).
      { apply bool_eq_iff. rewrite !updateOk_NoDup.
        apply sameNames_permutation in S. now rewrite S. }
      rewrite O. destruct (updateOk u1); cbn; intuition congruence.
    + destruct (updateOk u1), (updateOk u2); cbn; intuition congruence.
  - rewrite andb_false_r. intuition congruence.
Qed.

(** X23 on [Update['y', 'x']] and [Update['x', 'y']]. *)
Lemma unify_ground_effects_witness :
  exists res h',
    unify 1 updateYX updateXY updateHeap = Returns res h'
    /\ (isRight res = true
        <-> NoDup (findVars updateHeap (VConcrete 1))
            /\ Permutation (findVars updateHeap (VConcrete 1))
                           (findVars updateHeap (VConcrete 3))
            /\ forall x, In x (findVars updateHeap (VConcrete 0))
                         <-> In x (findVars updateHeap (VConcrete 2))).
Proof.
  apply (unify_ground_effects 0 (VConcrete 0) (VConcrete 1) (VConcrete 2) (VConcrete 3)
           updateHeap); reflexivity.
Defined.
